(** * go-app-stager: the dependency closure and the staging tree

    A shallow embedding of [cmd/go-app-stager/gas.go]: the import-graph walk
    of [analyze], the tree copy of [copyTree], [copyFile] and [bundle], and
    the three staging modes with the [go.mod] search of [goModPath], and
    the choice of the Go version by [minorVersion].

    The collaborators of the program are kept at their interface: the
    package metadata provider ([go/build]'s [Context]) is a record of
    functions, the file system that is read is a record of functions, and
    the staged directory is a finite map that the copy writes. *)

From Stdlib Require Import Strings.Ascii.
From Stdlib Require Strings.String Strings.Byte.
From stdpp Require Import gmap strings list fin_maps sorting.

(** ** Results and errors *)

(** A Go [error] value.  [Opaque] is an error made by a collaborator (the
    provider, the operating system); [Errorf] is [fmt.Errorf] with its format
    and its arguments, in order, not yet rendered. *)
Inductive error : Type :=
| Opaque (msg : string)
| Errorf (format : string) (args : list arg)
with arg : Type :=
| AStr (s : string)
| AErr (e : error).

(** The double quote, for the formats that contain one. *)
Definition dq : string := String (ascii_of_nat 34) EmptyString.

Abbreviation result A := (A + error)%type.
Abbreviation Ok := inl (only parsing).
Abbreviation Err := inr (only parsing).

(** [contains p s]: [p] occurs in [s] ([strings.Contains]). *)
Fixpoint contains (p s : string) : bool :=
  String.prefix p s ||
  match s with
  | EmptyString => false
  | String _ s' => contains p s'
  end.

(** [mentions p e]: the text [p] occurs in the message of [e], that is in an
    opaque message or in one of the arguments formatted into it. *)
Fixpoint mentions (p : string) (e : error) : bool :=
  match e with
  | Opaque msg => contains p msg
  | Errorf _ args =>
      existsb (fun a => match a with
                        | AStr s => contains p s
                        | AErr e' => mentions p e'
                        end) args
  end.

(** ** Strings and paths *)

(** [strings.Split(s, sep)] for a separator of one byte: never empty. *)
Fixpoint splitOn (sep : ascii) (s : string) : list string :=
  match s with
  | EmptyString => [EmptyString]
  | String c s' =>
      if Ascii.eqb c sep then EmptyString :: splitOn sep s'
      else match splitOn sep s' with
           | x :: xs => String c x :: xs
           | [] => [String c EmptyString]
           end
  end.

Definition splitSlash : string -> list string := splitOn "/"%char.

(** [strings.TrimPrefix]. *)
Definition TrimPrefix (s prefix : string) : string :=
  if String.prefix prefix s
  then String.substring (String.length prefix)
                        (String.length s - String.length prefix) s
  else s.

(** [strings.ToLower] on the letters A to Z. *)
Fixpoint ToLower (s : string) : string :=
  match s with
  | EmptyString => EmptyString
  | String c s' =>
      let n := nat_of_ascii c in
      String (if (65 <=? n) && (n <=? 90) then ascii_of_nat (n + 32) else c)
             (ToLower s')
  end.

(** The line feed, for the formats that contain one. *)
Definition nl : string := String (ascii_of_nat 10) EmptyString.

(** [strings.SplitN(path, "/", 2)[0]]: the text before the first slash. *)
Fixpoint firstPart (s : string) : string :=
  match s with
  | EmptyString => EmptyString
  | String c s' => if Ascii.eqb c "/"%char then EmptyString else String c (firstPart s')
  end.

(** The element loop of [filepath.Clean]: [out] is the cleaned prefix, most
    recent element first.  Empty and [.] elements are dropped, [..] removes
    the element before it, is dropped at the root and is kept at the start of
    a relative path. *)
Fixpoint cleanElems (rooted : bool) (out : list string) (elems : list string)
  : list string :=
  match elems with
  | [] => rev out
  | e :: es =>
      if String.eqb e "" || String.eqb e "." then cleanElems rooted out es
      else if String.eqb e ".." then
        match out with
        | top :: out' =>
            if String.eqb top ".." then cleanElems rooted (e :: out) es
            else cleanElems rooted out' es
        | [] => if rooted then cleanElems rooted [] es
                else cleanElems rooted [e] es
        end
      else cleanElems rooted (e :: out) es
  end.

Module filepath.

Definition isRooted (s : string) : bool :=
  match s with
  | String c _ => Ascii.eqb c "/"%char
  | EmptyString => false
  end.

(** [filepath.Clean] with the Unix separator. *)
Definition Clean (p : string) : string :=
  if String.eqb p "" then "."
  else
    let out := cleanElems (isRooted p) [] (splitSlash p) in
    if isRooted p then "/" +:+ String.concat "/" out
    else match out with
         | [] => "."
         | _ => String.concat "/" out
         end.

(** [filepath.Join]: the elements from the first one that is not empty,
    joined by slashes and cleaned; the empty string when all are empty. *)
Fixpoint Join (elem : list string) : string :=
  match elem with
  | [] => ""
  | e :: es => if String.eqb e "" then Join es
               else Clean (String.concat "/" (e :: es))
  end.

(** [filepath.SplitList]: no element for the empty string. *)
Definition SplitList (p : string) : list string :=
  if String.eqb p "" then [] else splitOn ":"%char p.

End filepath.

(** A cleaned path in split form: the names below the root of its volume.
    On such paths [filepath.Join] is concatenation, [filepath.Dir] drops the
    last name and [.] is the empty list. *)
Abbreviation fpath := (list string).

(** The split form of a path given as a string. *)
Definition comps (p : string) : fpath :=
  cleanElems true [] (splitSlash p).

(** The string of an absolute path in split form. *)
Definition render (p : fpath) : string := "/" +:+ String.concat "/" p.

(** ** The collaborators *)

(** [go/build]'s [Package], the fields the stager reads. *)
Record Package := {
  Name : string;
  ImportPath : string;
  Dir : string;
  SrcRoot : string;
  Imports : list string
}.

(** The method [IsCommand] of [build.Package]. *)
Definition IsCommand (pkg : Package) : bool := String.eqb (Name pkg) "main".

(** [go/build]'s [Context]: the package metadata provider.  [ImportDir] is
    [ctx.ImportDir(dir, 0)] and [ImportFrom] is [ctx.Import(path, fromDir, 0)];
    target, tags and release tags are fixed when the context is built. *)
Record Context := {
  GOPATH : string;
  ImportDir : string -> result Package;
  ImportFrom : string -> string -> result Package
}.

(** [os.FileInfo] as the copy reads it: [Mode()&os.ModeSymlink] and
    [IsDir()]. *)
Record FileInfo := {
  fiName : string;
  fiIsDir : bool;
  fiSymlink : bool
}.

(** What [os.Open] followed by [io.Copy] reads from a file. *)
Inductive readResult :=
| ReadAll (data : list Byte.byte)
| OpenFailed (err : error)
| CopyFailed (partial : list Byte.byte) (err : error).

(** The process environment and the file system that is read.  [ReadDir] is
    [ioutil.ReadDir] (sorted by name, entries as [Lstat] sees them), [Stat]
    and [ReadFile] follow symbolic links as [os.Stat] and [os.Open] do. *)
Record OS := {
  Abs : string -> result string;
  Getenv : string -> string;
  DefaultGOPATH : string;
  ReadDir : fpath -> result (list FileInfo);
  Stat : fpath -> result FileInfo;
  ReadFile : fpath -> readResult
}.

Definition ENOENT : error := Opaque "no such file or directory".

(** [os.IsNotExist]. *)
Definition IsNotExist (e : error) : bool :=
  match e with
  | Opaque msg => String.eqb msg "no such file or directory"
  | Errorf _ _ => false
  end.

(** ** The closure resolver *)

Record importFrom := {
  path : string;
  fromDir : string
}.

Global Instance importFrom_eq_dec : EqDecision importFrom.
Proof. solve_decision. Defined.

Global Instance importFrom_countable : Countable importFrom :=
  inj_countable' (fun i => (path i, fromDir i))
                 (fun pd => {| path := pd.1; fromDir := pd.2 |})
                 (fun i => match i with Build_importFrom _ _ => eq_refl end).

(** Top-level standard library packages, the table at program start. *)
Definition skippedPackages : gmap string bool :=
  list_to_map (map (fun k => (k, true))
    ["appengine"; "appengine_internal"; "C"; "unsafe";
     "archive"; "bufio"; "builtin"; "bytes"; "compress"; "container";
     "context"; "crypto"; "database"; "debug"; "encoding"; "errors";
     "expvar"; "flag"; "fmt"; "go"; "hash"; "html"; "image"; "index";
     "io"; "log"; "math"; "mime"; "net"; "os"; "path"; "plugin";
     "reflect"; "regexp"; "runtime"; "sort"; "strconv"; "strings";
     "sync"; "syscall"; "testing"; "text"; "time"; "unicode"]).

(** [m[k]] on a [map[string]bool]: the value, [false] for a missing key. *)
Definition flag (m : gmap string bool) (k : string) : bool :=
  default false (m !! k).

(** The variables of the loop of [analyze]. *)
Record loopState := {
  imports : list importFrom;
  visited : gmap importFrom bool;
  visitedPackages : gmap string bool;
  packages : list Package
}.

(** What one iteration of the loop did with the edge it took. *)
Inductive event :=
| Revisited (i : importFrom)
| Skipped (i : importFrom)
| Failed (i : importFrom) (err : error)
| Resolved (i : importFrom) (pkg : Package).

Inductive stepResult :=
| Return (pkgs : list Package) (err : option error)
| Continue (st : loopState).

(** The edges that the imports of [pkg] add to the queue. *)
Definition edgesOf (pkg : Package) : list importFrom :=
  map (fun importPath => {| path := importPath; fromDir := Dir pkg |})
      (Imports pkg).

(** One iteration of [for len(imports) != 0]; [None] when the queue is
    empty. *)
Definition iteration (ctx : Context) (skipped : gmap string bool)
    (st : loopState) : option (event * stepResult) :=
  match imports st with
  | [] => None
  | i :: rest =>
      Some
        (if decide (is_Some (visited st !! i)) then
           (Revisited i,
            Continue {| imports := rest; visited := visited st;
                        visitedPackages := visitedPackages st;
                        packages := packages st |})
         else if flag skipped (firstPart (path i)) then
           (Skipped i,
            Continue {| imports := rest; visited := visited st;
                        visitedPackages := visitedPackages st;
                        packages := packages st |})
         else
           match ImportFrom ctx (path i) (fromDir i) with
           | Err err => (Failed i err, Return [] (Some err))
           | Ok pkg =>
               let name := filepath.Join [SrcRoot pkg; ImportPath pkg] in
               let fresh := negb (bool_decide (is_Some (visitedPackages st !! name))) in
               (Resolved i pkg,
                Continue
                  {| imports := rest ++ edgesOf pkg;
                     visited := <[i := true]> (visited st);
                     visitedPackages :=
                       if fresh then <[name := true]> (visitedPackages st)
                       else visitedPackages st;
                     packages :=
                       if fresh then packages st ++ [pkg] else packages st |})
           end)
  end.

(** The loop, with the events of its iterations.  [None]: more than [fuel]
    iterations were needed. *)
Fixpoint loop (ctx : Context) (skipped : gmap string bool) (fuel : nat)
    (st : loopState) : option (list event * (list Package * option error)) :=
  match iteration ctx skipped st with
  | None => Some ([], (packages st, None))
  | Some (ev, Return pkgs err) => Some ([ev], (pkgs, err))
  | Some (ev, Continue st') =>
      match fuel with
      | 0 => None
      | S fuel' =>
          match loop ctx skipped fuel' st' with
          | Some (evs, r) => Some (ev :: evs, r)
          | None => None
          end
      end
  end.

(** The queue before the loop: the imports of the root package. *)
Definition seed (abs : string) (pkg : Package) : loopState :=
  {| imports := map (fun importPath => {| path := importPath; fromDir := abs |})
                    (Imports pkg);
     visited := ∅; visitedPackages := ∅; packages := [] |}.

(** [analyze], with the events of its loop. *)
Definition analyzeTrace (os : OS) (skipped : gmap string bool) (fuel : nat)
    (dir : string) (ctx : Context) (enforceMain : bool)
  : option (list event * (list Package * option error)) :=
  match Abs os dir with
  | Err err =>
      Some ([], ([], Some (Errorf "could not get absolute path for dir %q: %v"
                                  [AStr dir; AErr err])))
  | Ok abs =>
      match ImportDir ctx abs with
      | Err err =>
          Some ([], ([], Some (Errorf "could not get package for dir %q: %v"
                                      [AStr dir; AErr err])))
      | Ok pkg =>
          if enforceMain && negb (IsCommand pkg) then
            Some ([], ([], Some (Errorf ("the root of your app needs to be package "
                                         +:+ dq +:+ "main" +:+ dq +:+ " (currently %q)")
                                        [AStr (Name pkg)])))
          else loop ctx skipped fuel (seed abs pkg)
      end
  end.

(** [analyze(dir, ctx, enforceMain)]: the packages and the error. *)
Definition analyze (os : OS) (skipped : gmap string bool) (fuel : nat)
    (dir : string) (ctx : Context) (enforceMain : bool)
  : option (list Package * option error) :=
  snd <$> analyzeTrace os skipped fuel dir ctx enforceMain.

(** *** Reading the events *)

(** The edge an iteration took from the queue. *)
Definition eventEdge (ev : event) : importFrom :=
  match ev with
  | Revisited i | Skipped i | Failed i _ | Resolved i _ => i
  end.

(** The edges handed to the provider, in order: [ctx.Import] is applied in
    the iterations that end [Failed] or [Resolved], and in no other. *)
Definition calls (evs : list event) : list importFrom :=
  flat_map (fun ev => match ev with
                      | Failed i _ | Resolved i _ => [i]
                      | _ => []
                      end) evs.

(** The packages the provider returned, in order. *)
Definition resolved (evs : list event) : list Package :=
  flat_map (fun ev => match ev with
                      | Resolved _ pkg => [pkg]
                      | _ => []
                      end) evs.

(** Every edge appended to the queue: the ones it starts with and the ones
    each resolved package added. *)
Definition enqueued (q0 : list importFrom) (evs : list event) : list importFrom :=
  q0 ++ flat_map edgesOf (resolved evs).

(** The identity of a package in [visitedPackages]. *)
Definition pkgName (pkg : Package) : string :=
  filepath.Join [SrcRoot pkg; ImportPath pkg].

(** The pair that names a physical package. *)
Definition pkgIdent (pkg : Package) : string * string :=
  (SrcRoot pkg, ImportPath pkg).

(** The iterations as a relation, one rule per way through the loop body. *)
Inductive Step (ctx : Context) (skipped : gmap string bool) (st : loopState)
  : event -> stepResult -> Prop :=
| StepRevisited i rest :
    imports st = i :: rest ->
    is_Some (visited st !! i) ->
    Step ctx skipped st (Revisited i)
      (Continue {| imports := rest; visited := visited st;
                   visitedPackages := visitedPackages st;
                   packages := packages st |})
| StepSkipped i rest :
    imports st = i :: rest ->
    visited st !! i = None ->
    flag skipped (firstPart (path i)) = true ->
    Step ctx skipped st (Skipped i)
      (Continue {| imports := rest; visited := visited st;
                   visitedPackages := visitedPackages st;
                   packages := packages st |})
| StepFailed i rest err :
    imports st = i :: rest ->
    visited st !! i = None ->
    flag skipped (firstPart (path i)) = false ->
    ImportFrom ctx (path i) (fromDir i) = Err err ->
    Step ctx skipped st (Failed i err) (Return [] (Some err))
| StepResolved i rest pkg (fresh : bool) :
    imports st = i :: rest ->
    visited st !! i = None ->
    flag skipped (firstPart (path i)) = false ->
    ImportFrom ctx (path i) (fromDir i) = Ok pkg ->
    fresh = negb (bool_decide (is_Some (visitedPackages st !! pkgName pkg))) ->
    Step ctx skipped st (Resolved i pkg)
      (Continue {| imports := rest ++ edgesOf pkg;
                   visited := <[i := true]> (visited st);
                   visitedPackages :=
                     if fresh then <[pkgName pkg := true]> (visitedPackages st)
                     else visitedPackages st;
                   packages :=
                     if fresh then packages st ++ [pkg] else packages st |}).

(** ** The staged tree *)

(** The staged directory is a volume of its own, separate from the files
    that are read: a finite map from paths in split form to directories and
    regular files.  The root [[]] always is a directory.  Writes fail only
    for what is in the tree (a file where a directory is needed, a directory
    where a file is created). *)
Inductive node :=
| NDir
| NFile (data : list Byte.byte).

Global Instance byte_eq_dec : EqDecision Byte.byte := Byte.byte_eq_dec.

Global Instance node_eq_dec : EqDecision node.
Proof. solve_decision. Defined.

Abbreviation tree := (gmap fpath node).

(** The text of a path in a message. *)
Definition showPath (p : fpath) : string := String.concat "/" p.

Definition isDirIn (t : tree) (p : fpath) : bool :=
  match p with
  | [] => true
  | _ => match t !! p with
         | Some NDir => true
         | _ => false
         end
  end.

(** [os.MkdirAll(pre/names, 0755)], with [pre] a directory: the missing
    directories are made from the top; a regular file on the way is an
    error, and what was made before it stays. *)
Fixpoint mkdirs (pre : fpath) (names : list string) (t : tree)
  : tree * option error :=
  match names with
  | [] => (t, None)
  | n :: ns =>
      let p := pre ++ [n] in
      match t !! p with
      | Some NDir => mkdirs p ns t
      | Some (NFile _) => (t, Some (Opaque "not a directory"))
      | None => mkdirs p ns (<[p := NDir]> t)
      end
  end.

Definition MkdirAll (p : fpath) (t : tree) : tree * option error :=
  mkdirs [] p t.

(** [os.Create]: the file is created or truncated; its directory must
    exist and the path must not be a directory. *)
Definition Create (p : fpath) (t : tree) : result tree :=
  match p with
  | [] => Err (Opaque "is a directory")
  | _ =>
      if negb (isDirIn t (removelast p)) then Err ENOENT
      else match t !! p with
           | Some NDir => Err (Opaque "is a directory")
           | _ => Ok (<[p := NFile []]> t)
           end
  end.

(** Files and directories that are never copied. *)
Definition skipFiles : gmap string bool :=
  list_to_map [(".git", true); (".gitconfig", true); (".hg", true);
               (".travis.yml", true)].

(** [copyFile(dstRoot, dst, src)]: [src] is opened before [dst] is created,
    and a failed copy leaves what was written. *)
Definition copyFile (os : OS) (dstRoot dst src : fpath) (t : tree)
  : tree * option error :=
  match ReadFile os src with
  | OpenFailed err =>
      (t, Some (Errorf "unable to open %q: %v" [AStr (showPath src); AErr err]))
  | ReadAll data =>
      let dst := dstRoot ++ dst in
      match Create dst t with
      | Err err =>
          (t, Some (Errorf "unable to create %q: %v" [AStr (showPath dst); AErr err]))
      | Ok t' => (<[dst := NFile data]> t', None)
      end
  | CopyFailed partial err =>
      let dst := dstRoot ++ dst in
      match Create dst t with
      | Err err =>
          (t, Some (Errorf "unable to create %q: %v" [AStr (showPath dst); AErr err]))
      | Ok t' =>
          (<[dst := NFile partial]> t',
           Some (Errorf "unable to copy %q to %q: %v"
                        [AStr (showPath src); AStr (showPath dst); AErr err]))
      end
  end.

(** The loop of [copyTree] over the entries of [srcDir]; [rec] is the call
    of [copyTree] on a subdirectory.  The lines written to standard error
    are left out. *)
Fixpoint copyEntries (os : OS)
    (rec : fpath -> fpath -> tree -> option (tree * option error))
    (dstRoot dstDir srcDir : fpath) (recursive : bool)
    (entries : list FileInfo) (t : tree) : option (tree * option error) :=
  match entries with
  | [] => Some (t, None)
  | entry :: rest =>
      let n := fiName entry in
      let s := srcDir ++ [n] in
      if flag skipFiles n then
        copyEntries os rec dstRoot dstDir srcDir recursive rest t
      else
        match (if fiSymlink entry then Stat os s else Ok entry) with
        | Err err =>
            Some (t, Some (Errorf "unable to stat %v: %v"
                                  [AStr (showPath s); AErr err]))
        | Ok entry =>
            let d := dstDir ++ [n] in
            if fiIsDir entry then
              if negb recursive then
                copyEntries os rec dstRoot dstDir srcDir recursive rest t
              else
                match rec d s t with
                | None => None
                | Some (t', Some err) =>
                    Some (t', Some (Errorf "unable to copy dir %q to %q: %v"
                                           [AStr (showPath s); AStr (showPath d);
                                            AErr err]))
                | Some (t', None) =>
                    copyEntries os rec dstRoot dstDir srcDir recursive rest t'
                end
            else
              match copyFile os dstRoot d s t with
              | (t', Some err) =>
                  Some (t', Some (Errorf "unable to copy dir %q to %q: %v"
                                         [AStr (showPath s); AStr (showPath d);
                                          AErr err]))
              | (t', None) =>
                  copyEntries os rec dstRoot dstDir srcDir recursive rest t'
              end
        end
  end.

(** [copyTree(dstRoot, dstDir, srcDir, recursive)].  [None]: the source is
    nested deeper than [fuel]. *)
Fixpoint copyTree (os : OS) (fuel : nat) (dstRoot dstDir srcDir : fpath)
    (recursive : bool) (t : tree) : option (tree * option error) :=
  match fuel with
  | 0 => None
  | S fuel' =>
      let d := dstRoot ++ dstDir in
      match MkdirAll d t with
      | (t', Some err) =>
          Some (t', Some (Errorf "unable to create directory %q: %v"
                                 [AStr (showPath d); AErr err]))
      | (t', None) =>
          match ReadDir os srcDir with
          | Err err =>
              Some (t', Some (Errorf "unable to read dir %q: %v"
                                     [AStr (showPath srcDir); AErr err]))
          | Ok entries =>
              copyEntries os
                (fun d s t => copyTree os fuel' dstRoot d s recursive t)
                dstRoot dstDir srcDir recursive entries t'
          end
      end
  end.

(** [bundle(dst, dstDepsDir, deps)]. *)
Fixpoint bundle (os : OS) (fuel : nat) (dst : fpath) (dstDepsDir : string)
    (deps : list Package) (t : tree) : option (tree * option error) :=
  match deps with
  | [] => Some (t, None)
  | pkg :: rest =>
      let dstDir := filepath.Join [dstDepsDir; ImportPath pkg] in
      let srcDir := filepath.Join [SrcRoot pkg; ImportPath pkg] in
      match copyTree os fuel dst (comps dstDir) (comps srcDir) false t with
      | None => None
      | Some (t', Some err) =>
          Some (t', Some (Errorf "unable to copy directory %v to %v: %v"
                                 [AStr srcDir; AStr dstDir; AErr err]))
      | Some (t', None) => bundle os fuel dst dstDepsDir rest t'
      end
  end.

(** ** The staging modes *)

(** What a staging run changes: the package-level table [skippedPackages],
    the staged tree and standard output.  (Standard error is left out.) *)
Record world := {
  skipped : gmap string bool;
  staged : tree;
  stdout : list string
}.

(** How a staging function ends: it returns its error, or [log.Fatalf]
    ends the process. *)
Inductive outcome :=
| Finished (w : world) (err : option error)
| Fatal (w : world) (msg : error).

Definition worldOf (o : outcome) : world :=
  match o with
  | Finished w _ | Fatal w _ => w
  end.

Definition withStaged (w : world) (t : tree) : world :=
  {| skipped := skipped w; staged := t; stdout := stdout w |}.

(** [f.WriteString(s)] into a file just created. *)
Definition writeFile (file : fpath) (s : string) (t : tree) : result tree :=
  match Create file t with
  | Err err => Err (Errorf "unable to create %q: %v" [AStr (showPath file); AErr err])
  | Ok t' => Ok (<[file := NFile (String.list_byte_of_string s)]> t')
  end.

(** The loop of [writeMainPkgFile] over the entries of the workspace path. *)
Fixpoint findMainPath (os : OS) (mainDir : string) (gopaths : list string)
  : result string :=
  match gopaths with
  | [] => Ok ""
  | p :: ps =>
      match Abs os p with
      | Err err =>
          Err (Errorf "could not get absolute path for GOPATH entry %q: %v"
                      [AStr p; AErr err])
      | Ok gop =>
          let srcDir := filepath.Join [gop; "src"] +:+ "/" in
          if String.prefix srcDir mainDir then Ok (TrimPrefix mainDir srcDir)
          else findMainPath os mainDir ps
      end
  end.

(** [writeMainPkgFile(file, appDir)]. *)
Definition writeMainPkgFile (os : OS) (file : fpath) (appDir : string) (t : tree)
  : tree * option error :=
  match Abs os appDir with
  | Err err =>
      (t, Some (Errorf "could not get absolute path for dir %q: %v"
                       [AStr appDir; AErr err]))
  | Ok mainDir =>
      match findMainPath os mainDir (filepath.SplitList (DefaultGOPATH os)) with
      | Err err => (t, Some err)
      | Ok mainPath =>
          if String.eqb mainPath "" then (t, None)
          else
            let dstDir := removelast file in
            match MkdirAll dstDir t with
            | (t1, Some err) =>
                (t1, Some (Errorf "unable to create directory %q: %v"
                                  [AStr (showPath dstDir); AErr err]))
            | (t1, None) =>
                match writeFile file mainPath t1 with
                | Err err => (t1, Some err)
                | Ok t2 => (t2, None)
                end
            end
      end
  end.

(** [unixSeparators]. *)
Fixpoint unixSeparators (p : string) : string :=
  match p with
  | EmptyString => EmptyString
  | String c p' =>
      String (if Ascii.eqb c (ascii_of_nat 92) then "/"%char else c)
             (unixSeparators p')
  end.

(** [filepath.Rel] on two absolute paths in split form. *)
Fixpoint relElems (base targ : fpath) : fpath :=
  match base, targ with
  | b :: bs, x :: xs =>
      if String.eqb b x then relElems bs xs
      else map (fun _ => "..") base ++ targ
  | _, _ => map (fun _ => "..") base ++ targ
  end.

Definition Rel (basepath targpath : string) : string :=
  match relElems (comps basepath) (comps targpath) with
  | [] => "."
  | elems => String.concat "/" elems
  end.

(** [filepath.Dir] of an absolute path. *)
Definition DirOf (p : string) : string := render (removelast (comps p)).

(** [goModRelativeBuildPath(goModPath, appDir)]. *)
Definition goModRelativeBuildPath (os : OS) (goModPath appDir : string)
  : result string :=
  match Abs os (DirOf goModPath) with
  | Err err =>
      Err (Errorf "could not get absolute path for go.mod path %q: %v"
                  [AStr goModPath; AErr err])
  | Ok rootDir =>
      match Abs os appDir with
      | Err err =>
          Err (Errorf "could not get absolute path for dir %q: %v"
                      [AStr appDir; AErr err])
      | Ok mainDir =>
          if negb (String.prefix rootDir mainDir) then
            Err (Errorf "expected path '%q' to have prefix '%q'"
                        [AStr mainDir; AStr rootDir])
          else Ok (unixSeparators (Rel rootDir mainDir))
      end
  end.

(** [writeGoModMainPkgFile(dst, goModPath, appDir)]. *)
Definition writeGoModMainPkgFile (os : OS) (dst : fpath) (goModPath appDir : string)
    (t : tree) : tree * option error :=
  match goModRelativeBuildPath os goModPath appDir with
  | Err err => (t, Some (Errorf "could not find relative app path: %v" [AErr err]))
  | Ok mainPath =>
      let dstDir := removelast dst in
      match MkdirAll dstDir t with
      | (t1, Some err) =>
          (t1, Some (Errorf "unable to create directory %q: %v"
                            [AStr (showPath dstDir); AErr err]))
      | (t1, None) =>
          match writeFile dst mainPath t1 with
          | Err err => (t1, Some err)
          | Ok t2 => (t2, None)
          end
      end
  end.

(** The loop of [goModPath]: [src] is an absolute path in split form, and
    [filepath.Dir] of the root is the root. *)
Fixpoint goModLoop (os : OS) (fuel : nat) (src : fpath)
  : option (string * option error) :=
  match fuel with
  | 0 => None
  | S fuel' =>
      let p := src ++ ["go.mod"] in
      match Stat os p with
      | Ok _ => Some (render p, None)
      | Err err =>
          if negb (IsNotExist err) then
            Some ("", Some (Errorf "unexpected error: %v" [AErr err]))
          else
            let oldSrc := src in
            let src := removelast src in
            if decide (oldSrc = src) then Some ("", None)
            else goModLoop os fuel' src
      end
  end.

(** [goModPath(src)]: one iteration for the directory and for each of its
    ancestors is enough. *)
Definition goModPath (os : OS) (src : string) : option (string * option error) :=
  match Abs os src with
  | Err err => Some ("", Some (Errorf "src abspath: %v" [AErr err]))
  | Ok src => goModLoop os (S (length (comps src))) (comps src)
  end.

(** [stageLegacyStandard(src, dst, buildCtx)]. *)
Definition stageLegacyStandard (os : OS) (fuel : nat) (src dst : string)
    (buildCtx : Context) (w : world) : option outcome :=
  match analyze os (skipped w) fuel src buildCtx false with
  | None => None
  | Some (_, Some err) =>
      Some (Finished w (Some (Errorf ("failed analyzing %s: %v" +:+ nl +:+ "GOPATH: %s")
                                     [AStr src; AErr err; AStr (GOPATH buildCtx)])))
  | Some (deps, None) =>
      match bundle os fuel (comps dst) "" deps (staged w) with
      | None => None
      | Some (t, Some err) =>
          Some (Finished (withStaged w t)
                  (Some (Errorf "failed to bundle to %s: %v" [AStr dst; AErr err])))
      | Some (t, None) =>
          match copyTree os fuel (comps dst) [] (comps src) true t with
          | None => None
          | Some (t', Some err) =>
              Some (Finished (withStaged w t')
                      (Some (Errorf "unable to copy root directory to /app: %v"
                                    [AErr err])))
          | Some (t', None) => Some (Finished (withStaged w t') None)
          end
      end
  end.

(** [stageFlex(src, dst, buildCtx)]. *)
Definition stageFlex (os : OS) (fuel : nat) (src dst : string)
    (buildCtx : Context) (w : world) : option outcome :=
  let w := {| skipped := <["appengine" := false]> (skipped w);
              staged := staged w; stdout := stdout w |} in
  let mainPathFile := comps dst ++ ["_gopath"; "main-package-path"] in
  match writeMainPkgFile os mainPathFile src (staged w) with
  | (t, Some err) =>
      Some (Finished (withStaged w t)
              (Some (Errorf "failed to write %s: %v"
                            [AStr (showPath mainPathFile); AErr err])))
  | (t, None) =>
      match analyze os (skipped w) fuel src buildCtx true with
      | None => None
      | Some (_, Some err) =>
          Some (Finished (withStaged w t)
                  (Some (Errorf ("failed analyzing %s: %v" +:+ nl +:+ "GOPATH: %s")
                                [AStr src; AErr err; AStr (GOPATH buildCtx)])))
      | Some (deps, None) =>
          match bundle os fuel (comps dst) (filepath.Join ["_gopath"; "src"]) deps t with
          | None => None
          | Some (t, Some err) =>
              Some (Finished (withStaged w t)
                      (Some (Errorf "failed to bundle to %s: %v" [AStr dst; AErr err])))
          | Some (t, None) =>
              match copyTree os fuel (comps dst) [] (comps src) true t with
              | None => None
              | Some (t', Some err) =>
                  Some (Finished (withStaged w t')
                          (Some (Errorf "unable to copy root directory to /app: %v"
                                        [AErr err])))
              | Some (t', None) => Some (Finished (withStaged w t') None)
              end
          end
      end
  end.

(** [stageStandardSecondGen(src, dst, buildCtx)]. *)
Definition stageStandardSecondGen (os : OS) (fuel : nat) (src dst : string)
    (buildCtx : Context) (w : world) : option outcome :=
  let w := {| skipped := <["appengine" := false]> (skipped w);
              staged := staged w; stdout := stdout w |} in
  match goModPath os src with
  | None => None
  | Some (_, Some err) =>
      Some (Fatal w (Errorf ("failed finding go.mod: %v" +:+ nl) [AErr err]))
  | Some (gmPath, None) =>
      let go111module := ToLower (Getenv os "GO111MODULE") in
      if String.eqb gmPath "" ||
         (negb (String.eqb go111module "on") &&
          String.prefix (DefaultGOPATH os) gmPath)
      then
        stageFlex os fuel src dst buildCtx
          {| skipped := skipped w; staged := staged w;
             stdout := stdout w ++ ["building with dependencies from GOPATH"] |}
      else
        let w := {| skipped := skipped w; staged := staged w;
                    stdout := stdout w ++ ["building with dependencies from go.mod"] |} in
        let mainPathFile := comps dst ++ ["_main-package-path"] in
        match writeGoModMainPkgFile os mainPathFile gmPath src (staged w) with
        | (t, Some err) =>
            Some (Finished (withStaged w t)
                    (Some (Errorf "failed to write %s: %v"
                                  [AStr (showPath mainPathFile); AErr err])))
        | (t, None) =>
            let srcRoot := removelast (comps gmPath) in
            match copyTree os fuel (comps dst) [] srcRoot true t with
            | None => None
            | Some (t', Some err) =>
                Some (Finished (withStaged w t')
                        (Some (Errorf "unable to copy root directory to /app: %v"
                                      [AErr err])))
            | Some (t', None) => Some (Finished (withStaged w t') None)
            end
        end
  end.


(** ** The Go version *)

(** Subset of [<service>.yaml]. *)
Record config := {
  Runtime : string;
  VM : bool;
  Env : string;
  APIVersion : string
}.

Definition isFlex (conf : config) : bool :=
  VM conf || String.eqb (Env conf) "flex" || String.eqb (Env conf) "flexible"
  || String.eqb (Env conf) "2".

Definition isLegacyStandard (conf : config) : bool :=
  negb (isFlex conf) && String.eqb (Runtime conf) "go".

Definition isStandardSecondGen (conf : config) : bool :=
  negb (isFlex conf) && String.prefix "go1" (Runtime conf).

Definition stdDefaultMinorVersion : Z := 9.

(** [strings.HasSuffix] and [strings.TrimSuffix]. *)
Definition HasSuffix (s suffix : string) : bool :=
  (String.length suffix <=? String.length s) &&
  String.eqb (String.substring (String.length s - String.length suffix)
                               (String.length suffix) s) suffix.

Definition TrimSuffix (s suffix : string) : string :=
  if HasSuffix s suffix
  then String.substring 0 (String.length s - String.length suffix) s
  else s.

(** [strings.Replace(s, old, new, 1)] for an [old] that is not empty: the
    first occurrence is replaced. *)
Fixpoint replaceFirst (old new s : string) : string :=
  if String.prefix old s then
    new +:+ String.substring (String.length old)
                             (String.length s - String.length old) s
  else match s with
       | EmptyString => EmptyString
       | String c s' => String c (replaceFirst old new s')
       end.

(** The two errors of [strconv]. *)
Inductive numError := ErrSyntax | ErrRange.

Definition maxUint64 : Z := 2 ^ 64 - 1.

(** The loop of [strconv.ParseUint(s, 10, 64)] from the value [n]: a byte
    that is no decimal digit is a syntax error, a value above [maxUint64]
    a range error, found at the digit that passes it. *)
Fixpoint parseUintLoop (s : string) (n : Z) : Z * option numError :=
  match s with
  | EmptyString => (n, None)
  | String d s' =>
      let c := Z.of_nat (nat_of_ascii d) in
      if negb ((48 <=? c) && (c <=? 57))%Z then (0%Z, Some ErrSyntax)
      else
        let v := (c - 48)%Z in
        if (maxUint64 / 10 + 1 <=? n)%Z then (maxUint64, Some ErrRange)
        else
          let n := (n * 10)%Z in
          let n1 := ((n + v) mod 2 ^ 64)%Z in
          if ((n1 <? n) || (maxUint64 <? n1))%Z then (maxUint64, Some ErrRange)
          else parseUintLoop s' n1
  end.

Definition ParseUint (s : string) : Z * option numError :=
  match s with
  | EmptyString => (0%Z, Some ErrSyntax)
  | _ => parseUintLoop s 0
  end.

(** [strconv.ParseInt(s, 10, 0)] where [int] has 64 bits. *)
Definition ParseInt (s : string) : Z * option numError :=
  match s with
  | EmptyString => (0%Z, Some ErrSyntax)
  | String c rest =>
      let neg := Ascii.eqb c "-"%char in
      let s := if Ascii.eqb c "+"%char || neg then rest else s in
      match ParseUint s with
      | (_, Some ErrSyntax) => (0%Z, Some ErrSyntax)
      | (un, _) =>
          let cutoff := (2 ^ 63)%Z in
          if negb neg && (cutoff <=? un)%Z then ((cutoff - 1)%Z, Some ErrRange)
          else if neg && (cutoff <? un)%Z then ((- cutoff)%Z, Some ErrRange)
          else ((if neg then - un else un)%Z, None)
      end
  end.

(** [strconv.Atoi]. *)
Definition Atoi (s : string) : Z * option numError := ParseInt s.

Definition digitChar (d : Z) : ascii := ascii_of_nat (Z.to_nat (48 + d)).

(** The decimal digits of [n], before [acc]; [fuel] digits after the
    first. *)
Fixpoint decimal (fuel : nat) (n : Z) (acc : string) : string :=
  match fuel with
  | 0 => String (digitChar (n mod 10)) acc
  | S fuel' =>
      if (n <? 10)%Z then String (digitChar n) acc
      else decimal fuel' (n / 10) (String (digitChar (n mod 10)) acc)
  end.

(** The verb [%d] on a 64-bit [int]. *)
Definition itoa (n : Z) : string :=
  if (n <? 0)%Z then "-" +:+ decimal 19 (- n) "" else decimal 19 n "".

Definition parseMinorVersion (val prefix : string) : Z * bool :=
  if negb (String.prefix prefix val) then (0%Z, false)
  else
    let s := TrimPrefix val prefix in
    match Atoi s with
    | (mv, None) => (mv, true)
    | (mv, Some _) => (mv, false)
    end.

(** For version value of [go1.xRC], treat as [go1.x]. *)
Definition parseGo1MinorVersion (val : string) : Z * bool :=
  parseMinorVersion (TrimSuffix val "RC") "go1.".

(** [stdMinorVersion]: the minor version for GAE Standard. *)
Definition stdMinorVersion (cfg : config) : Z * option error :=
  let val := APIVersion cfg in
  if String.eqb val "go1" then (stdDefaultMinorVersion, None)
  else
    match parseGo1MinorVersion val with
    | (_, false) => ((-1)%Z, Some (Errorf "invalid api_version value %s" [AStr val]))
    | (mv, true) => (mv, None)
    end.

(** [secondGenMinorVersion]: the minor version for GAE Standard 2nd gen. *)
Definition secondGenMinorVersion (cfg : config) : Z * option error :=
  let runtime := replaceFirst "go1" "go1." (Runtime cfg) in
  match parseGo1MinorVersion runtime with
  | (_, false) =>
      ((-1)%Z, Some (Errorf "invalid runtime value %s" [AStr (Runtime cfg)]))
  | (mv, true) => (mv, None)
  end.

(** What the download of [runtimes.yaml] gives and how it is parsed:
    [Unmarshal] gives, for each runtime, its [Target.Runtime]. *)
Record Web := {
  readFlexRuntimesConfig : result (list Byte.byte);
  Unmarshal : list Byte.byte -> result (gmap string string)
}.

Definition bugReportMsg : string :=
  "This may be a bug, please file a report at https://issuetracker.google.com/issues/new?component=322870.".

(** [flexDefaultMinorVersion]: the default minor version for Flex. *)
Definition flexDefaultMinorVersion (web : Web) : Z * option error :=
  match readFlexRuntimesConfig web with
  | Err err => (0%Z, Some err)
  | Ok b =>
      match Unmarshal web b with
      | Err err =>
          (0%Z, Some (Errorf "failed to parse runtimes.yaml: %v" [AErr err]))
      | Ok runtimes =>
          match runtimes !! "go" with
          | None => (0%Z, Some (Errorf "missing go runtime config in runtimes.yaml" []))
          | Some target =>
              if negb (String.prefix "go1." target) then
                (0%Z, Some (Errorf "invalid go runtime version in runtimes.yaml: %s"
                                   [AStr target]))
              else
                match Atoi (TrimPrefix target "go1.") with
                | (_, Some _) =>
                    (0%Z, Some (Errorf "invalid go runtime version in runtimes.yaml: %s"
                                       [AStr target]))
                | (mv, None) => (mv, None)
                end
          end
      end
  end.

(** [flexMinorVersion]: the minor version for GAE Flex. *)
Definition flexMinorVersion (web : Web) (cfg : config) : Z * option error :=
  let val := Runtime cfg in
  if String.eqb val "go" then
    match flexDefaultMinorVersion web with
    | (_, Some err) => (0%Z, Some (Errorf ("%v" +:+ nl +:+ "%s") [AErr err; AStr bugReportMsg]))
    | (mv, None) => (mv, None)
    end
  else
    match parseGo1MinorVersion val with
    | (_, false) =>
        ((-1)%Z, Some (Errorf "unable to stage for runtime %q" [AStr (Runtime cfg)]))
    | (mv, true) => (mv, None)
    end.

(** [minorVersion(cfg, fval)]. *)
Definition minorVersion (web : Web) (cfg : config) (fval : string)
  : Z * option error :=
  if negb (String.eqb fval "") then
    match parseMinorVersion fval "1." with
    | (mv, true) => (mv, None)
    | (_, false) =>
        (0%Z, Some (Errorf "invalid -go-version flag value: %s" [AStr fval]))
    end
  else if isLegacyStandard cfg then stdMinorVersion cfg
  else if isFlex cfg then flexMinorVersion web cfg
  else secondGenMinorVersion cfg.

(** [i++] on a 64-bit [int]. *)
Definition wrapInt (z : Z) : Z := ((z + 2 ^ 63) mod 2 ^ 64 - 2 ^ 63)%Z.

(** The loop of [buildContext] from [i], with the tags made so far.
    [None]: more than [fuel] iterations were needed. *)
Fixpoint relsLoop (fuel : nat) (minorVersion i : Z) (rels : list string)
  : option (list string) :=
  if (i <=? minorVersion)%Z then
    match fuel with
    | 0 => None
    | S fuel' =>
        relsLoop fuel' minorVersion (wrapInt (i + 1)) (rels ++ ["go1." +:+ itoa i])
    end
  else Some rels.

(** The [ReleaseTags] of [buildContext(tags, minorVersion)]. *)
Definition releaseTags (fuel : nat) (minorVersion : Z) : option (list string) :=
  relsLoop fuel minorVersion 1 [].

(** ** Sample inputs *)

(** A file system in memory. *)
Module Mem.
Inductive inode :=
| IFile (data : list Byte.byte)
| IDir
| ILink (target : fpath).

Abbreviation files := (list (fpath * inode)).

Definition lookup (fs : files) (p : fpath) : option inode :=
  match p with
  | [] => Some IDir
  | _ => match list_find (fun e => e.1 = p) fs with
         | Some (_, e) => Some e.2
         | None => None
         end
  end.

Definition ELOOP : error := Opaque "too many levels of symbolic links".

(** The inode a path leads to, through at most [hops] symbolic links. *)
Fixpoint resolve (fs : files) (hops : nat) (p : fpath) : result inode :=
  match lookup fs p with
  | None => Err ENOENT
  | Some (ILink target) =>
      match hops with
      | 0 => Err ELOOP
      | S hops' => resolve fs hops' target
      end
  | Some i => Ok i
  end.

Definition info (name : string) (i : inode) : FileInfo :=
  {| fiName := name;
     fiIsDir := match i with IDir => true | _ => false end;
     fiSymlink := match i with ILink _ => true | _ => false end |}.

Definition stat (fs : files) (p : fpath) : result FileInfo :=
  match resolve fs 40 p with
  | Ok i => Ok (info (List.last p "/") i)
  | Err e => Err e
  end.

Definition readFile (fs : files) (p : fpath) : readResult :=
  match resolve fs 40 p with
  | Ok (IFile data) => ReadAll data
  | Ok _ => CopyFailed [] (Opaque "is a directory")
  | Err e => OpenFailed e
  end.

(** The entries of a directory, sorted by name. *)
Definition readDir (fs : files) (p : fpath) : result (list FileInfo) :=
  match resolve fs 40 p with
  | Ok IDir =>
      Ok (merge_sort (fun a b => String.le (fiName a) (fiName b))
            (omap (fun e => match decide (e.1 <> [] /\ removelast e.1 = p) with
                            | left _ => Some (info (List.last e.1 "") e.2)
                            | right _ => None
                            end) fs))
  | Ok _ => Err (Opaque "not a directory")
  | Err e => Err e
  end.

Definition os (fs : files) (gopath : string) (env : string -> string) : OS :=
  {| Abs := fun d => Ok d; Getenv := env; DefaultGOPATH := gopath;
     ReadDir := readDir fs; Stat := stat fs; ReadFile := readFile fs |}.
End Mem.

Module CopySamples.
Import Byte.

Definition hello : list byte := [x68; x69].
Definition code : list byte := [x67; x6f].

(** An application with a version-control directory, a subdirectory and
    a symbolic link to a file outside it. *)
Definition good : Mem.files :=
  [(["app"], Mem.IDir);
   (["app"; "main.go"], Mem.IFile code);
   (["app"; ".git"], Mem.IDir);
   (["app"; ".git"; "config"], Mem.IFile hello);
   (["app"; "lib"], Mem.IDir);
   (["app"; "lib"; "util.go"], Mem.IFile code);
   (["app"; "lib"; ".travis.yml"], Mem.IFile hello);
   (["app"; "lib"; "ref.txt"], Mem.ILink ["shared"; "real.txt"]);
   (["app"; "data.txt"], Mem.ILink ["shared"; "real.txt"]);
   (["shared"], Mem.IDir);
   (["shared"; "real.txt"], Mem.IFile hello)].

(** The same with a link to nothing in the subdirectory. *)
Definition dangling : Mem.files :=
  good ++ [(["app"; "lib"; "gone.txt"], Mem.ILink ["nowhere"])].

Definition noenv : string -> string := fun _ => "".

Definition stagedGood : tree :=
  list_to_map
    [(["out"], NDir);
     (["out"; "data.txt"], NFile hello);
     (["out"; "lib"], NDir);
     (["out"; "lib"; "ref.txt"], NFile hello);
     (["out"; "lib"; "util.go"], NFile code);
     (["out"; "main.go"], NFile code)].
End CopySamples.


(** Import graphs. *)
Module Samples.
Definition os0 : OS :=
  {| Abs := fun d => Ok d; Getenv := fun _ => ""; DefaultGOPATH := "/g";
     ReadDir := fun _ => Err ENOENT; Stat := fun _ => Err ENOENT;
     ReadFile := fun _ => OpenFailed ENOENT |}.

Definition pkgIn (root importPath : string) (imps : list string) : Package :=
  {| Name := importPath; ImportPath := importPath;
     Dir := filepath.Join [root; importPath]; SrcRoot := root;
     Imports := imps |}.

(** A provider that answers from a table of (requested path, package). *)
Definition tableCtx (app : Package) (tbl : list (string * Package)) : Context :=
  {| GOPATH := "/g";
     ImportDir := fun _ => Ok app;
     ImportFrom := fun p _ =>
       match list_find (fun e => e.1 = p) tbl with
       | Some (_, e) => Ok e.2
       | None => Err (Opaque "malformed source")
       end |}.

Definition app (imps : list string) : Package :=
  {| Name := "main"; ImportPath := "."; Dir := "/app"; SrcRoot := "";
     Imports := imps |}.

(** A diamond on [pkgC] and a cycle through [pkgA] and [pkgC]. *)
Definition pkgA := pkgIn "/g/src" "pkgA" ["pkgC"; "fmt"].
Definition pkgB := pkgIn "/g/src" "pkgB" ["pkgC"].
Definition pkgC := pkgIn "/g/src" "pkgC" ["pkgA"].
Definition diamond : Context :=
  tableCtx (app ["pkgA"; "net/http"; "pkgB"])
           [("pkgA", pkgA); ("pkgB", pkgB); ("pkgC", pkgC)].

(** Two workspace roots, one inside the other: [/g] and [/g/src/a]. *)
Definition inner := pkgIn "/g/src/a/src" "b" [].
Definition outer := pkgIn "/g/src" "a/src/b" [].
Definition nested : Context :=
  tableCtx (app ["a/src/b"; "b"]) [("a/src/b", outer); ("b", inner)].

(** A cycle of two packages. *)
Definition cycA := pkgIn "/g/src" "a" ["b"].
Definition cycB := pkgIn "/g/src" "b" ["a"].
Definition cycle : Context :=
  tableCtx (app ["a"]) [("a", cycA); ("b", cycB)].

(** An import that the provider cannot resolve. *)
Definition broken : Context :=
  tableCtx (app ["pkgB"; "pkgA"]) [("pkgB", pkgIn "/g/src" "pkgB" [])].
End Samples.


Module StageSamples.
Definition moduleFiles : Mem.files :=
  [(["g"], Mem.IDir);
   (["g"; "src"], Mem.IDir);
   (["g"; "src"; "app"], Mem.IDir);
   (["g"; "src"; "app"; "go.mod"], Mem.IFile CopySamples.hello);
   (["g"; "src"; "app"; "main.go"], Mem.IFile CopySamples.code)].

Definition env (go111module : string) : string -> string :=
  fun k => if String.eqb k "GO111MODULE" then go111module else "".

(** An application with a [go.mod], inside the workspace [/g]. *)
Definition os (go111module : string) : OS :=
  Mem.os moduleFiles "/g" (env go111module).

Definition ctx : Context := Samples.tableCtx (Samples.app ["fmt"]) [].

Definition start : world :=
  {| skipped := skippedPackages; staged := ∅; stdout := [] |}.
End StageSamples.

Module BundleSamples.
(** A workspace with one package that has a subdirectory; [pkgA] is not in
    it. *)
Definition files : Mem.files :=
  [(["g"], Mem.IDir);
   (["g"; "src"], Mem.IDir);
   (["g"; "src"; "pkgB"], Mem.IDir);
   (["g"; "src"; "pkgB"; "b.go"], Mem.IFile CopySamples.code);
   (["g"; "src"; "pkgB"; "testdata"], Mem.IDir);
   (["g"; "src"; "pkgB"; "testdata"; "in.txt"], Mem.IFile CopySamples.hello)].

Definition os : OS := Mem.os files "/g" CopySamples.noenv.

Definition pkgB : Package := Samples.pkgIn "/g/src" "pkgB" [].


End BundleSamples.

Module ModuleSamples.
(** A module at [/m] with the application two directories below it. *)
Definition files : Mem.files :=
  [(["m"], Mem.IDir);
   (["m"; "go.mod"], Mem.IFile CopySamples.hello);
   (["m"; "cmd"], Mem.IDir);
   (["m"; "cmd"; "server"], Mem.IDir);
   (["m"; "cmd"; "server"; "main.go"], Mem.IFile CopySamples.code)].

Definition os : OS := Mem.os files "/g:/h" CopySamples.noenv.

(** The application of [StageSamples], in the second entry of the
    workspace path. *)
Definition workspaceOS : OS :=
  Mem.os StageSamples.moduleFiles "/h:/g" CopySamples.noenv.

Definition stagedMain : tree :=
  list_to_map
    [(["out"], NDir);
     (["out"; "_gopath"], NDir);
     (["out"; "_gopath"; "main-package-path"],
      NFile (String.list_byte_of_string "app"))].

(** What staging the application of [StageSamples] leaves. *)
Definition stagedApp : tree :=
  list_to_map
    [(["out"], NDir);
     (["out"; "go.mod"], NFile CopySamples.hello);
     (["out"; "main.go"], NFile CopySamples.code)].
End ModuleSamples.

Module VersionSamples.
Definition noWeb : Web :=
  {| readFlexRuntimesConfig := Err (Opaque "no network");
     Unmarshal := fun _ => Err (Opaque "no data") |}.

Definition python : config :=
  {| Runtime := "python27"; VM := false; Env := ""; APIVersion := "1" |}.

Definition standard (runtime : string) : config :=
  {| Runtime := runtime; VM := false; Env := "standard"; APIVersion := "" |}.

Definition flex (runtime : string) : config :=
  {| Runtime := runtime; VM := false; Env := "flex"; APIVersion := "" |}.
End VersionSamples.

Module LinkSamples.
(** The staged tree when the copy of [CopySamples.good] comes to the
    directory [lib], and when it has made that directory. *)
Definition outOnly : tree := list_to_map [(["out"], NDir)].

Definition atLib : tree :=
  list_to_map [(["out"], NDir); (["out"; "data.txt"], NFile CopySamples.hello)].

Definition inLib : tree := <[ ["out"; "lib"] := NDir ]> atLib.
End LinkSamples.

Module AppengineSamples.
(** An application that imports [appengine], with a package of that name
    in the workspace. *)
Definition files : Mem.files :=
  [(["g"], Mem.IDir);
   (["g"; "src"], Mem.IDir);
   (["g"; "src"; "app"], Mem.IDir);
   (["g"; "src"; "app"; "main.go"], Mem.IFile CopySamples.code);
   (["g"; "src"; "appengine"], Mem.IDir);
   (["g"; "src"; "appengine"; "api.go"], Mem.IFile CopySamples.hello)].

Definition os : OS := Mem.os files "/g" CopySamples.noenv.

Definition appengine : Package := Samples.pkgIn "/g/src" "appengine" [].

Definition ctx : Context :=
  Samples.tableCtx (Samples.app ["appengine"; "fmt"]) [("appengine", appengine)].

(** What [stageFlex] leaves: the package [appengine] is bundled. *)
Definition stagedFlex : tree :=
  list_to_map
    [(["out"], NDir);
     (["out"; "_gopath"], NDir);
     (["out"; "_gopath"; "main-package-path"],
      NFile (String.list_byte_of_string "app"));
     (["out"; "_gopath"; "src"], NDir);
     (["out"; "_gopath"; "src"; "appengine"], NDir);
     (["out"; "_gopath"; "src"; "appengine"; "api.go"], NFile CopySamples.hello);
     (["out"; "main.go"], NFile CopySamples.code)].

(** What [stageLegacyStandard] leaves: it is not. *)
Definition stagedLegacy : tree :=
  list_to_map [(["out"], NDir); (["out"; "main.go"], NFile CopySamples.code)].
End AppengineSamples.

Module StageTrees.
(** What [stageFlex] leaves of the application of [StageSamples], and
    what the module strategy leaves of it. *)
Definition flexApp : tree :=
  list_to_map
    [(["out"], NDir);
     (["out"; "_gopath"], NDir);
     (["out"; "_gopath"; "main-package-path"],
      NFile (String.list_byte_of_string "app"));
     (["out"; "go.mod"], NFile CopySamples.hello);
     (["out"; "main.go"], NFile CopySamples.code)].

Definition moduleApp : tree :=
  list_to_map
    [(["out"], NDir);
     (["out"; "_main-package-path"], NFile (String.list_byte_of_string "."));
     (["out"; "go.mod"], NFile CopySamples.hello);
     (["out"; "main.go"], NFile CopySamples.code)].
End StageTrees.

(** ** The vocabulary of the properties *)

(** *** The closure resolver *)

(** [visitedPackages] holds the names of [packages], each once. *)
Definition dedupInv (st : loopState) : Prop :=
  NoDup (pkgName <$> packages st) /\
  forall n, is_Some (visitedPackages st !! n) <-> n ∈ pkgName <$> packages st.

(** [U] holds the edges of the graph: it is closed under the imports of
    the packages its edges resolve to. *)
Definition closedEdges (ctx : Context) (U : gset importFrom) : Prop :=
  forall i pkg, i ∈ U -> ImportFrom ctx (path i) (fromDir i) = Ok pkg ->
                forall e, e ∈ edgesOf pkg -> e ∈ U.

(** A finite graph given by the list of its edges, checked by evaluation. *)
Definition closedEdgesb (ctx : Context) (l : list importFrom) : bool :=
  forallb (fun i => match ImportFrom ctx (path i) (fromDir i) with
                    | Ok pkg => forallb (fun e => bool_decide (e ∈ l)) (edgesOf pkg)
                    | Err _ => true
                    end) l.

(** The walk of the diamond: [pkgC] is reached from [pkgA] and from [pkgB],
    and [pkgA] again from [pkgC]. *)
Definition diamondTrace : list event :=
  [Resolved {| path := "pkgA"; fromDir := "/app" |} Samples.pkgA;
   Skipped {| path := "net/http"; fromDir := "/app" |};
   Resolved {| path := "pkgB"; fromDir := "/app" |} Samples.pkgB;
   Resolved {| path := "pkgC"; fromDir := "/g/src/pkgA" |} Samples.pkgC;
   Skipped {| path := "fmt"; fromDir := "/g/src/pkgA" |};
   Resolved {| path := "pkgC"; fromDir := "/g/src/pkgB" |} Samples.pkgC;
   Resolved {| path := "pkgA"; fromDir := "/g/src/pkgC" |} Samples.pkgA;
   Revisited {| path := "pkgA"; fromDir := "/g/src/pkgC" |};
   Revisited {| path := "pkgC"; fromDir := "/g/src/pkgA" |};
   Skipped {| path := "fmt"; fromDir := "/g/src/pkgA" |}].

Definition brokenTrace : list event :=
  [Resolved {| path := "pkgB"; fromDir := "/app" |} (Samples.pkgIn "/g/src" "pkgB" []);
   Failed {| path := "pkgA"; fromDir := "/app" |} (Opaque "malformed source")].

Definition cycleTrace : list event :=
  [Resolved {| path := "a"; fromDir := "/app" |} Samples.cycA;
   Resolved {| path := "b"; fromDir := "/g/src/a" |} Samples.cycB;
   Resolved {| path := "a"; fromDir := "/g/src/b" |} Samples.cycA;
   Revisited {| path := "b"; fromDir := "/g/src/a" |}].

(** *** The staged tree *)

(** Every directory on the way from [pre] down to [pre ++ names] is in the
    tree. *)
Fixpoint allDirs (pre : fpath) (names : list string) (t : tree) : Prop :=
  match names with
  | [] => True
  | n :: ns => t !! (pre ++ [n]) = Some NDir /\ allDirs (pre ++ [n]) ns t
  end.

Section CopyVocabulary.
Context (os : OS) (dstRoot : fpath) (recursive : bool).

(** The metadata [copyTree] goes by: the link's target for a symbolic
    link, the entry itself otherwise. *)
Definition statOf (srcDir : fpath) (entry : FileInfo) : result FileInfo :=
  if fiSymlink entry then Stat os (srcDir ++ [fiName entry]) else Ok entry.

Definition wrapCopy (s d : fpath) (err : error) : error :=
  Errorf "unable to copy dir %q to %q: %v"
         [AStr (showPath s); AStr (showPath d); AErr err].

(** What the loop body does with one entry: the tree after it and, when
    the loop stops there, the error. *)
Inductive EntryStep (rec : fpath -> fpath -> tree -> option (tree * option error))
    (dstDir srcDir : fpath) (entry : FileInfo) (t : tree)
  : tree -> option error -> Prop :=
| StepExcluded :
    flag skipFiles (fiName entry) = true ->
    EntryStep rec dstDir srcDir entry t t None
| StepStatFailed err :
    flag skipFiles (fiName entry) = false ->
    statOf srcDir entry = Err err ->
    EntryStep rec dstDir srcDir entry t t
      (Some (Errorf "unable to stat %v: %v"
                    [AStr (showPath (srcDir ++ [fiName entry])); AErr err]))
| StepDirSkipped info :
    flag skipFiles (fiName entry) = false ->
    statOf srcDir entry = Ok info ->
    fiIsDir info = true -> recursive = false ->
    EntryStep rec dstDir srcDir entry t t None
| StepDir info t' err :
    flag skipFiles (fiName entry) = false ->
    statOf srcDir entry = Ok info ->
    fiIsDir info = true -> recursive = true ->
    rec (dstDir ++ [fiName entry]) (srcDir ++ [fiName entry]) t = Some (t', err) ->
    EntryStep rec dstDir srcDir entry t t'
      (wrapCopy (srcDir ++ [fiName entry]) (dstDir ++ [fiName entry]) <$> err)
| StepFile info t' err :
    flag skipFiles (fiName entry) = false ->
    statOf srcDir entry = Ok info ->
    fiIsDir info = false ->
    copyFile os dstRoot (dstDir ++ [fiName entry]) (srcDir ++ [fiName entry]) t
    = (t', err) ->
    EntryStep rec dstDir srcDir entry t t'
      (wrapCopy (srcDir ++ [fiName entry]) (dstDir ++ [fiName entry]) <$> err).

(** The file that the copy of [srcDir] to [dstDir] puts at [p]. *)
Definition wanted (dstDir srcDir p : fpath) (data : list Byte.byte) : Prop :=
  exists rel, p = dstRoot ++ dstDir ++ rel /\ ReadFile os (srcDir ++ rel) = ReadAll data.

(** From [t] to [t']: directories stay, regular files stay regular files,
    and a file that changed now holds what the copy of [srcDir] to [dstDir] puts
    there. *)
Definition grows (dstDir srcDir : fpath) (t t' : tree) : Prop :=
  (forall p, t !! p = Some NDir -> t' !! p = Some NDir) /\
  (forall p data, t !! p = Some (NFile data) ->
     exists data', t' !! p = Some (NFile data') /\
                   (data' = data \/ wanted dstDir srcDir p data')).

(** [entry] of [srcDir] is in place in [t] below [dstDir]: it is excluded, or a
    directory that is not followed or whose copy [sub] is in place, or a
    file with the content read from it. *)
Definition entryStaged (sub : fpath -> fpath -> tree -> Prop)
    (dstDir srcDir : fpath) (t : tree) (entry : FileInfo) : Prop :=
  flag skipFiles (fiName entry) = true \/
  (flag skipFiles (fiName entry) = false /\
   exists info, statOf srcDir entry = Ok info /\
     if fiIsDir info then
       recursive = false \/
       (recursive = true /\ sub (dstDir ++ [fiName entry]) (srcDir ++ [fiName entry]) t)
     else
       exists data, ReadFile os (srcDir ++ [fiName entry]) = ReadAll data /\
                    t !! (dstRoot ++ dstDir ++ [fiName entry]) = Some (NFile data)).

(** [t] holds the copy of [srcDir] at [dstDir], [fuel] levels deep. *)
Fixpoint Staged (fuel : nat) (dstDir srcDir : fpath) (t : tree) : Prop :=
  match fuel with
  | 0 => False
  | S fuel' =>
      allDirs [] (dstRoot ++ dstDir) t /\
      exists entries, ReadDir os srcDir = Ok entries /\
                      Forall (entryStaged (Staged fuel') dstDir srcDir t) entries
  end.

Definition allowed (n : string) : Prop := flag skipFiles n = false.

(** [p] is the directory [dstDir] of the staged tree or one above it. *)
Definition above (dstDir p : fpath) : Prop := exists rel, dstRoot ++ dstDir = p ++ rel.

(** [p] is below [dstDir], along names that are not excluded. *)
Definition below (dstDir p : fpath) : Prop :=
  exists rel, p = dstRoot ++ dstDir ++ rel /\ Forall allowed rel.

(** [copyTree] on [srcDir] goes down the directories [rel]: each name is a
    listed entry that is not excluded and that is, after a symbolic link
    is resolved, a directory. *)
Fixpoint followed (srcDir : fpath) (rel : list string) : Prop :=
  match rel with
  | [] => True
  | n :: rel' =>
      (exists entries entry info,
          ReadDir os srcDir = Ok entries /\ entry ∈ entries /\ fiName entry = n /\
          flag skipFiles n = false /\
          statOf srcDir entry = Ok info /\ fiIsDir info = true) /\
      recursive = true /\
      followed (srcDir ++ [n]) rel'
  end.

(** The run of [copyTree] from [t] comes to the test of [entry] at path
    [s], with the tree [t1] made so far: the entries listed before it, in
    its directory and in the directories above, were copied without
    error, and its name is not excluded. *)
Inductive Visits : nat -> fpath -> fpath -> tree -> fpath -> FileInfo -> tree -> Prop :=
| VisitsHere fuel dstDir srcDir t t0 pre entry post t1 :
    MkdirAll (dstRoot ++ dstDir) t = (t0, None) ->
    ReadDir os srcDir = Ok (pre ++ entry :: post) ->
    copyEntries os (fun d s t => copyTree os fuel dstRoot d s recursive t)
                dstRoot dstDir srcDir recursive pre t0 = Some (t1, None) ->
    flag skipFiles (fiName entry) = false ->
    Visits (S fuel) dstDir srcDir t (srcDir ++ [fiName entry]) entry t1
| VisitsBelow fuel dstDir srcDir t t0 pre sub post t1 info s entry t2 :
    MkdirAll (dstRoot ++ dstDir) t = (t0, None) ->
    ReadDir os srcDir = Ok (pre ++ sub :: post) ->
    copyEntries os (fun d s t => copyTree os fuel dstRoot d s recursive t)
                dstRoot dstDir srcDir recursive pre t0 = Some (t1, None) ->
    flag skipFiles (fiName sub) = false ->
    statOf srcDir sub = Ok info -> fiIsDir info = true -> recursive = true ->
    Visits fuel (dstDir ++ [fiName sub]) (srcDir ++ [fiName sub]) t1 s entry t2 ->
    Visits (S fuel) dstDir srcDir t s entry t2.

End CopyVocabulary.

(** *** The staging modes *)

(** No [go.mod] in directory [d]: [os.Stat] says it does not exist. *)
Definition noGoMod (os : OS) (d : fpath) : Prop :=
  exists e, Stat os (d ++ ["go.mod"]) = Err e /\ IsNotExist e = true.

(** The world after the first statement of [stageFlex] and of
    [stageStandardSecondGen]. *)
Definition unskipAppengine (w : world) : world :=
  {| skipped := <["appengine" := false]> (skipped w);
     staged := staged w; stdout := stdout w |}.

Definition say (line : string) (w : world) : world :=
  {| skipped := skipped w; staged := staged w; stdout := stdout w ++ [line] |}.

(** The test of [stageStandardSecondGen] for the workspace strategy: no
    [go.mod] was found, or the variable [GO111MODULE] is not [on] and the
    path of [go.mod] starts with the text of the workspace path. *)
Definition delegates (os : OS) (gmPath : string) : bool :=
  String.eqb gmPath "" ||
  (negb (String.eqb (ToLower (Getenv os "GO111MODULE")) "on") &&
   String.prefix (DefaultGOPATH os) gmPath).

Definition wrapRoot (err : error) : error :=
  Errorf "unable to copy root directory to /app: %v" [AErr err].

(** *** The closure *)

(** The edges of the import graph that the walk from [seeds] can come to:
    the seeds, and the imports of every package that an edge already
    reachable, and not skipped, resolves to. *)
Inductive Reachable (ctx : Context) (skipped : gmap string bool)
    (seeds : list importFrom) : importFrom -> Prop :=
| ReachSeed i :
    i ∈ seeds -> Reachable ctx skipped seeds i
| ReachImport i pkg e :
    Reachable ctx skipped seeds i ->
    flag skipped (firstPart (path i)) = false ->
    ImportFrom ctx (path i) (fromDir i) = Ok pkg ->
    e ∈ edgesOf pkg ->
    Reachable ctx skipped seeds e.

(** The list [packages] after the packages [ps] were resolved in this
    order: one is appended when no package of the same joined path is
    there. *)
Definition addNew (acc : list Package) (ps : list Package) : list Package :=
  foldl (fun acc p => if bool_decide (pkgName p ∈ pkgName <$> acc)
                      then acc else acc ++ [p]) acc ps.

(** The edge [i] needs no more work in the state [st] of a run that goes on
    with the events [evs]: it is skipped, or visited, or resolved later in
    the run. *)
Definition handled (skipped : gmap string bool) (st : loopState)
    (evs : list event) (i : importFrom) : Prop :=
  flag skipped (firstPart (path i)) = true \/
  is_Some (visited st !! i) \/
  i ∈ calls evs.

(** *** What the copy stages *)

(** [p] is a regular file of [t], directly in the directory [dstDir] of the
    staged tree, with a name that is not excluded. *)
Definition direct (dstRoot dstDir : fpath) (t : tree) (p : fpath) : Prop :=
  exists n data, p = dstRoot ++ dstDir ++ [n] /\ allowed n /\
                 t !! p = Some (NFile data).

(** Where [bundle] stages the package [pkg]. *)
Definition bundleDir (dstDepsDir : string) (pkg : Package) : fpath :=
  comps (filepath.Join [dstDepsDir; ImportPath pkg]).

(** From [t] to [t'] nothing is removed and nothing changes its kind: a
    directory stays a directory and a regular file stays a regular file,
    with the same content or another. *)
Definition keeps (t t' : tree) : Prop :=
  forall p,
    (t !! p = Some NDir -> t' !! p = Some NDir) /\
    (forall data, t !! p = Some (NFile data) -> exists data', t' !! p = Some (NFile data')).

(** The source below [srcDir] is less than [fuel] directories deep, along
    the directories [copyTree] goes down to: enough for [copyTree] with
    this [fuel] to return. *)
Fixpoint boundedb (os : OS) (recursive : bool) (fuel : nat) (srcDir : fpath)
  : bool :=
  match fuel with
  | 0 => false
  | S fuel' =>
      match ReadDir os srcDir with
      | Err _ => true
      | Ok entries =>
          forallb (fun entry =>
                     flag skipFiles (fiName entry) ||
                     match statOf os srcDir entry with
                     | Err _ => true
                     | Ok info =>
                         negb (fiIsDir info) || negb recursive ||
                         boundedb os recursive fuel' (srcDir ++ [fiName entry])
                     end) entries
      end
  end.

(** The file at [p], if the copy of [srcDir] to [dstDir] writes there, is
    read in full from its source and holds [data]. *)
Definition fromSource (os : OS) (dstRoot dstDir srcDir p : fpath)
    (data : list Byte.byte) : Prop :=
  forall rel, p = dstRoot ++ dstDir ++ rel -> ReadFile os (srcDir ++ rel) = ReadAll data.

(** *** Paths and the workspace *)

(** No byte of [s] is [sep]. *)
Fixpoint noSep (sep : ascii) (s : string) : bool :=
  match s with
  | EmptyString => true
  | String c s' => negb (Ascii.eqb c sep) && noSep sep s'
  end.

(** A name of a cleaned path: not empty, not [.] or [..], no slash in
    it. *)
Definition proper (n : string) : Prop :=
  n <> "" /\ n <> "." /\ n <> ".." /\ noSep "/"%char n = true.

(** The workspace entry [p] does not hold [mainDir]: its [src] directory,
    with the separator after it, is no prefix of [mainDir]. *)
Definition outside (os : OS) (mainDir : string) (p : string) : Prop :=
  exists gop, Abs os p = Ok gop /\
              String.prefix (filepath.Join [gop; "src"] +:+ "/") mainDir = false.

(** The search of [goModPath] from the directory [c] comes to its ancestor
    of depth [k]: no directory from [c] up to the one below that ancestor
    has a [go.mod]. *)
Definition stopsAt (os : OS) (c : fpath) (k : nat) : Prop :=
  k <= length c /\ forall k', k < k' <= length c -> noGoMod os (take k' c).

(** The directory [d] is the workspace root [g] or lies below it. *)
Definition inside (g d : fpath) : Prop := exists rel, d = g ++ rel.

(** The way to the directory [d] leaves the way to the workspace root [g]
    at a name that does not begin with the name [g] has there. *)
Definition apart (g d : fpath) : Prop :=
  exists j x y, take j g = take j d /\ g !! j = Some x /\ d !! j = Some y /\
                String.prefix x y = false.

(** The run is handed to [stageFlex]. *)
Definition usesWorkspace (os : OS) (fuel : nat) (src dst : string)
    (buildCtx : Context) (w : world) : Prop :=
  stageStandardSecondGen os fuel src dst buildCtx w
  = stageFlex os fuel src dst buildCtx
      (say "building with dependencies from GOPATH" (unskipAppengine w)).

(** The run goes by the module: the provider is not consulted (the
    outcome is the same for every provider), the side file is written and
    the whole directory of [go.mod] is copied. *)
Definition usesModule (os : OS) (fuel : nat) (src dst : string)
    (buildCtx : Context) (w : world) (gmPath : string) : Prop :=
  let w' := say "building with dependencies from go.mod" (unskipAppengine w) in
  (forall ctx', stageStandardSecondGen os fuel src dst ctx' w
                = stageStandardSecondGen os fuel src dst buildCtx w) /\
  (forall o, stageStandardSecondGen os fuel src dst buildCtx w = Some o ->
             stdout (worldOf o) = stdout w') /\
  exists t e1,
    writeGoModMainPkgFile os (comps dst ++ ["_main-package-path"])
                          gmPath src (staged w) = (t, e1) /\
    stageStandardSecondGen os fuel src dst buildCtx w
    = match e1 with
      | Some e =>
          Some (Finished (withStaged w' t)
                  (Some (Errorf "failed to write %s: %v"
                           [AStr (showPath (comps dst ++ ["_main-package-path"]));
                            AErr e])))
      | None =>
          (fun r => Finished (withStaged w' r.1) (wrapRoot <$> r.2))
          <$> copyTree os fuel (comps dst) [] (removelast (comps gmPath)) true t
      end.

(** The provider [ctx'] gives the same closure as [ctx] for the
    application [src] when it is resolved with the table [table], and has
    the same workspace path. *)
Definition sameClosure (os : OS) (fuel : nat) (src : string)
    (table : gmap string bool) (enforceMain : bool) (ctx ctx' : Context) : Prop :=
  GOPATH ctx' = GOPATH ctx /\
  analyze os table fuel src ctx' enforceMain = analyze os table fuel src ctx enforceMain.

(** *** Decimal numbers *)

(** The number of digits [decimal] writes. *)
Fixpoint digits (fuel : nat) (n : Z) : nat :=
  match fuel with
  | 0 => 1
  | S fuel' => if (n <? 10)%Z then 1 else S (digits fuel' (n / 10))
  end.

(** The last byte of a string. *)
Fixpoint lastChar (s : string) : option ascii :=
  match s with
  | EmptyString => None
  | String c EmptyString => Some c
  | String _ s' => lastChar s'
  end.

(** * The closure resolver *)

Section Resolver.
Context (ctx : Context) (skipped : gmap string bool).

Local Abbreviation closedEdges := (closedEdges ctx).

Lemma iteration_Step st ev sr :
  iteration ctx skipped st = Some (ev, sr) <-> Step ctx skipped st ev sr.
Proof.
  unfold iteration. split.
  - destruct (imports st) as [|i rest] eqn:Hq; [done|].
    intros H. injection H as H.
    destruct (decide (is_Some (visited st !! i))) as [Hv|Hv].
    { injection H as <- <-. by eapply StepRevisited. }
    apply eq_None_not_Some in Hv.
    destruct (flag skipped (firstPart (path i))) eqn:Hs.
    { injection H as <- <-. by eapply StepSkipped. }
    destruct (ImportFrom ctx (path i) (fromDir i)) as [pkg|err] eqn:Hi.
    + injection H as <- <-. by eapply (StepResolved _ _ _ i rest pkg).
    + injection H as <- <-. by eapply StepFailed.
  - intros H. destruct H as [i rest Hq Hv|i rest Hq Hv Hs|i rest err Hq Hv Hs Hi
                            |i rest pkg fresh Hq Hv Hs Hi ->]; rewrite Hq.
    + by rewrite decide_True.
    + rewrite decide_False, Hs; [done|]. by apply eq_None_not_Some.
    + rewrite decide_False, Hs, Hi; [done|]. by apply eq_None_not_Some.
    + rewrite decide_False, Hs, Hi; [done|]. by apply eq_None_not_Some.
Qed.

(** The loop unfolded by one iteration. *)
Lemma loop_inv fuel st evs r :
  loop ctx skipped fuel st = Some (evs, r) ->
  (imports st = [] /\ evs = [] /\ r = (packages st, None)) \/
  (exists ev pkgs err, Step ctx skipped st ev (Return pkgs err) /\
                       evs = [ev] /\ r = (pkgs, err)) \/
  (exists ev st' fuel' evs', Step ctx skipped st ev (Continue st') /\
                             fuel = S fuel' /\ evs = ev :: evs' /\
                             loop ctx skipped fuel' st' = Some (evs', r)).
Proof.
  destruct fuel as [|fuel']; simpl;
    destruct (iteration ctx skipped st) as [[ev [pkgs err|st']]|] eqn:Hit.
  - intros [= <- <-]. right; left. apply iteration_Step in Hit. eauto 10.
  - done.
  - intros [= <- <-]. left. unfold iteration in Hit.
    by destruct (imports st).
  - intros [= <- <-]. right; left. apply iteration_Step in Hit. eauto 10.
  - destruct (loop ctx skipped fuel' st') as [[evs' r']|] eqn:Hl; [|done].
    intros [= <- <-]. right; right. apply iteration_Step in Hit. eauto 10.
  - intros [= <- <-]. left. unfold iteration in Hit.
    by destruct (imports st).
Qed.

Lemma loop_mono fuel fuel' st r :
  loop ctx skipped fuel st = Some r -> fuel <= fuel' ->
  loop ctx skipped fuel' st = Some r.
Proof.
  revert fuel' st r. induction fuel as [|fuel IH]; intros fuel' st r.
  - destruct fuel'; simpl; [done|].
    destruct (iteration ctx skipped st) as [[ev [pkgs err|st']]|]; done.
  - intros H Hle. destruct fuel' as [|fuel']; [lia|]. simpl in *.
    destruct (iteration ctx skipped st) as [[ev [pkgs err|st']]|]; try done.
    destruct (loop ctx skipped fuel st') as [[evs r']|] eqn:Hl; [|done].
    rewrite (IH fuel' st' (evs, r')); [done|done|lia].
Qed.

(** An edge goes to the provider at most once, and only when it is not
    yet in [visited]. *)
Lemma loop_calls_fresh fuel st evs r :
  loop ctx skipped fuel st = Some (evs, r) ->
  NoDup (calls evs) /\ forall i, i ∈ calls evs -> visited st !! i = None.
Proof.
  revert st evs r. induction fuel as [fuel IH] using lt_wf_ind.
  intros st evs r H.
  apply loop_inv in H as [(_ & -> & _)|[(ev & pkgs & err & Hs & -> & _)
                                       |(ev & st' & fuel' & evs' & Hs & -> & -> & Hl)]].
  - split; [constructor|]. intros i Hi. by apply elem_of_nil in Hi.
  - inversion Hs; subst; simpl; split; try apply NoDup_singleton.
    intros j Hj. apply list_elem_of_singleton in Hj. by subst.
  - apply IH in Hl as [Hnd Hv]; [|lia].
    inversion Hs; subst; simpl in *; try done.
    split.
    + constructor; [|done]. intros Hi. apply Hv in Hi.
      by rewrite lookup_insert_eq in Hi.
    + intros j Hj. apply elem_of_cons in Hj as [->|Hj]; [done|].
      apply Hv in Hj. apply lookup_insert_None in Hj. tauto.
Qed.

(** The provider is never asked about an edge whose first segment is in
    the skip list. *)
Lemma loop_calls_not_skipped fuel st evs r :
  loop ctx skipped fuel st = Some (evs, r) ->
  forall i, i ∈ calls evs -> flag skipped (firstPart (path i)) = false.
Proof.
  revert st evs r. induction fuel as [fuel IH] using lt_wf_ind.
  intros st evs r H.
  apply loop_inv in H as [(_ & -> & _)|[(ev & pkgs & err & Hs & -> & _)
                                       |(ev & st' & fuel' & evs' & Hs & -> & -> & Hl)]].
  - intros i Hi. by apply elem_of_nil in Hi.
  - inversion Hs; subst; simpl.
    intros j Hj. apply list_elem_of_singleton in Hj. by subst.
  - assert (IH' := IH fuel' ltac:(lia) _ _ _ Hl).
    inversion Hs; subst; simpl in *; try done.
    intros j Hj. apply elem_of_cons in Hj as [->|Hj]; auto.
Qed.

(** An edge that is in [visited] when it leaves the queue is dropped. *)
Lemma loop_visited_dropped fuel st evs r :
  loop ctx skipped fuel st = Some (evs, r) ->
  forall ev, ev ∈ evs -> is_Some (visited st !! eventEdge ev) ->
             ev = Revisited (eventEdge ev).
Proof.
  revert st evs r. induction fuel as [fuel IH] using lt_wf_ind.
  intros st evs r H.
  apply loop_inv in H as [(_ & -> & _)|[(ev & pkgs & err & Hs & -> & _)
                                       |(ev & st' & fuel' & evs' & Hs & -> & -> & Hl)]].
  - intros ev Hev. by apply elem_of_nil in Hev.
  - intros ev' Hev' Hv. apply list_elem_of_singleton in Hev' as ->.
    inversion Hs; subst; simpl in *. rewrite H2 in Hv. by destruct Hv.
  - assert (IH' := IH fuel' ltac:(lia) _ _ _ Hl).
    intros ev' Hev' Hv. apply elem_of_cons in Hev' as [->|Hev'].
    + inversion Hs; subst; simpl in *; try done.
      * rewrite H1 in Hv. by destruct Hv.
      * rewrite H1 in Hv. by destruct Hv.
    + apply IH'; [done|].
      inversion Hs; subst; simpl in *; try done.
      destruct Hv as [b Hb]. destruct (decide (i = eventEdge ev')) as [<-|Hne].
      * rewrite lookup_insert_eq. eauto.
      * rewrite lookup_insert_ne; eauto.
Qed.

(** A failed resolution ends the loop: it is the last event, no package is
    returned and the error is the provider's own. *)
Lemma loop_failed fuel st evs r i err :
  loop ctx skipped fuel st = Some (evs, r) ->
  Failed i err ∈ evs ->
  r = ([], Some err) /\ exists pre, evs = pre ++ [Failed i err].
Proof.
  revert st evs r. induction fuel as [fuel IH] using lt_wf_ind.
  intros st evs r H.
  apply loop_inv in H as [(_ & -> & _)|[(ev & pkgs & e & Hs & -> & ->)
                                       |(ev & st' & fuel' & evs' & Hs & -> & -> & Hl)]].
  - intros Hev. by apply elem_of_nil in Hev.
  - intros Hev. apply list_elem_of_singleton in Hev as <-.
    inversion Hs; subst. split; [done|]. by exists [].
  - intros Hev. apply elem_of_cons in Hev as [<-|Hev].
    + inversion Hs.
    + destruct (IH fuel' ltac:(lia) _ _ _ Hl Hev) as [-> [pre ->]].
      split; [done|]. by exists (ev :: pre).
Qed.

(** A run without a failure returns no error. *)
Lemma loop_error fuel st evs pkgs e :
  loop ctx skipped fuel st = Some (evs, (pkgs, Some e)) ->
  exists i, Failed i e ∈ evs.
Proof.
  revert st evs. induction fuel as [fuel IH] using lt_wf_ind.
  intros st evs H.
  apply loop_inv in H as [(_ & _ & [=])|[(ev & pkgs' & e' & Hs & -> & [= <- <-])
                                       |(ev & st' & fuel' & evs' & Hs & -> & -> & Hl)]].
  - inversion Hs; subst. exists i. by apply list_elem_of_singleton.
  - destruct (IH fuel' ltac:(lia) _ _ Hl) as [i Hi]. exists i.
    by apply elem_of_cons; right.
Qed.

Lemma Step_dedupInv st ev st' :
  Step ctx skipped st ev (Continue st') -> dedupInv st ->
  dedupInv st' /\
  (forall p, p ∈ packages st -> p ∈ packages st') /\
  (forall p, p ∈ packages st' -> p ∈ packages st \/ ev = Resolved (eventEdge ev) p) /\
  (forall i p, ev = Resolved i p -> pkgName p ∈ pkgName <$> packages st').
Proof.
  intros Hs [Hnd Hvp]. unfold dedupInv. inversion Hs; subst; simpl;
    try (split; [done|]; split; [done|]; split; [by left|done]).
  destruct (bool_decide (is_Some (visitedPackages st !! pkgName pkg))) eqn:Hb;
    clear Hs; cbn [packages visitedPackages negb].
  - apply bool_decide_eq_true in Hb.
    split; [done|]. split; [done|]. split; [by left|].
    intros ? ? [= _ <-]. by apply Hvp.
  - apply bool_decide_eq_false in Hb.
    split; [split|split; [|split]].
    + rewrite fmap_app. apply NoDup_app. split; [done|]. split.
      * intros n Hn Hn'. apply list_elem_of_singleton in Hn' as ->.
        by apply Hb, Hvp.
      * apply NoDup_singleton.
    + intros n. rewrite fmap_app, elem_of_app. simpl.
      rewrite list_elem_of_singleton, <- Hvp.
      destruct (decide (pkgName pkg = n)) as [<-|Hne].
      * rewrite lookup_insert_eq. split; eauto.
      * rewrite lookup_insert_ne by done. split; [tauto|]. intros [?|?]; [done|congruence].
    + intros p Hp. apply elem_of_app. by left.
    + intros p Hp. apply elem_of_app in Hp as [Hp|Hp]; [by left|].
      apply list_elem_of_singleton in Hp as ->. by right.
    + intros ? ? [= _ <-]. rewrite fmap_app, elem_of_app. right.
      by apply list_elem_of_singleton.
Qed.

(** The list that is returned: no name twice, every package the provider
    returned is there under its name, and nothing else is. *)
Lemma loop_packages fuel st evs pkgs :
  loop ctx skipped fuel st = Some (evs, (pkgs, None)) ->
  dedupInv st ->
  NoDup (pkgName <$> pkgs) /\
  (forall p, p ∈ packages st -> p ∈ pkgs) /\
  (forall p, p ∈ resolved evs -> pkgName p ∈ pkgName <$> pkgs) /\
  (forall p, p ∈ pkgs -> p ∈ packages st \/ p ∈ resolved evs).
Proof.
  revert st evs. induction fuel as [fuel IH] using lt_wf_ind.
  intros st evs H Hinv.
  apply loop_inv in H as [(_ & -> & [= ->])|[(ev & pkgs' & e' & Hs & -> & [= <- <-])
                                       |(ev & st' & fuel' & evs' & Hs & -> & -> & Hl)]].
  - destruct Hinv as [Hnd _]. split; [done|]. split; [done|]. split; [|by left].
    intros p Hp. by apply elem_of_nil in Hp.
  - inversion Hs.
  - destruct (Step_dedupInv _ _ _ Hs Hinv) as (Hinv' & Hsub & Hnew & Hin).
    destruct (IH fuel' ltac:(lia) _ _ Hl Hinv') as (Hnd & Hkeep & Hres & Hfrom).
    split; [done|]. split; [auto|]. split.
    + intros p Hp. unfold resolved in Hp. simpl in Hp.
      apply elem_of_app in Hp as [Hp|Hp]; [|by apply Hres].
      destruct ev; simpl in Hp; try by apply elem_of_nil in Hp.
      apply list_elem_of_singleton in Hp as ->.
      specialize (Hin _ _ eq_refl).
      apply list_elem_of_fmap in Hin as (q & Hq & Hq').
      rewrite Hq. apply list_elem_of_fmap. exists q. auto.
    + intros p Hp. apply Hfrom in Hp as [Hp|Hp].
      * apply Hnew in Hp as [Hp|Hp]; [by left|]. right.
        unfold resolved. simpl. apply elem_of_app. left. rewrite Hp.
        by apply list_elem_of_singleton.
      * right. unfold resolved. simpl. apply elem_of_app. by right.
Qed.

(** *** Termination on a finite graph *)

Lemma loop_Continue fuel st ev st' :
  Step ctx skipped st ev (Continue st') ->
  loop ctx skipped (S fuel) st =
  match loop ctx skipped fuel st' with
  | Some (evs, r) => Some (ev :: evs, r)
  | None => None
  end.
Proof. intros Hs. apply iteration_Step in Hs. simpl. by rewrite Hs. Qed.

Lemma loop_Return fuel st ev pkgs err :
  Step ctx skipped st ev (Return pkgs err) ->
  loop ctx skipped fuel st = Some ([ev], (pkgs, err)).
Proof. intros Hs. apply iteration_Step in Hs. destruct fuel; simpl; by rewrite Hs. Qed.

Lemma loop_terminates (U : gset importFrom) :
  closedEdges U ->
  forall n q v vp ps,
    Forall (fun i => i ∈ U) q ->
    size (U ∖ dom v) <= n ->
    exists fuel r,
      loop ctx skipped fuel
           {| imports := q; visited := v; visitedPackages := vp; packages := ps |}
      = Some r.
Proof.
  intros Hclosed n. induction n as [n IHn] using lt_wf_ind.
  intros q. induction q as [|i rest IHq]; intros v vp ps HU Hn.
  - exists 0, ([], (ps, None)). done.
  - apply Forall_cons in HU as [Hi HU].
    set (st := {| imports := i :: rest; visited := v;
                  visitedPackages := vp; packages := ps |}).
    destruct (decide (is_Some (v !! i))) as [Hv|Hv].
    { destruct (IHq v vp ps HU Hn) as (fuel & [evs r] & Hl).
      exists (S fuel), (Revisited i :: evs, r).
      erewrite loop_Continue; [|by eapply (StepRevisited _ _ st i rest)].
      simpl. by rewrite Hl. }
    apply eq_None_not_Some in Hv.
    destruct (flag skipped (firstPart (path i))) eqn:Hs.
    { destruct (IHq v vp ps HU Hn) as (fuel & [evs r] & Hl).
      exists (S fuel), (Skipped i :: evs, r).
      erewrite loop_Continue; [|by eapply (StepSkipped _ _ st i rest)].
      simpl. by rewrite Hl. }
    destruct (ImportFrom ctx (path i) (fromDir i)) as [pkg|err] eqn:Himp.
    2:{ exists 0, ([Failed i err], ([], Some err)).
        apply loop_Return. by eapply (StepFailed _ _ st i rest). }
    assert (Hlt : size (U ∖ dom (<[i:=true]> v)) < size (U ∖ dom v)).
    { apply subset_size. rewrite dom_insert_L.
      apply not_elem_of_dom in Hv. split.
      - intros x. rewrite !elem_of_difference, elem_of_union. tauto.
      - intros Hsub. specialize (Hsub i).
        rewrite !elem_of_difference, elem_of_union, elem_of_singleton in Hsub.
        destruct Hsub as [_ Hnot]; [done|]. apply Hnot. by left. }
    set (fresh := negb (bool_decide (is_Some (vp !! pkgName pkg)))).
    edestruct (IHn (size (U ∖ dom (<[i:=true]> v))) ltac:(lia)
                 (rest ++ edgesOf pkg) (<[i:=true]> v)
                 (if fresh then <[pkgName pkg := true]> vp else vp)
                 (if fresh then ps ++ [pkg] else ps))
      as (fuel & [evs r] & Hl); [|done|].
    { apply Forall_app. split; [done|]. apply Forall_forall.
      intros e He. eapply Hclosed; eauto. }
    exists (S fuel), (Resolved i pkg :: evs, r).
    erewrite loop_Continue;
      [|by eapply (StepResolved _ _ st i rest pkg fresh)].
    simpl. by rewrite Hl.
Qed.

(** After an edge is resolved, every later copy of it that leaves the
    queue is dropped. *)
Lemma loop_resolved_once fuel st evs r pre i pkg post :
  loop ctx skipped fuel st = Some (evs, r) ->
  evs = pre ++ Resolved i pkg :: post ->
  forall ev, ev ∈ post -> eventEdge ev = i -> ev = Revisited i.
Proof.
  revert st evs r pre. induction fuel as [fuel IH] using lt_wf_ind.
  intros st evs r pre H Hevs.
  apply loop_inv in H as [(_ & -> & _)|[(ev & pkgs & e & Hs & -> & ->)
                                       |(ev & st' & fuel' & evs' & Hs & -> & -> & Hl)]].
  - by destruct pre.
  - destruct pre as [|? [|? ?]]; simplify_eq/=. inversion Hs.
  - destruct pre as [|ev0 pre]; simplify_eq/=.
    + intros ev Hev <-. eapply loop_visited_dropped; [done|done|].
      inversion Hs; subst; simpl. rewrite lookup_insert_eq. eauto.
    + eapply IH; [|done|done]. lia.
Qed.

(** The events tell what the provider answered. *)
Lemma loop_events_sound fuel st evs r :
  loop ctx skipped fuel st = Some (evs, r) ->
  forall ev, ev ∈ evs ->
    match ev with
    | Failed i err => ImportFrom ctx (path i) (fromDir i) = Err err
    | Resolved i pkg => ImportFrom ctx (path i) (fromDir i) = Ok pkg
    | Skipped i => flag skipped (firstPart (path i)) = true
    | Revisited i => True
    end.
Proof.
  revert st evs r. induction fuel as [fuel IH] using lt_wf_ind.
  intros st evs r H.
  apply loop_inv in H as [(_ & -> & _)|[(ev & pkgs & e & Hs & -> & ->)
                                       |(ev & st' & fuel' & evs' & Hs & -> & -> & Hl)]].
  - intros ev Hev. by apply elem_of_nil in Hev.
  - intros ev' Hev. apply list_elem_of_singleton in Hev as ->.
    by inversion Hs; subst.
  - intros ev' Hev. apply elem_of_cons in Hev as [->|Hev].
    + by inversion Hs; subst.
    + eapply IH; [|done|done]. lia.
Qed.

Lemma resolved_event evs p :
  p ∈ resolved evs <-> exists i, Resolved i p ∈ evs.
Proof.
  unfold resolved. rewrite list_elem_of_In, in_flat_map. split.
  - intros (ev & Hev & Hp). apply list_elem_of_In in Hev.
    destruct ev; simpl in Hp; try tauto. destruct Hp as [->|[]]. eauto.
  - intros (i & Hi). exists (Resolved i p). split; [by apply list_elem_of_In|].
    by left.
Qed.

Lemma calls_event evs i :
  i ∈ calls evs <->
  (exists p, Resolved i p ∈ evs) \/ (exists e, Failed i e ∈ evs).
Proof.
  unfold calls. rewrite list_elem_of_In, in_flat_map. split.
  - intros (ev & Hev & Hp). apply list_elem_of_In in Hev.
    destruct ev; simpl in Hp; try tauto; destruct Hp as [->|[]]; eauto.
  - intros [(p & Hp)|(e & He)].
    + exists (Resolved i p). split; [by apply list_elem_of_In|]. by left.
    + exists (Failed i e). split; [by apply list_elem_of_In|]. by left.
Qed.
End Resolver.

Lemma seed_dedupInv abs pkg : dedupInv (seed abs pkg).
Proof.
  split; simpl; [constructor|]. intros n. rewrite lookup_empty. split.
  - by intros [? ?].
  - intros H. by apply elem_of_nil in H.
Qed.

(** [analyze] either fails before its loop, with no event, or runs the loop
    on the imports of the root package. *)
Lemma analyzeTrace_inv os skipped fuel dir ctx enforceMain evs r :
  analyzeTrace os skipped fuel dir ctx enforceMain = Some (evs, r) ->
  (evs = [] /\ exists e, r = ([], Some e)) \/
  (exists abs pkg, Abs os dir = Ok abs /\ ImportDir ctx abs = Ok pkg /\
                   loop ctx skipped fuel (seed abs pkg) = Some (evs, r)).
Proof.
  unfold analyzeTrace.
  destruct (Abs os dir) as [abs|e] eqn:Ha; [|intros [= <- <-]; left; split; [done|eauto]].
  destruct (ImportDir ctx abs) as [pkg|e] eqn:Hp; [|intros [= <- <-]; left; split; [done|eauto]].
  destruct (enforceMain && negb (IsCommand pkg)); [intros [= <- <-]; left; split; [done|eauto]|].
  intros H. right. by exists abs, pkg.
Qed.

Lemma analyze_analyzeTrace os skipped fuel dir ctx enforceMain r :
  analyze os skipped fuel dir ctx enforceMain = Some r <->
  exists evs, analyzeTrace os skipped fuel dir ctx enforceMain = Some (evs, r).
Proof.
  unfold analyze.
  destruct (analyzeTrace os skipped fuel dir ctx enforceMain) as [[evs r']|]; simpl.
  - split; [intros [= <-]; eauto|]. by intros (? & [= _ <-]).
  - split; [done|]. by intros (? & ?).
Qed.


Example analyze_diamond :
  analyze Samples.os0 skippedPackages 20 "/app" Samples.diamond true
  = Some ([Samples.pkgA; Samples.pkgB; Samples.pkgC], None).
Proof. vm_compute. reflexivity. Qed.

(** *** The properties of [analyze] *)

Section Closure.
Context (ctx : Context) (skipped : gmap string bool).

Local Abbreviation handled := (handled skipped).

Lemma loop_covers fuel st evs pkgs :
  loop ctx skipped fuel st = Some (evs, (pkgs, None)) ->
  (forall i, i ∈ imports st -> handled st evs i) /\
  (forall i pkg e, Resolved i pkg ∈ evs -> e ∈ edgesOf pkg -> handled st evs e).
Proof.
  revert st evs. induction fuel as [fuel IH] using lt_wf_ind.
  intros st evs H.
  apply loop_inv in H as [(Hq & -> & _)|[(ev & pkgs' & e' & Hs & -> & [= <- <-])
                                       |(ev & st' & fuel' & evs' & Hs & -> & -> & Hl)]].
  - rewrite Hq. split.
    + intros i Hi. by apply elem_of_nil in Hi.
    + intros i pkg e Hi. by apply elem_of_nil in Hi.
  - inversion Hs.
  - destruct (IH fuel' ltac:(lia) _ _ Hl) as [Hq' Hr'].
    assert (Hmono : forall i, handled st' evs' i -> handled st (ev :: evs') i).
    { intros i [Hi|[Hi|Hi]]; [by left| |].
      - inversion Hs; subst; simpl in *; try (right; left; done).
        destruct (decide (i0 = i)) as [->|Hne].
        + right; right. apply list_elem_of_here.
        + rewrite lookup_insert_ne in Hi by done. by right; left.
      - right; right. unfold calls. simpl. apply elem_of_app. by right. }
    split.
    + intros i Hi. inversion Hs; subst; simpl in *;
        match goal with Hq : imports st = _ |- _ => rewrite Hq in Hi end;
        apply elem_of_cons in Hi as [->|Hi].
      * by right; left.
      * apply Hmono, Hq'. done.
      * by left.
      * apply Hmono, Hq'. done.
      * right; right. apply list_elem_of_here.
      * apply Hmono, Hq'. apply elem_of_app. by left.
    + intros i pkg e Hi He. apply elem_of_cons in Hi as [<-|Hi].
      * inversion Hs; subst; simpl in *.
        apply Hmono, Hq'. simpl. apply elem_of_app. by right.
      * apply Hmono. eauto.
Qed.

Lemma loop_calls_reachable (R : importFrom -> Prop) fuel st evs r :
  (forall i pkg e, R i -> flag skipped (firstPart (path i)) = false ->
                   ImportFrom ctx (path i) (fromDir i) = Ok pkg ->
                   e ∈ edgesOf pkg -> R e) ->
  loop ctx skipped fuel st = Some (evs, r) ->
  (forall i, i ∈ imports st -> R i) ->
  forall i, i ∈ calls evs -> R i.
Proof.
  intros HR. revert st evs r. induction fuel as [fuel IH] using lt_wf_ind.
  intros st evs r H Hq.
  apply loop_inv in H as [(_ & -> & _)|[(ev & pkgs' & e' & Hs & -> & _)
                                       |(ev & st' & fuel' & evs' & Hs & -> & -> & Hl)]].
  - intros i Hi. by apply elem_of_nil in Hi.
  - inversion Hs; subst; simpl. intros j Hj. apply list_elem_of_singleton in Hj as ->.
    apply Hq. rewrite H1. apply list_elem_of_here.
  - assert (Hq' : forall i, i ∈ imports st' -> R i).
    { intros j Hj. inversion Hs; subst; simpl in *;
        match goal with Hq0 : imports st = _ |- _ => rewrite Hq0 in Hq end;
        try (apply Hq; by apply list_elem_of_further).
      apply elem_of_app in Hj as [Hj|Hj].
      - apply Hq. by apply list_elem_of_further.
      - eapply HR; [|done|done|done]. apply Hq. apply list_elem_of_here. }
    assert (IH' := IH fuel' ltac:(lia) _ _ _ Hl Hq').
    intros j Hj. inversion Hs; subst; simpl in *; auto.
    apply elem_of_cons in Hj as [->|Hj]; auto.
    apply Hq. rewrite H0. apply list_elem_of_here.
Qed.

(** The returned list is built from the resolved packages in their order. *)
Lemma loop_order fuel st evs pkgs :
  loop ctx skipped fuel st = Some (evs, (pkgs, None)) ->
  dedupInv st ->
  pkgs = addNew (packages st) (resolved evs).
Proof.
  revert st evs. induction fuel as [fuel IH] using lt_wf_ind.
  intros st evs H Hinv.
  apply loop_inv in H as [(_ & -> & [= ->])|[(ev & pkgs' & e' & Hs & -> & [= <- <-])
                                       |(ev & st' & fuel' & evs' & Hs & -> & -> & Hl)]].
  - done.
  - inversion Hs.
  - destruct (Step_dedupInv _ _ _ _ _ Hs Hinv) as (Hinv' & _).
    rewrite (IH fuel' ltac:(lia) _ _ Hl Hinv').
    destruct Hinv as [_ Hvp].
    inversion Hs; subst; simpl; try done.
    unfold addNew. simpl. f_equal.
    destruct (bool_decide (is_Some (visitedPackages st !! pkgName pkg))) eqn:Hb.
    + apply bool_decide_eq_true in Hb. apply Hvp in Hb.
      by rewrite bool_decide_eq_true_2.
    + apply bool_decide_eq_false in Hb.
      rewrite bool_decide_eq_false_2; [done|]. intros Hin. by apply Hb, Hvp.
Qed.
End Closure.

(** What [addNew] holds: what was there, and each package of [ps] that is
    the first with its joined path. *)
Lemma addNew_elem acc ps p :
  p ∈ addNew acc ps <->
  p ∈ acc \/
  exists pre post, ps = pre ++ p :: post /\
                   pkgName p ∉ pkgName <$> (acc ++ pre).
Proof.
  revert acc. induction ps as [|q ps IH]; intros acc.
  - simpl. split; [by left|]. intros [H|(pre & post & H & _)]; [done|].
    by destruct pre.
  - unfold addNew. simpl. fold (addNew (if bool_decide (pkgName q ∈ pkgName <$> acc)
                                        then acc else acc ++ [q]) ps).
    rewrite IH. destruct (bool_decide (pkgName q ∈ pkgName <$> acc)) eqn:Hq.
    + apply bool_decide_eq_true in Hq. split.
      * intros [H|(pre & post & -> & Hn)]; [by left|]. right.
        exists (q :: pre), post. split; [done|].
        rewrite fmap_app, fmap_cons, elem_of_app, elem_of_cons.
        rewrite fmap_app, elem_of_app in Hn. intros [H|[H|H]]; [tauto| |tauto].
        rewrite H in Hn. tauto.
      * intros [H|(pre & post & Heq & Hn)]; [by left|].
        destruct pre as [|q' pre]; simpl in Heq.
        { injection Heq as -> ->. rewrite app_nil_r in Hn. done. }
        injection Heq as -> ->. right. exists pre, post. split; [done|].
        rewrite fmap_app, elem_of_app. rewrite fmap_app, fmap_cons, elem_of_app, elem_of_cons in Hn.
        tauto.
    + apply bool_decide_eq_false in Hq. split.
      * intros [H|(pre & post & -> & Hn)].
        { apply elem_of_app in H as [H|H]; [by left|].
          apply list_elem_of_singleton in H as ->. right. exists [], ps.
          split; [done|]. by rewrite app_nil_r. }
        right. exists (q :: pre), post. split; [done|].
        rewrite <- app_assoc in Hn. done.
      * intros [H|(pre & post & Heq & Hn)].
        { left. apply elem_of_app. by left. }
        destruct pre as [|q' pre]; simpl in Heq.
        { injection Heq as -> ->. left. apply elem_of_app. right.
          by apply list_elem_of_singleton. }
        injection Heq as -> ->. right. exists pre, post. split; [done|].
        by rewrite <- app_assoc.
Qed.

(** C1, as amended.  In the list [analyze] returns, a physical package is
    the cleaned path [filepath.Join(SrcRoot, ImportPath)], the key of
    [visitedPackages], and every physical package of the import graph is
    in the list exactly once: no such path occurs twice (so no pair of
    source root and import path does either); every import that can be
    reached from the root package through packages that are not skipped,
    and that is not skipped itself, resolves to a package whose path is in
    the list, whatever the number of importers; every listed package is
    the answer to such an import; and the package listed for a path is the
    first one the walk resolved with that path. *)
Theorem analyze_packages_once os skipped fuel dir ctx enforceMain evs pkgs :
  analyzeTrace os skipped fuel dir ctx enforceMain = Some (evs, (pkgs, None)) ->
  exists abs root,
    Abs os dir = Ok abs /\ ImportDir ctx abs = Ok root /\
    NoDup (pkgName <$> pkgs) /\
    NoDup (pkgIdent <$> pkgs) /\
    (forall i, Reachable ctx skipped (imports (seed abs root)) i ->
               flag skipped (firstPart (path i)) = false ->
               exists pkg, ImportFrom ctx (path i) (fromDir i) = Ok pkg /\
                           pkgName pkg ∈ pkgName <$> pkgs) /\
    (forall p, p ∈ pkgs ->
               exists i, Reachable ctx skipped (imports (seed abs root)) i /\
                         flag skipped (firstPart (path i)) = false /\
                         ImportFrom ctx (path i) (fromDir i) = Ok p) /\
    (forall p, p ∈ resolved evs -> pkgName p ∈ pkgName <$> pkgs) /\
    (forall p, p ∈ pkgs <->
               exists pre post, resolved evs = pre ++ p :: post /\
                                pkgName p ∉ pkgName <$> pre).
Proof.
  intros H. apply analyzeTrace_inv in H as [(_ & e & [=])|(abs & root & Ha & Hr & Hl)].
  exists abs, root. split; [done|]. split; [done|].
  destruct (loop_packages _ _ _ _ _ _ Hl (seed_dedupInv abs root))
    as (Hnd & _ & Hres & Hfrom).
  destruct (loop_covers _ _ _ _ _ _ Hl) as [Hq Hch].
  pose proof (loop_order _ _ _ _ _ _ Hl (seed_dedupInv abs root)) as Hord.
  assert (Hcalls : forall i, i ∈ calls evs ->
            exists pkg, ImportFrom ctx (path i) (fromDir i) = Ok pkg /\
                        Resolved i pkg ∈ evs).
  { intros i Hi. apply calls_event in Hi as [(pkg & Hp)|(e & He)].
    - exists pkg. split; [|done]. exact (loop_events_sound _ _ _ _ _ _ Hl _ Hp).
    - by destruct (loop_failed _ _ _ _ _ _ _ _ Hl He) as [[=] _]. }
  assert (Hdone : forall i, Reachable ctx skipped (imports (seed abs root)) i ->
            flag skipped (firstPart (path i)) = true \/ i ∈ calls evs).
  { induction 1 as [i Hi|i pkg e Hi IH Hs Himp He].
    - destruct (Hq i Hi) as [?|[Hv|?]]; auto.
      simpl in Hv. rewrite lookup_empty in Hv. by destruct Hv.
    - destruct IH as [IH|IH]; [congruence|].
      destruct (Hcalls i IH) as (pkg' & Himp' & Hev).
      rewrite Himp in Himp'. injection Himp' as <-.
      destruct (Hch i pkg e Hev He) as [?|[Hv|?]]; auto.
      simpl in Hv. rewrite lookup_empty in Hv. by destruct Hv. }
  split; [done|]. split.
  { assert (Heq : pkgName <$> pkgs
                  = (fun id => filepath.Join [id.1; id.2]) <$> (pkgIdent <$> pkgs)).
    { rewrite <- list_fmap_compose. done. }
    rewrite Heq in Hnd. by apply NoDup_fmap_1 in Hnd. }
  split.
  { intros i Hi Hs. destruct (Hdone i Hi) as [?|Hc]; [congruence|].
    destruct (Hcalls i Hc) as (pkg & Himp & Hev). exists pkg.
    split; [done|]. apply Hres. apply resolved_event. eauto. }
  split.
  { intros p Hp. apply Hfrom in Hp as [Hp|Hp]; [by apply elem_of_nil in Hp|].
    apply resolved_event in Hp as [i Hev]. exists i.
    assert (Hc : i ∈ calls evs) by (apply calls_event; eauto).
    split; [|split].
    - eapply (loop_calls_reachable ctx skipped
                (Reachable ctx skipped (imports (seed abs root)))); [|exact Hl| |exact Hc].
      + intros j pkg e Hj Hs Himp He. by eapply ReachImport.
      + intros j Hj. by apply ReachSeed.
    - exact (loop_calls_not_skipped _ _ _ _ _ _ Hl _ Hc).
    - exact (loop_events_sound _ _ _ _ _ _ Hl _ Hev). }
  split; [done|].
  intros p. rewrite Hord. simpl. rewrite addNew_elem. split.
  - intros [H|H]; [by apply elem_of_nil in H|done].
  - intros H. by right.
Qed.

Lemma diamond_run :
  analyzeTrace Samples.os0 skippedPackages 20 "/app" Samples.diamond true
  = Some (diamondTrace, ([Samples.pkgA; Samples.pkgB; Samples.pkgC], None)).
Proof. vm_compute. reflexivity. Qed.

Lemma analyze_packages_once_diamond :
  exists abs root,
    Abs Samples.os0 "/app" = Ok abs /\ ImportDir Samples.diamond abs = Ok root /\
    NoDup (pkgName <$> [Samples.pkgA; Samples.pkgB; Samples.pkgC]) /\
    NoDup (pkgIdent <$> [Samples.pkgA; Samples.pkgB; Samples.pkgC]) /\
    (forall i, Reachable Samples.diamond skippedPackages (imports (seed abs root)) i ->
               flag skippedPackages (firstPart (path i)) = false ->
               exists pkg, ImportFrom Samples.diamond (path i) (fromDir i) = Ok pkg /\
                           pkgName pkg
                           ∈ pkgName <$> [Samples.pkgA; Samples.pkgB; Samples.pkgC]) /\
    (forall p, p ∈ [Samples.pkgA; Samples.pkgB; Samples.pkgC] ->
               exists i, Reachable Samples.diamond skippedPackages
                                   (imports (seed abs root)) i /\
                         flag skippedPackages (firstPart (path i)) = false /\
                         ImportFrom Samples.diamond (path i) (fromDir i) = Ok p) /\
    (forall p, p ∈ resolved diamondTrace ->
               pkgName p ∈ pkgName <$> [Samples.pkgA; Samples.pkgB; Samples.pkgC]) /\
    (forall p, p ∈ [Samples.pkgA; Samples.pkgB; Samples.pkgC] <->
               exists pre post, resolved diamondTrace = pre ++ p :: post /\
                                pkgName p ∉ pkgName <$> pre).
Proof.
  exact (analyze_packages_once _ _ _ _ _ _ _ _ diamond_run).
Defined.

(** C1 as stated fails: with one workspace root inside another, the provider
    returns two packages whose pairs of source root and import path differ
    and whose joined paths are equal; the second one is not in the list. *)
Lemma analyze_pair_not_listed :
  analyzeTrace Samples.os0 skippedPackages 20 "/app" Samples.nested false
  = Some ([Resolved {| path := "a/src/b"; fromDir := "/app" |} Samples.outer;
           Resolved {| path := "b"; fromDir := "/app" |} Samples.inner],
          ([Samples.outer], None)) /\
  pkgIdent Samples.inner = ("/g/src/a/src", "b") /\
  pkgIdent Samples.inner ∉ pkgIdent <$> [Samples.outer].
Proof.
  split; [vm_compute; reflexivity|]. split; [reflexivity|].
  intros H. apply list_elem_of_singleton in H. discriminate H.
Qed.

Lemma closedEdgesb_sound ctx l :
  closedEdgesb ctx l = true -> closedEdges ctx (list_to_set l).
Proof.
  unfold closedEdgesb. rewrite forallb_forall. intros H i pkg Hi Himp e He.
  apply elem_of_list_to_set in Hi. apply list_elem_of_In in Hi.
  specialize (H i Hi). rewrite Himp, forallb_forall in H.
  apply list_elem_of_In in He. specialize (H e He).
  apply bool_decide_eq_true in H. by apply elem_of_list_to_set.
Qed.

(** C2.  On a finite import graph, cycles included, the loop of [analyze]
    ends: from some number of iterations on the run returns, always with
    the same events and result, and no edge is handed to the provider
    twice. *)
Theorem analyze_terminates os skipped dir ctx enforceMain (U : gset importFrom) :
  closedEdges ctx U ->
  (forall abs pkg importPath,
      Abs os dir = Ok abs -> ImportDir ctx abs = Ok pkg ->
      importPath ∈ Imports pkg ->
      {| path := importPath; fromDir := abs |} ∈ U) ->
  exists fuel evs r,
    (forall fuel', fuel <= fuel' ->
       analyzeTrace os skipped fuel' dir ctx enforceMain = Some (evs, r)) /\
    NoDup (calls evs).
Proof.
  intros Hclosed Hseed. unfold analyzeTrace.
  destruct (Abs os dir) as [abs|e] eqn:Ha.
  2:{ exists 0, [], ([], Some (Errorf "could not get absolute path for dir %q: %v"
                                  [AStr dir; AErr e])).
      split; [done|constructor]. }
  destruct (ImportDir ctx abs) as [pkg|e] eqn:Hp.
  2:{ exists 0, [], ([], Some (Errorf "could not get package for dir %q: %v"
                                  [AStr dir; AErr e])).
      split; [done|constructor]. }
  destruct (enforceMain && negb (IsCommand pkg)).
  { eexists 0, [], _. split; [done|constructor]. }
  destruct (loop_terminates ctx skipped U Hclosed (size (U ∖ dom (visited (seed abs pkg))))
              (imports (seed abs pkg)) ∅ ∅ [])
    as (fuel & [evs r] & Hl); [|done|].
  { apply Forall_forall. intros i Hi. simpl in Hi.
    apply list_elem_of_fmap in Hi as (ip & -> & Hip). eauto. }
  exists fuel, evs, r. split.
  - intros fuel' Hle. eapply loop_mono; [exact Hl|done].
  - by destruct (loop_calls_fresh _ _ _ _ _ _ Hl).
Qed.

Lemma analyze_terminates_diamond :
  exists fuel evs r,
    (forall fuel', fuel <= fuel' ->
       analyzeTrace Samples.os0 skippedPackages fuel' "/app" Samples.diamond true
       = Some (evs, r)) /\
    NoDup (calls evs).
Proof.
  apply (analyze_terminates Samples.os0 skippedPackages "/app" Samples.diamond true
           (list_to_set
              [{| path := "pkgA"; fromDir := "/app" |};
               {| path := "net/http"; fromDir := "/app" |};
               {| path := "pkgB"; fromDir := "/app" |};
               {| path := "pkgC"; fromDir := "/g/src/pkgA" |};
               {| path := "fmt"; fromDir := "/g/src/pkgA" |};
               {| path := "pkgC"; fromDir := "/g/src/pkgB" |};
               {| path := "pkgA"; fromDir := "/g/src/pkgC" |}])).
  - apply closedEdgesb_sound. vm_compute. reflexivity.
  - intros abs pkg importPath [= <-] [= <-] Hin.
    apply elem_of_list_to_set. simpl in Hin.
    repeat (apply elem_of_cons in Hin as [->|Hin];
            [repeat first [apply list_elem_of_here | apply list_elem_of_further]|]).
    by apply elem_of_nil in Hin.
Defined.

(** C3.  An import path whose first segment is in the skip list is never
    handed to the provider, and every package of the returned list is the
    provider's answer to an edge whose first segment is not in the skip
    list. *)
Theorem analyze_skips os skipped fuel dir ctx enforceMain evs pkgs err :
  analyzeTrace os skipped fuel dir ctx enforceMain = Some (evs, (pkgs, err)) ->
  (forall i, flag skipped (firstPart (path i)) = true -> i ∉ calls evs) /\
  (forall p, p ∈ pkgs ->
     exists i, i ∈ calls evs /\
               ImportFrom ctx (path i) (fromDir i) = Ok p /\
               flag skipped (firstPart (path i)) = false).
Proof.
  intros H.
  apply analyzeTrace_inv in H as [(-> & e & [= -> ->])|(abs & pkg & _ & _ & Hl)].
  { split; [intros i _ Hi|intros p Hp]; by apply elem_of_nil in Hi || apply elem_of_nil in Hp. }
  assert (Hns := loop_calls_not_skipped _ _ _ _ _ _ Hl).
  split.
  - intros i Hs Hi. apply Hns in Hi. congruence.
  - intros p Hp. destruct err as [e|].
    + apply loop_error in Hl as Hf. destruct Hf as [i Hi].
      destruct (loop_failed _ _ _ _ _ _ _ _ Hl Hi) as [[= ->] _].
      by apply elem_of_nil in Hp.
    + destruct (loop_packages _ _ _ _ _ _ Hl (seed_dedupInv abs pkg))
        as (_ & _ & _ & Hfrom).
      apply Hfrom in Hp as [Hp|Hp]; [by apply elem_of_nil in Hp|].
      apply resolved_event in Hp as [i Hi]. exists i.
      assert (Hc : i ∈ calls evs) by (apply calls_event; eauto).
      split; [done|]. split; [|by apply Hns].
      exact (loop_events_sound _ _ _ _ _ _ Hl _ Hi).
Qed.

Lemma analyze_skips_diamond :
  (forall i, flag skippedPackages (firstPart (path i)) = true ->
             i ∉ calls diamondTrace) /\
  (forall p, p ∈ [Samples.pkgA; Samples.pkgB; Samples.pkgC] ->
     exists i, i ∈ calls diamondTrace /\
               ImportFrom Samples.diamond (path i) (fromDir i) = Ok p /\
               flag skippedPackages (firstPart (path i)) = false).
Proof.
  exact (analyze_skips _ _ _ _ _ _ _ _ _ diamond_run).
Defined.

(** C4, as amended.  When the provider fails on an edge taken from the
    queue, [analyze] stops at once: the failure is the last event, no
    package is returned, and the error returned is the provider's own,
    unchanged. *)
Theorem analyze_resolution_failure os skipped fuel dir ctx enforceMain evs r i e :
  analyzeTrace os skipped fuel dir ctx enforceMain = Some (evs, r) ->
  Failed i e ∈ evs ->
  ImportFrom ctx (path i) (fromDir i) = Err e /\
  r = ([], Some e) /\
  exists pre, evs = pre ++ [Failed i e].
Proof.
  intros H Hf.
  apply analyzeTrace_inv in H as [(-> & _)|(abs & pkg & _ & _ & Hl)].
  { by apply elem_of_nil in Hf. }
  split; [exact (loop_events_sound _ _ _ _ _ _ Hl _ Hf)|].
  eapply loop_failed; eauto.
Qed.

Lemma broken_run :
  analyzeTrace Samples.os0 skippedPackages 20 "/app" Samples.broken false
  = Some (brokenTrace, ([], Some (Opaque "malformed source"))).
Proof. vm_compute. reflexivity. Qed.

Lemma analyze_resolution_failure_broken :
  ImportFrom Samples.broken "pkgA" "/app" = Err (Opaque "malformed source") /\
  ([] : list Package, Some (Opaque "malformed source"))
  = ([], Some (Opaque "malformed source")) /\
  exists pre, brokenTrace
              = pre ++ [Failed {| path := "pkgA"; fromDir := "/app" |}
                               (Opaque "malformed source")].
Proof.
  apply (analyze_resolution_failure _ _ _ _ _ _ _ _
           {| path := "pkgA"; fromDir := "/app" |} _ broken_run).
  apply list_elem_of_further, list_elem_of_here.
Defined.

(** C4 as stated fails: the provider fails on [pkgA] with an error that does
    not name it, and [analyze] returns that error as it is: the import path
    is nowhere in it. *)
Lemma analyze_error_not_annotated :
  ImportFrom Samples.broken "pkgA" "/app" = Err (Opaque "malformed source") /\
  analyze Samples.os0 skippedPackages 20 "/app" Samples.broken false
  = Some ([], Some (Opaque "malformed source")) /\
  mentions "pkgA" (Opaque "malformed source") = false.
Proof. repeat split; vm_compute; reflexivity. Qed.

(** C5, as amended.  No edge is resolved twice.  The iteration that resolves
    an edge has not seen it resolved before, puts it in [visited] and only
    then appends the imports of its package to the queue; every later copy
    of the edge that leaves the queue is dropped without a call to the
    provider.  (Copies of an edge do enter the queue again.) *)
Theorem analyze_edges_resolved_once os skipped fuel dir ctx enforceMain evs r :
  analyzeTrace os skipped fuel dir ctx enforceMain = Some (evs, r) ->
  NoDup (calls evs) /\
  forall pre i pkg post,
    evs = pre ++ Resolved i pkg :: post ->
    (i ∉ calls pre) /\
    forall ev, ev ∈ post -> eventEdge ev = i -> ev = Revisited i.
Proof.
  intros H.
  apply analyzeTrace_inv in H as [(-> & _)|(abs & pkg & _ & _ & Hl)].
  { split; [constructor|]. intros [|? ?] ? ? ? [=]. }
  destruct (loop_calls_fresh _ _ _ _ _ _ Hl) as [Hnd _].
  split; [done|]. intros pre i p post ->. split.
  - unfold calls in Hnd. rewrite flat_map_app in Hnd. simpl in Hnd.
    apply NoDup_app in Hnd as (_ & Hdis & _).
    intros Hi. apply (Hdis i Hi). apply list_elem_of_here.
  - eapply loop_resolved_once; eauto.
Qed.

Lemma cycle_run :
  analyzeTrace Samples.os0 skippedPackages 20 "/app" Samples.cycle true
  = Some (cycleTrace, ([Samples.cycA; Samples.cycB], None)).
Proof. vm_compute. reflexivity. Qed.

Lemma analyze_edges_resolved_once_cycle :
  NoDup (calls cycleTrace) /\
  forall pre i pkg post,
    cycleTrace = pre ++ Resolved i pkg :: post ->
    (i ∉ calls pre) /\
    forall ev, ev ∈ post -> eventEdge ev = i -> ev = Revisited i.
Proof.
  exact (analyze_edges_resolved_once _ _ _ _ _ _ _ _ cycle_run).
Defined.

(** C5 as stated fails: on a cycle of two packages the edge from [a] to [b]
    is resolved, then appended to the queue a second time when [a] is
    reached again through [b]. *)
Lemma analyze_edge_enqueued_twice :
  analyzeTrace Samples.os0 skippedPackages 20 "/app" Samples.cycle true
  = Some (cycleTrace, ([Samples.cycA; Samples.cycB], None)) /\
  enqueued [{| path := "a"; fromDir := "/app" |}] cycleTrace
  = [{| path := "a"; fromDir := "/app" |};
     {| path := "b"; fromDir := "/g/src/a" |};
     {| path := "a"; fromDir := "/g/src/b" |};
     {| path := "b"; fromDir := "/g/src/a" |}] /\
  ~ NoDup (enqueued [{| path := "a"; fromDir := "/app" |}] cycleTrace).
Proof.
  split; [exact cycle_run|]. split; [reflexivity|].
  intros H. apply NoDup_cons in H as [_ H]. apply NoDup_cons in H as [H _].
  apply H. apply list_elem_of_further, list_elem_of_here.
Qed.


(** * The staged tree *)

(** [MkdirAll] keeps what is in the tree. *)
Lemma mkdirs_keeps pre names t t' e p v :
  mkdirs pre names t = (t', e) -> t !! p = Some v -> t' !! p = Some v.
Proof.
  revert pre t. induction names as [|n ns IH]; intros pre t; simpl.
  - by intros [= <- <-].
  - destruct (t !! (pre ++ [n])) as [[|data]|] eqn:Hp.
    + eauto.
    + by intros [= <- <-].
    + intros Hm Hv. eapply IH; [done|].
      rewrite lookup_insert_ne; [done|]. congruence.
Qed.

(** What [MkdirAll] changes: it puts a directory where there was nothing,
    at a prefix of the path it was asked for. *)
Lemma mkdirs_changes pre names t t' e p :
  mkdirs pre names t = (t', e) -> t' !! p <> t !! p ->
  t !! p = None /\ t' !! p = Some NDir /\
  exists k rel, k ++ rel = names /\ p = pre ++ k /\ k <> [].
Proof.
  revert pre t. induction names as [|n ns IH]; intros pre t; simpl.
  - intros [= <- <-] H. done.
  - destruct (t !! (pre ++ [n])) as [[|data]|] eqn:Hp.
    + intros Hm Hne. destruct (IH _ _ Hm Hne) as (H1 & H2 & k & rel & <- & -> & _).
      split; [done|]. split; [done|]. exists (n :: k), rel.
      rewrite <- app_assoc. done.
    + intros [= <- <-] H. done.
    + intros Hm Hne. destruct (decide (p = pre ++ [n])) as [Hpn|Hpn].
      * subst p. split; [done|]. split.
        { eapply mkdirs_keeps; [done|]. by rewrite lookup_insert_eq. }
        exists [n], ns. done.
      * assert (Hne' : t' !! p <> <[pre ++ [n] := NDir]> t !! p).
        { by rewrite lookup_insert_ne. }
        destruct (IH _ _ Hm Hne') as (H1 & H2 & k & rel & <- & -> & _).
        rewrite lookup_insert_ne in H1 by done.
        split; [done|]. split; [done|]. exists (n :: k), rel.
        rewrite <- app_assoc. done.
Qed.

Lemma mkdirs_allDirs pre names t t' :
  mkdirs pre names t = (t', None) -> allDirs pre names t'.
Proof.
  revert pre t. induction names as [|n ns IH]; intros pre t; simpl; [done|].
  destruct (t !! (pre ++ [n])) as [[|data]|] eqn:Hp; [| done |].
  - intros Hm. split; [|eauto]. eapply mkdirs_keeps; eauto.
  - intros Hm. split; [|eauto]. eapply mkdirs_keeps; eauto.
    by rewrite lookup_insert_eq.
Qed.

Lemma allDirs_mkdirs pre names t :
  allDirs pre names t -> mkdirs pre names t = (t, None).
Proof.
  revert pre. induction names as [|n ns IH]; intros pre; simpl; [done|].
  intros [-> H]. auto.
Qed.

Lemma allDirs_last pre names t :
  allDirs pre names t -> isDirIn t pre = true -> isDirIn t (pre ++ names) = true.
Proof.
  revert pre. induction names as [|n ns IH]; intros pre; simpl.
  - by rewrite app_nil_r.
  - intros [Hn Hns] _. rewrite cons_middle, app_assoc. apply IH; [done|].
    unfold isDirIn. rewrite Hn. by destruct (pre ++ [n]).
Qed.

Lemma Create_inv p t t' :
  Create p t = Ok t' ->
  p <> [] /\ isDirIn t (removelast p) = true /\ t !! p <> Some NDir /\
  t' = <[p := NFile []]> t.
Proof.
  unfold Create. destruct p as [|n ns]; [done|].
  destruct (isDirIn t (removelast (n :: ns))); [|done]. simpl negb. cbv iota.
  destruct (t !! (n :: ns)) as [[|data]|] eqn:Hp; [done| |];
    intros [= <-]; repeat split; congruence.
Qed.

Lemma Create_ok p t :
  p <> [] -> isDirIn t (removelast p) = true -> t !! p <> Some NDir ->
  Create p t = Ok (<[p := NFile []]> t).
Proof.
  unfold Create. destruct p as [|n ns]; [done|]. intros _ -> Hp. simpl negb. cbv iota.
  by destruct (t !! (n :: ns)) as [[|data]|].
Qed.

Section Copy.
Context (os : OS) (dstRoot : fpath) (recursive : bool).

Local Abbreviation EntryStep := (EntryStep os dstRoot recursive).
Local Abbreviation StepDirSkipped := (StepDirSkipped os dstRoot recursive).
Local Abbreviation StepStatFailed := (StepStatFailed os dstRoot recursive).
Local Abbreviation StepDir := (StepDir os dstRoot recursive).
Local Abbreviation StepFile := (StepFile os dstRoot recursive).
Local Abbreviation wanted := (wanted os dstRoot).
Local Abbreviation grows := (grows os dstRoot).
Local Abbreviation entryStaged := (entryStaged os dstRoot recursive).
Local Abbreviation Staged := (Staged os dstRoot recursive).
Local Abbreviation above := (above dstRoot).
Local Abbreviation below := (below dstRoot).

Lemma copyEntries_cons rec dstDir srcDir entry rest t r :
  copyEntries os rec dstRoot dstDir srcDir recursive (entry :: rest) t = Some r <->
  exists t1 e1,
    EntryStep rec dstDir srcDir entry t t1 e1 /\
    match e1 with
    | Some err => r = (t1, Some err)
    | None => copyEntries os rec dstRoot dstDir srcDir recursive rest t1 = Some r
    end.
Proof.
  simpl. split.
  - destruct (flag skipFiles (fiName entry)) eqn:Hs.
    { intros H. exists t, None. split; [by constructor|done]. }
    destruct (if fiSymlink entry then _ else _) as [info|err] eqn:Hst.
    2:{ intros [= <-]. eexists t, _. split; [by eapply StepStatFailed|done]. }
    destruct (fiIsDir info) eqn:Hd.
    + destruct (negb recursive) eqn:Hr.
      * apply negb_true_iff in Hr.
        intros H. exists t, None. split; [by eapply StepDirSkipped|done].
      * apply negb_false_iff in Hr.
        destruct (rec _ _ t) as [[t1 [err|]]|] eqn:Hrec; [| |done].
        -- intros [= <-]. eexists t1, _.
           split; [by eapply (StepDir _ _ _ _ _ info t1 (Some err))|done].
        -- intros H. eexists t1, _.
           split; [by eapply (StepDir _ _ _ _ _ info t1 None)|done].
    + destruct (copyFile _ _ _ _ t) as [t1 [err|]] eqn:Hcf.
      * intros [= <-]. eexists t1, _.
        split; [by eapply (StepFile _ _ _ _ _ info t1 (Some err))|done].
      * intros H. eexists t1, _.
        split; [by eapply (StepFile _ _ _ _ _ info t1 None)|done].
  - intros (t1 & e1 & Hstep & Hr).
    destruct Hstep as [Hs|err Hs Hst|info Hs Hst Hd Hrec|info t' err Hs Hst Hd Hrec Hcall
                      |info t' err Hs Hst Hd Hcf]; rewrite Hs; try done;
      unfold statOf in Hst; rewrite Hst; try (by rewrite Hr).
    + rewrite Hd. rewrite Hrec in *. done.
    + rewrite Hd. rewrite Hrec in *. rewrite Hcall. simpl.
      destruct err; simpl in *; by rewrite ?Hr.
    + rewrite Hd, Hcf. destruct err; simpl in *; by rewrite ?Hr.
Qed.

(** The ways through the loop body that do not stop the loop. *)
Lemma EntryStep_None rec dstDir srcDir entry t t' :
  EntryStep rec dstDir srcDir entry t t' None ->
  (flag skipFiles (fiName entry) = true /\ t' = t) \/
  (flag skipFiles (fiName entry) = false /\
   exists info, statOf os srcDir entry = Ok info /\
     ((fiIsDir info = true /\ recursive = false /\ t' = t) \/
      (fiIsDir info = true /\ recursive = true /\
       rec (dstDir ++ [fiName entry]) (srcDir ++ [fiName entry]) t = Some (t', None)) \/
      (fiIsDir info = false /\
       copyFile os dstRoot (dstDir ++ [fiName entry]) (srcDir ++ [fiName entry]) t
       = (t', None)))).
Proof.
  intros H. remember None as e eqn:He.
  destruct H as [Hs|err Hs Hst|info Hs Hst Hd Hrec|info t' err Hs Hst Hd Hrec Hcall
                |info t' err Hs Hst Hd Hcf].
  - by left.
  - done.
  - right. split; [done|]. exists info. split; [done|]. by left.
  - destruct err; [done|]. right. split; [done|]. exists info. split; [done|].
    right; left. done.
  - destruct err; [done|]. right. split; [done|]. exists info. split; [done|].
    right; right. done.
Qed.

(** [copyTree] unfolded by one level. *)
Lemma copyTree_inv fuel dstDir srcDir t r :
  copyTree os fuel dstRoot dstDir srcDir recursive t = Some r ->
  exists fuel' t1 e1,
    fuel = S fuel' /\ MkdirAll (dstRoot ++ dstDir) t = (t1, e1) /\
    match e1 with
    | Some err =>
        r = (t1, Some (Errorf "unable to create directory %q: %v"
                              [AStr (showPath (dstRoot ++ dstDir)); AErr err]))
    | None =>
        match ReadDir os srcDir with
        | Err err =>
            r = (t1, Some (Errorf "unable to read dir %q: %v"
                                  [AStr (showPath srcDir); AErr err]))
        | Ok entries =>
            copyEntries os
              (fun d s t => copyTree os fuel' dstRoot d s recursive t)
              dstRoot dstDir srcDir recursive entries t1 = Some r
        end
    end.
Proof.
  destruct fuel as [|fuel']; simpl; [done|].
  destruct (MkdirAll (dstRoot ++ dstDir) t) as [t1 [err|]] eqn:Hm.
  - intros [= <-]. by exists fuel', t1, (Some err).
  - intros H. exists fuel', t1, None. split; [done|]. split; [done|].
    destruct (ReadDir os srcDir); [done|]. by injection H as <-.
Qed.

(** *** How a successful copy changes the tree *)

Lemma grows_refl dstDir srcDir t : grows dstDir srcDir t t.
Proof. split; eauto. Qed.

Lemma grows_trans dstDir srcDir t1 t2 t3 :
  grows dstDir srcDir t1 t2 -> grows dstDir srcDir t2 t3 -> grows dstDir srcDir t1 t3.
Proof.
  intros [Hd1 Hf1] [Hd2 Hf2]. split; [eauto|].
  intros p data Hp. destruct (Hf1 _ _ Hp) as (d2 & Hp2 & H2).
  destruct (Hf2 _ _ Hp2) as (d3 & Hp3 & H3). exists d3. split; [done|].
  destruct H3 as [->|H3]; auto.
Qed.

Lemma wanted_sub dstDir srcDir n p data :
  wanted (dstDir ++ [n]) (srcDir ++ [n]) p data -> wanted dstDir srcDir p data.
Proof.
  intros (rel & -> & Hr). exists (n :: rel).
  rewrite <- !app_assoc in *. done.
Qed.

Lemma grows_sub dstDir srcDir n t t' :
  grows (dstDir ++ [n]) (srcDir ++ [n]) t t' -> grows dstDir srcDir t t'.
Proof.
  intros [Hd Hf]. split; [done|]. intros p data Hp.
  destruct (Hf _ _ Hp) as (d' & Hp' & [->|Hw]); eauto using wanted_sub.
Qed.

Lemma mkdirs_grows dstDir srcDir pre names t t' e :
  mkdirs pre names t = (t', e) -> grows dstDir srcDir t t'.
Proof.
  intros Hm. split.
  - intros p Hp. eapply mkdirs_keeps; eauto.
  - intros p data Hp. exists data. split; [|by left].
    eapply mkdirs_keeps; eauto.
Qed.

Lemma copyFile_inv d s t t' :
  copyFile os dstRoot d s t = (t', None) ->
  exists data, ReadFile os s = ReadAll data /\
               isDirIn t (removelast (dstRoot ++ d)) = true /\
               t !! (dstRoot ++ d) <> Some NDir /\
               t' = <[dstRoot ++ d := NFile data]> t.
Proof.
  unfold copyFile. destruct (ReadFile os s) as [data|err|partial err]; [|done|].
  - destruct (Create (dstRoot ++ d) t) as [t1|err] eqn:Hc; [|done].
    intros [= <-]. apply Create_inv in Hc as (_ & Hdir & Hnd & ->).
    exists data. rewrite insert_insert_eq. done.
  - by destruct (Create (dstRoot ++ d) t).
Qed.

Lemma copyFile_grows dstDir srcDir n t t' :
  copyFile os dstRoot (dstDir ++ [n]) (srcDir ++ [n]) t = (t', None) -> grows dstDir srcDir t t'.
Proof.
  intros H. apply copyFile_inv in H as (data & Hr & _ & Hnd & ->). split.
  - intros p Hp. rewrite lookup_insert_ne; [done|]. congruence.
  - intros p d0 Hp. destruct (decide (dstRoot ++ dstDir ++ [n] = p)) as [<-|Hne].
    + exists data. rewrite lookup_insert_eq. split; [done|]. right.
      by exists [n].
    + exists d0. rewrite lookup_insert_ne by done. auto.
Qed.

Section Entries.
Context (rec : fpath -> fpath -> tree -> option (tree * option error))
        (dstDir srcDir : fpath).
Hypothesis rec_grows :
  forall n t t', rec (dstDir ++ [n]) (srcDir ++ [n]) t = Some (t', None) ->
                 grows (dstDir ++ [n]) (srcDir ++ [n]) t t'.

Lemma EntryStep_grows entry t t' :
  EntryStep rec dstDir srcDir entry t t' None -> grows dstDir srcDir t t'.
Proof.
  intros H.
  apply EntryStep_None in H
      as [[_ ->]|(_ & info & _ & [(_ & _ & ->)|[(_ & _ & H)|(_ & H)]])];
    try apply grows_refl.
  - eapply grows_sub; eauto.
  - eapply copyFile_grows; eauto.
Qed.

Lemma copyEntries_grows entries t t' :
  copyEntries os rec dstRoot dstDir srcDir recursive entries t = Some (t', None) ->
  grows dstDir srcDir t t'.
Proof.
  revert t. induction entries as [|entry rest IH]; intros t.
  - intros [= <-]. apply grows_refl.
  - intros H. apply copyEntries_cons in H as (t1 & e1 & Hstep & Hr).
    destruct e1 as [err|]; [done|].
    eapply grows_trans; [eapply EntryStep_grows|]; eauto.
Qed.
End Entries.

Lemma copyTree_grows fuel dstDir srcDir t t' :
  copyTree os fuel dstRoot dstDir srcDir recursive t = Some (t', None) -> grows dstDir srcDir t t'.
Proof.
  revert dstDir srcDir t t'. induction fuel as [|fuel IH]; intros dstDir srcDir t t' H; [done|].
  apply copyTree_inv in H as (fuel' & t1 & e1 & [= <-] & Hm & H).
  destruct e1 as [err|]; [done|].
  destruct (ReadDir os srcDir) as [entries|err]; [|done].
  eapply grows_trans; [by eapply mkdirs_grows|].
  eapply copyEntries_grows; [|done]. intros n t2 t3 Hrec. eauto.
Qed.

(** *** A tree that already holds the copy *)

Lemma allDirs_grows dstDir srcDir pre names t t' :
  grows dstDir srcDir t t' -> allDirs pre names t -> allDirs pre names t'.
Proof.
  intros [Hd _]. revert pre. induction names as [|n ns IH]; intros pre; simpl; [done|].
  intros [Hn Hns]. split; eauto.
Qed.

(** A copy that is in place stays in place while the tree grows. *)
Lemma Staged_grows dstDir0 srcDir0 t t' :
  grows dstDir0 srcDir0 t t' ->
  forall fuel rel,
    Staged fuel (dstDir0 ++ rel) (srcDir0 ++ rel) t -> Staged fuel (dstDir0 ++ rel) (srcDir0 ++ rel) t'.
Proof.
  intros Hg. induction fuel as [|fuel IH]; intros rel; simpl; [done|].
  intros (Hdirs & entries & Hrd & Hall). split; [by eapply allDirs_grows|].
  exists entries. split; [done|].
  eapply Forall_impl; [exact Hall|]. intros entry [Hs|(Hs & info & Hst & H)]; [by left|].
  right. split; [done|]. exists info. split; [done|].
  destruct (fiIsDir info).
  - destruct H as [Hr|[Hr H]]; [by left|]. right. split; [done|].
    rewrite <- !app_assoc in *. by apply IH.
  - destruct H as (data & Hr & Hp). exists data. split; [done|].
    destruct Hg as [_ Hf]. destruct (Hf _ _ Hp) as (data' & Hp' & [->|Hw]); [done|].
    destruct Hw as (rel' & Heq & Hr').
    rewrite <- !app_assoc in *.
    apply app_inv_head in Heq. apply app_inv_head in Heq. subst rel'.
    rewrite Hr in Hr'. by injection Hr' as <-.
Qed.

(** Copying into a tree that holds the copy changes nothing. *)
Lemma Staged_copyTree fuel dstDir srcDir t :
  Staged fuel dstDir srcDir t ->
  copyTree os fuel dstRoot dstDir srcDir recursive t = Some (t, None).
Proof.
  revert dstDir srcDir. induction fuel as [|fuel IH]; intros dstDir srcDir; simpl; [done|].
  intros (Hdirs & entries & Hrd & Hall).
  unfold MkdirAll. rewrite (allDirs_mkdirs _ _ _ Hdirs), Hrd. clear Hrd.
  induction Hall as [|entry rest He Hrest IHrest]; [done|].
  apply copyEntries_cons. exists t, None. split; [|exact IHrest].
  destruct He as [Hs|(Hs & info & Hst & H)]; [by constructor|].
  destruct (fiIsDir info) eqn:Hd.
  - destruct H as [Hr|[Hr H]].
    + by eapply StepDirSkipped.
    + eapply (StepDir _ _ _ _ _ info t None); eauto.
  - destruct H as (data & Hr & Hp).
    eapply (StepFile _ _ _ _ _ info t None); eauto.
    unfold copyFile. rewrite Hr.
    rewrite Create_ok.
    + rewrite insert_insert_eq, insert_id; done.
    + by destruct dstRoot, dstDir.
    + rewrite app_assoc, removelast_last.
      by apply (allDirs_last [] (dstRoot ++ dstDir)).
    + congruence.
Qed.

(** A successful copy leaves a tree that holds the copy. *)
Lemma copyTree_Staged fuel dstDir srcDir t t' :
  copyTree os fuel dstRoot dstDir srcDir recursive t = Some (t', None) ->
  Staged fuel dstDir srcDir t'.
Proof.
  revert dstDir srcDir t t'. induction fuel as [|fuel IH]; intros dstDir srcDir t t' H; [done|].
  apply copyTree_inv in H as (fuel' & t1 & e1 & [= <-] & Hm & H).
  destruct e1 as [err|]; [done|].
  destruct (ReadDir os srcDir) as [entries|err] eqn:Hrd; [|done].
  assert (Hrec : forall n t2 t3,
             copyTree os fuel dstRoot (dstDir ++ [n]) (srcDir ++ [n]) recursive t2 = Some (t3, None) ->
             grows (dstDir ++ [n]) (srcDir ++ [n]) t2 t3)
    by (intros n t2 t3 Hc; exact (copyTree_grows fuel _ _ _ _ Hc)).
  simpl. split.
  - eapply allDirs_grows; [eapply copyEntries_grows; [|exact H]; exact Hrec|].
    by eapply mkdirs_allDirs.
  - exists entries. split; [done|].
    assert (Hdir : isDirIn t1 (dstRoot ++ dstDir) = true).
    { apply (allDirs_last [] (dstRoot ++ dstDir)); [|done]. by eapply mkdirs_allDirs. }
    clear Hm Hrd. revert t1 H Hdir.
    induction entries as [|entry rest IHrest]; intros t1 H Hdir; [constructor|].
    apply copyEntries_cons in H as (t2 & e2 & Hstep & H).
    destruct e2 as [err|]; [done|].
    assert (Hg : grows dstDir srcDir t2 t') by (eapply copyEntries_grows; [|exact H]; exact Hrec).
    assert (Hg1 : grows dstDir srcDir t1 t2) by (eapply EntryStep_grows; [|exact Hstep]; exact Hrec).
    constructor.
    + apply EntryStep_None in Hstep
          as [[Hs ->]|(Hs & info & Hst & [(Hd & Hr & ->)|[(Hd & Hr & Hc)|(Hd & Hc)]])].
      * by left.
      * right. split; [done|]. exists info. split; [done|].
        rewrite Hd. by left.
      * right. split; [done|]. exists info. split; [done|].
        rewrite Hd. right. split; [done|].
        apply (Staged_grows dstDir srcDir t2 t' Hg fuel [fiName entry]). eauto.
      * right. split; [done|]. exists info. split; [done|].
        rewrite Hd.
        apply copyFile_inv in Hc as (data & Hr & _ & _ & ->).
        exists data. split; [done|].
        destruct Hg as [_ Hf].
        destruct (Hf (dstRoot ++ dstDir ++ [fiName entry]) data) as (data' & Hp' & [->|Hw]);
          [by rewrite lookup_insert_eq|done|].
        destruct Hw as (rel' & Heq & Hr').
        apply app_inv_head in Heq. apply app_inv_head in Heq. subst rel'.
        rewrite Hr in Hr'. by injection Hr' as <-.
    + apply (IHrest t2 H).
      destruct Hg1 as [Hd _]. unfold isDirIn in *.
      destruct (dstRoot ++ dstDir); [done|].
      destruct (t1 !! (s :: l)) as [[|?]|] eqn:Hl; try done.
      by rewrite (Hd _ Hl).
Qed.

(** Running [copyTree] a second time on the tree the first run left
    changes nothing. *)
Lemma copyTree_twice fuel dstDir srcDir t t' :
  copyTree os fuel dstRoot dstDir srcDir recursive t = Some (t', None) ->
  copyTree os fuel dstRoot dstDir srcDir recursive t' = Some (t', None).
Proof. intros H. by eapply Staged_copyTree, copyTree_Staged. Qed.

(** *** Where the copy writes *)

Lemma copyFile_changes d s t t' e p :
  copyFile os dstRoot d s t = (t', e) -> t' !! p <> t !! p -> p = dstRoot ++ d.
Proof.
  unfold copyFile. intros H Hne.
  destruct (decide (p = dstRoot ++ d)) as [|Hp]; [done|]. exfalso. apply Hne.
  destruct (ReadFile os s) as [data|err|partial err]; [|by injection H as <- <-|];
    (destruct (Create (dstRoot ++ d) t) as [t1|err'] eqn:Hc; [|by injection H as <- <-]);
    apply Create_inv in Hc as (_ & _ & _ & ->); injection H as <- <-;
    by rewrite !lookup_insert_ne.
Qed.

Lemma below_sub dstDir n p : allowed n -> below (dstDir ++ [n]) p -> below dstDir p.
Proof.
  intros Hn (rel & -> & Hrel). exists (n :: rel). split.
  - by rewrite <- !app_assoc.
  - by constructor.
Qed.

Lemma above_sub dstDir n p : allowed n -> above (dstDir ++ [n]) p -> above dstDir p \/ below dstDir p.
Proof.
  intros Hn (rel & Hrel). destruct rel as [|x rel _] using rev_ind.
  - right. exists [n]. rewrite app_nil_r in Hrel. rewrite <- Hrel. split; [done|].
    by constructor.
  - left. exists rel. rewrite !app_assoc in Hrel.
    by apply app_inj_tail in Hrel as [Hrel _].
Qed.

Section EntriesChanges.
Context (rec : fpath -> fpath -> tree -> option (tree * option error))
        (dstDir srcDir : fpath).
Hypothesis rec_changes :
  forall n t r p, rec (dstDir ++ [n]) (srcDir ++ [n]) t = Some r -> r.1 !! p <> t !! p ->
                  above (dstDir ++ [n]) p \/ below (dstDir ++ [n]) p.

Lemma EntryStep_changes entry t t' e p :
  EntryStep rec dstDir srcDir entry t t' e -> t' !! p <> t !! p ->
  above dstDir p \/ below dstDir p.
Proof.
  intros H Hne.
  destruct H as [Hs|err Hs Hst|info Hs Hst Hd Hrec|info t' err Hs Hst Hd Hrec Hcall
                |info t' err Hs Hst Hd Hcf]; try done.
  - destruct (rec_changes _ _ _ p Hcall Hne) as [Ha|Hb].
    + by apply above_sub in Ha.
    + right. by eapply below_sub.
  - apply (copyFile_changes _ _ _ _ _ p) in Hcf; [|done]. right.
    exists [fiName entry]. split; [done|]. by constructor.
Qed.

Lemma copyEntries_changes entries t r p :
  copyEntries os rec dstRoot dstDir srcDir recursive entries t = Some r ->
  r.1 !! p <> t !! p -> above dstDir p \/ below dstDir p.
Proof.
  revert t. induction entries as [|entry rest IH]; intros t.
  - by intros [= <-].
  - intros H Hne. apply copyEntries_cons in H as (t1 & e1 & Hstep & Hr).
    destruct (decide (t1 !! p = t !! p)) as [Heq|Hne1].
    + destruct e1 as [err|]; [by subst r|].
      apply (IH t1 Hr). by rewrite Heq.
    + by eapply EntryStep_changes.
Qed.
End EntriesChanges.

(** Whatever [copyTree] creates or changes is the directory it was given
    or one above it, or lies below it along names that are not excluded;
    this holds for a copy that fails as well. *)
Lemma copyTree_changes fuel dstDir srcDir t r p :
  copyTree os fuel dstRoot dstDir srcDir recursive t = Some r ->
  r.1 !! p <> t !! p -> above dstDir p \/ below dstDir p.
Proof.
  revert dstDir srcDir t r p. induction fuel as [|fuel IH]; intros dstDir srcDir t r p H Hne; [done|].
  apply copyTree_inv in H as (fuel' & t1 & e1 & [= <-] & Hm & H).
  assert (Hmk : t1 !! p <> t !! p -> above dstDir p).
  { intros Hne1. destruct (mkdirs_changes _ _ _ _ _ _ Hm Hne1)
      as (_ & _ & k & rel & Hk & -> & _). by exists rel. }
  destruct e1 as [err|]; [subst r; left; by apply Hmk|].
  destruct (ReadDir os srcDir) as [entries|err]; [|subst r; left; by apply Hmk].
  destruct (decide (t1 !! p = t !! p)) as [Heq|Hne1]; [|left; by apply Hmk].
  eapply (copyEntries_changes _ dstDir srcDir); [|exact H|by rewrite Heq].
  intros n t2 r2 p2 Hrec Hne2. exact (IH _ _ _ _ _ Hrec Hne2).
Qed.
End Copy.


Example copyTree_good :
  copyTree (Mem.os CopySamples.good "/g" CopySamples.noenv) 5 ["out"] [] ["app"] true ∅
  = Some (CopySamples.stagedGood, None).
Proof. vm_cast_no_check (eq_refl (Some (CopySamples.stagedGood, @None error))). Qed.

(** *** The properties of [copyTree] *)

(** C7.  A second run of [copyTree] with the same source into the tree the
    first run left (an empty tree before the first run, or any other)
    reproduces that tree exactly, and no entry with an excluded name
    appears in it: whatever a run created or changed, also one that
    failed, is the directory it was given or one above it, or lies below
    it along names that are not in [skipFiles]. *)
Theorem copyTree_twice_same_tree os dstRoot recursive fuel dstDir srcDir t t' err :
  copyTree os fuel dstRoot dstDir srcDir recursive t = Some (t', err) ->
  (err = None ->
   copyTree os fuel dstRoot dstDir srcDir recursive t' = Some (t', None)) /\
  forall p, t' !! p <> t !! p ->
            above dstRoot dstDir p \/ below dstRoot dstDir p.
Proof.
  intros H. split.
  - intros ->. by eapply copyTree_twice.
  - intros p Hne. by apply (copyTree_changes _ _ _ _ _ _ _ _ p H).
Qed.

Lemma copyTree_twice_same_tree_good :
  copyTree (Mem.os CopySamples.good "/g" CopySamples.noenv) 5 ["out"] [] ["app"] true
           CopySamples.stagedGood
  = Some (CopySamples.stagedGood, None) /\
  forall p, CopySamples.stagedGood !! p <> (∅ : tree) !! p ->
            above ["out"] [] p \/ below ["out"] [] p.
Proof.
  assert (Hrun : copyTree (Mem.os CopySamples.good "/g" CopySamples.noenv) 5
                          ["out"] [] ["app"] true ∅
                 = Some (CopySamples.stagedGood, None))
    by (vm_cast_no_check (eq_refl (Some (CopySamples.stagedGood, @None error)))).
  destruct (copyTree_twice_same_tree _ _ _ _ _ _ _ _ _ Hrun) as [Hsame Hnew].
  split; [exact (Hsame eq_refl)|exact Hnew].
Defined.

Section Reach.
Context (os : OS) (dstRoot : fpath) (recursive : bool).

Local Abbreviation followed := (followed os recursive).

Lemma Staged_followed fuel dstDir srcDir t rel :
  Staged os dstRoot recursive fuel dstDir srcDir t -> followed srcDir rel ->
  exists fuel', Staged os dstRoot recursive fuel' (dstDir ++ rel) (srcDir ++ rel) t.
Proof.
  revert fuel dstDir srcDir. induction rel as [|n rel IH]; intros fuel dstDir srcDir.
  - intros H _. exists fuel. by rewrite !app_nil_r.
  - intros H ((entries & entry & info & Hrd & Hin & <- & Hs & Hst & Hd) & Hr & Hf).
    destruct fuel as [|fuel]; [done|]. destruct H as (_ & entries' & Hrd' & Hall).
    rewrite Hrd in Hrd'. injection Hrd' as <-.
    rewrite Forall_forall in Hall. specialize (Hall _ Hin).
    destruct Hall as [Hs'|(_ & info' & Hst' & H)]; [congruence|].
    rewrite Hst in Hst'. injection Hst' as <-. rewrite Hd in H.
    destruct H as [Hr'|[_ H]]; [congruence|].
    destruct (IH _ _ _ H Hf) as [fuel' H']. exists fuel'.
    by rewrite !(cons_middle (fiName entry)), !app_assoc.
Qed.
End Reach.

Lemma prefix_refl s : String.prefix s s = true.
Proof.
  induction s as [|c s IH]; simpl; [done|].
  destruct (Ascii.ascii_dec c c); [done|congruence].
Qed.

Lemma contains_refl s : contains s s = true.
Proof.
  destruct s as [|c s]; [reflexivity|].
  change (String.prefix (String c s) (String c s)
          || contains (String c s) s = true).
  by rewrite prefix_refl.
Qed.

Section Visits.
Context (os : OS) (dstRoot : fpath) (recursive : bool).

Lemma copyEntries_app rec dstDir srcDir pre rest t t1 :
  copyEntries os rec dstRoot dstDir srcDir recursive pre t = Some (t1, None) ->
  copyEntries os rec dstRoot dstDir srcDir recursive (pre ++ rest) t
  = copyEntries os rec dstRoot dstDir srcDir recursive rest t1.
Proof.
  revert t. induction pre as [|entry pre IH]; intros t.
  - by intros [= <-].
  - simpl.
    destruct (flag skipFiles (fiName entry)); [by auto|].
    destruct (if fiSymlink entry then _ else _) as [info|err]; [|done].
    destruct (fiIsDir info).
    + destruct (negb recursive); [by auto|].
      destruct (rec _ _ t) as [[t' [e|]]|]; [done|by auto|done].
    + destruct (copyFile _ _ _ _ t) as [t' [e|]]; [done|by auto].
Qed.

End Visits.

Section Settled.
Context (os : OS) (dstRoot : fpath) (recursive : bool).

Local Abbreviation fromSource := (fromSource os dstRoot).

Lemma fromSource_sub dstDir srcDir n p data :
  fromSource dstDir srcDir p data ->
  fromSource (dstDir ++ [n]) (srcDir ++ [n]) p data.
Proof.
  intros H rel ->. rewrite <- !app_assoc. apply H. by rewrite <- !app_assoc.
Qed.

(** A file that holds what its source holds keeps it when it is copied
    again, whatever the outcome. *)
Lemma copyFile_settled dstDir srcDir n t p data :
  t !! p = Some (NFile data) -> fromSource dstDir srcDir p data ->
  (copyFile os dstRoot (dstDir ++ [n]) (srcDir ++ [n]) t).1 !! p = Some (NFile data).
Proof.
  intros Hp Hsrc. unfold copyFile.
  destruct (decide (p = dstRoot ++ dstDir ++ [n])) as [Heq|Hne].
  - rewrite (Hsrc [n] Heq). rewrite <- Heq.
    destruct (Create p t) as [t1|e]; [|done]. simpl. by rewrite lookup_insert_eq.
  - assert (Hne' : dstRoot ++ dstDir ++ [n] <> p) by congruence.
    destruct (ReadFile os (srcDir ++ [n])) as [d|e|d e]; [|done|];
      (destruct (Create (dstRoot ++ dstDir ++ [n]) t) as [t1|e'] eqn:Hc; [|done]);
      apply Create_inv in Hc as (_ & _ & _ & ->); simpl;
      by rewrite !lookup_insert_ne.
Qed.

Lemma copyEntries_settled rec dstDir srcDir entries t r p data :
  (forall n t r, rec (dstDir ++ [n]) (srcDir ++ [n]) t = Some r ->
                 t !! p = Some (NFile data) -> r.1 !! p = Some (NFile data)) ->
  copyEntries os rec dstRoot dstDir srcDir recursive entries t = Some r ->
  t !! p = Some (NFile data) -> fromSource dstDir srcDir p data ->
  r.1 !! p = Some (NFile data).
Proof.
  intros Hrec H Hp Hsrc. revert t H Hp.
  induction entries as [|entry rest IH]; intros t H Hp.
  - by injection H as <-.
  - apply copyEntries_cons in H as (t2 & e2 & Hstep & H).
    assert (Hp2 : t2 !! p = Some (NFile data)).
    { destruct Hstep as [Hs|err Hs Hst|info Hs Hst Hd Hr|info t' err Hs Hst Hd Hr Hcall
                        |info t' err Hs Hst Hd Hcf]; try done.
      - exact (Hrec _ _ _ Hcall Hp).
      - pose proof (copyFile_settled dstDir srcDir (fiName entry) t p data Hp Hsrc) as Hk.
        by rewrite Hcf in Hk. }
    destruct e2 as [err|]; [by subst r|]. by apply (IH t2).
Qed.

Lemma copyTree_settled fuel dstDir srcDir t r p data :
  copyTree os fuel dstRoot dstDir srcDir recursive t = Some r ->
  t !! p = Some (NFile data) -> fromSource dstDir srcDir p data ->
  r.1 !! p = Some (NFile data).
Proof.
  revert dstDir srcDir t r.
  induction fuel as [|fuel IH]; intros dstDir srcDir t r H Hp Hsrc; [done|].
  apply copyTree_inv in H as (fuel' & t1 & e1 & [= <-] & Hm & H).
  assert (Hp1 : t1 !! p = Some (NFile data)) by (eapply mkdirs_keeps; eauto).
  destruct e1 as [err|]; [by subst r|].
  destruct (ReadDir os srcDir) as [entries|err]; [|by subst r].
  eapply copyEntries_settled; [|exact H|exact Hp1|exact Hsrc].
  intros n t2 r2 Hcall Hp2. eapply IH; [exact Hcall|exact Hp2|].
  by apply fromSource_sub.
Qed.

(** *** The copy returns *)

Lemma copyEntries_returns rec dstDir srcDir entries t :
  (forall entry info,
      entry ∈ entries -> flag skipFiles (fiName entry) = false ->
      statOf os srcDir entry = Ok info -> fiIsDir info = true -> recursive = true ->
      forall t, exists r, rec (dstDir ++ [fiName entry]) (srcDir ++ [fiName entry]) t = Some r) ->
  exists r, copyEntries os rec dstRoot dstDir srcDir recursive entries t = Some r.
Proof.
  revert t. induction entries as [|entry rest IH]; intros t Hrec; [by eexists|].
  assert (IH' : forall t, exists r,
             copyEntries os rec dstRoot dstDir srcDir recursive rest t = Some r).
  { intros t'. apply IH. intros e info He. apply Hrec. by apply list_elem_of_further. }
  simpl. destruct (flag skipFiles (fiName entry)) eqn:Hs; [apply IH'|].
  destruct (if fiSymlink entry then _ else _) as [info|err] eqn:Hst; [|by eexists].
  destruct (fiIsDir info) eqn:Hd.
  - destruct (negb recursive) eqn:Hr; [apply IH'|]. apply negb_false_iff in Hr.
    destruct (Hrec entry info (list_elem_of_here _ _) Hs Hst Hd Hr t) as [[t' [e|]] ->];
      [by eexists|apply IH'].
  - destruct (copyFile _ _ _ _ t) as [t' [e|]]; [by eexists|apply IH'].
Qed.

Lemma boundedb_sub fuel srcDir entries entry info :
  boundedb os recursive (S fuel) srcDir = true ->
  ReadDir os srcDir = Ok entries -> entry ∈ entries ->
  flag skipFiles (fiName entry) = false ->
  statOf os srcDir entry = Ok info -> fiIsDir info = true -> recursive = true ->
  boundedb os recursive fuel (srcDir ++ [fiName entry]) = true.
Proof.
  intros H Hrd Hin Hs Hst Hd Hr. cbn [boundedb] in H. rewrite Hrd in H.
  rewrite forallb_forall in H. apply list_elem_of_In in Hin.
  specialize (H _ Hin). rewrite Hs, Hst, Hd in H. by rewrite Hr in H |- *.
Qed.

Lemma copyTree_returns fuel dstDir srcDir t :
  boundedb os recursive fuel srcDir = true ->
  exists r, copyTree os fuel dstRoot dstDir srcDir recursive t = Some r.
Proof.
  revert dstDir srcDir t.
  induction fuel as [|fuel IH]; intros dstDir srcDir t Hb; [done|].
  cbn [copyTree]. destruct (MkdirAll (dstRoot ++ dstDir) t) as [t1 [e|]]; [by eexists|].
  destruct (ReadDir os srcDir) as [entries|e] eqn:Hrd; [|by eexists].
  apply copyEntries_returns. intros entry info Hin Hs Hst Hd Hr t2.
  apply IH. by eapply boundedb_sub.
Qed.

Lemma isDirIn_kept (t t' : tree) d :
  (forall p, t !! p = Some NDir -> t' !! p = Some NDir) ->
  isDirIn t d = true -> isDirIn t' d = true.
Proof.
  intros Hk. unfold isDirIn. destruct d as [|n d]; [done|].
  destruct (t !! (n :: d)) as [[|data]|] eqn:Hp; [|done..].
  by rewrite (Hk _ Hp).
Qed.

(** The tree that the run has made when it comes to an entry has the
    directory the entry is copied into. *)
Lemma copyEntries_dir fuel dstDir srcDir pre t t0 t1 :
  MkdirAll (dstRoot ++ dstDir) t = (t0, None) ->
  copyEntries os (fun d s t => copyTree os fuel dstRoot d s recursive t)
              dstRoot dstDir srcDir recursive pre t0 = Some (t1, None) ->
  isDirIn t1 (dstRoot ++ dstDir) = true.
Proof.
  intros Hm Hpre.
  assert (H0 : isDirIn t0 (dstRoot ++ dstDir) = true).
  { apply (allDirs_last [] (dstRoot ++ dstDir)); [|done].
    by eapply mkdirs_allDirs. }
  assert (Hg : grows os dstRoot dstDir srcDir t0 t1).
  { eapply (copyEntries_grows os dstRoot recursive _ dstDir srcDir); [|exact Hpre].
    intros n t2 t3 Hrec. exact (copyTree_grows os dstRoot recursive fuel _ _ _ _ Hrec). }
  destruct Hg as [Hk _]. by eapply isDirIn_kept.
Qed.

Lemma copyFile_link dstDir n s t data :
  ReadFile os s = ReadAll data ->
  isDirIn t (dstRoot ++ dstDir) = true ->
  t !! (dstRoot ++ dstDir ++ [n]) <> Some NDir ->
  exists t', copyFile os dstRoot (dstDir ++ [n]) s t = (t', None) /\
             t' !! (dstRoot ++ dstDir ++ [n]) = Some (NFile data).
Proof.
  intros Hr Hdir Hnd. unfold copyFile. rewrite Hr.
  rewrite Create_ok; [| |by rewrite app_assoc, removelast_app, app_nil_r|done].
  - eexists. split; [done|]. by rewrite lookup_insert_eq.
  - by destruct dstRoot, dstDir.
Qed.
End Settled.

(** C8.  A symbolic link to a regular file is staged as a regular file
    with the content of its target.  When the run of [copyTree] comes to
    an entry that is a symbolic link, in the directory it was given or in
    one it went down to, and [os.Stat], which follows the link, finds a
    regular file that can be read, then the entry is handled as a file, by
    what [Stat] returned and not by the link: provided the place in the
    staged tree is not a directory and the source is not deeper than the
    run can go, [copyTree] returns, and the tree it returns has a regular
    file with the content of the target at the place of the link, also
    when an entry after the link makes the copy fail.  (A staged tree
    holds directories and regular files only.) *)
Theorem copyTree_symlink_to_file os dstRoot recursive fuel dstDir srcDir t s entry t1
    info data :
  Visits os dstRoot recursive fuel dstDir srcDir t s entry t1 ->
  fiSymlink entry = true ->
  Stat os s = Ok info ->
  fiIsDir info = false ->
  ReadFile os s = ReadAll data ->
  (forall rel, s = srcDir ++ rel -> t1 !! (dstRoot ++ dstDir ++ rel) <> Some NDir) ->
  boundedb os recursive fuel srcDir = true ->
  exists rel r,
    s = srcDir ++ rel /\
    copyTree os fuel dstRoot dstDir srcDir recursive t = Some r /\
    r.1 !! (dstRoot ++ dstDir ++ rel) = Some (NFile data).
Proof.
  intros Hv Hl Hst Hd Hr Hnd Hb.
  induction Hv as [fuel dstDir srcDir t t0 pre entry post t1 Hm Hrd Hpre Hs
                  |fuel dstDir srcDir t t0 pre sub post t1 info' s entry t2 Hm Hrd Hpre Hs
                     Hsub Hd' Hrec Hv IH].
  - exists [fiName entry].
    assert (Hrest : forall t, exists r,
               copyEntries os (fun d s t => copyTree os fuel dstRoot d s recursive t)
                           dstRoot dstDir srcDir recursive post t = Some r).
    { intros t'. apply copyEntries_returns. intros e i He Hse Hste Hde Hre t''.
      apply copyTree_returns. eapply boundedb_sub; eauto.
      apply elem_of_app. right. by apply list_elem_of_further. }
    destruct (copyFile_link os dstRoot dstDir (fiName entry) _ t1 data Hr)
      as (t2 & Hcf & Hp2); [by eapply copyEntries_dir|by apply Hnd|].
    destruct (Hrest t2) as [r Hpost]. exists r. split; [done|]. split.
    + cbn [copyTree]. rewrite Hm, Hrd. erewrite copyEntries_app by exact Hpre.
      apply copyEntries_cons. exists t2, None. split; [|done].
      eapply (StepFile _ _ _ _ _ _ _ _ info t2 None); try done.
      unfold statOf. by rewrite Hl.
    + assert (Hsrc : fromSource os dstRoot dstDir srcDir
                       (dstRoot ++ dstDir ++ [fiName entry]) data).
      { intros rel Heq. do 2 apply app_inv_head in Heq. by subst rel. }
      eapply copyEntries_settled; [|exact Hpost|exact Hp2|exact Hsrc].
      intros n t3 r3 Hcall Hp3. eapply copyTree_settled; [exact Hcall|exact Hp3|].
      by apply fromSource_sub.
  - assert (Hin : sub ∈ pre ++ sub :: post).
    { apply elem_of_app. right. apply list_elem_of_here. }
    assert (Hnd' : forall rel, s = (srcDir ++ [fiName sub]) ++ rel ->
              t2 !! (dstRoot ++ (dstDir ++ [fiName sub]) ++ rel) <> Some NDir).
    { intros rel ->. rewrite <- !app_assoc. apply Hnd. by rewrite <- app_assoc. }
    assert (Hb' : boundedb os recursive fuel (srcDir ++ [fiName sub]) = true).
    { eapply boundedb_sub; eauto. }
    destruct (IH Hl Hst Hr Hnd' Hb') as (rel & r' & -> & Hc & Hp').
    exists (fiName sub :: rel).
    assert (Hrest : forall t, exists r,
               copyEntries os (fun d s t => copyTree os fuel dstRoot d s recursive t)
                           dstRoot dstDir srcDir recursive post t = Some r).
    { intros t'. apply copyEntries_returns. intros e i He Hse Hste Hde Hre t''.
      apply copyTree_returns. eapply boundedb_sub; eauto.
      apply elem_of_app. right. by apply list_elem_of_further. }
    rewrite <- !app_assoc in Hp'. simpl in Hp'.
    assert (Hsrc : fromSource os dstRoot dstDir srcDir
                     (dstRoot ++ dstDir ++ fiName sub :: rel) data).
    { intros rel' Heq. do 2 apply app_inv_head in Heq. subst rel'.
      by rewrite <- app_assoc in Hr. }
    destruct r' as [t' [err|]].
    + exists (t', Some (wrapCopy (srcDir ++ [fiName sub]) (dstDir ++ [fiName sub]) err)).
      split; [by rewrite <- app_assoc|]. split; [|exact Hp'].
      cbn [copyTree]. rewrite Hm, Hrd. erewrite copyEntries_app by exact Hpre.
      apply copyEntries_cons.
      exists t', (Some (wrapCopy (srcDir ++ [fiName sub]) (dstDir ++ [fiName sub]) err)).
      split; [|done].
      by eapply (StepDir _ _ _ _ _ _ _ _ info' t' (Some err)).
    + destruct (Hrest t') as [r Hpost]. exists r.
      split; [by rewrite <- app_assoc|]. split.
      * cbn [copyTree]. rewrite Hm, Hrd. erewrite copyEntries_app by exact Hpre.
        apply copyEntries_cons. exists t', None. split; [|done].
        by eapply (StepDir _ _ _ _ _ _ _ _ info' t' None).
      * eapply copyEntries_settled; [|exact Hpost|exact Hp'|exact Hsrc].
        intros n t3 r3 Hcall Hp3. eapply copyTree_settled; [exact Hcall|exact Hp3|].
        by apply fromSource_sub.
Qed.

Lemma copyTree_symlink_to_file_good :
  exists rel r,
    ["app"; "lib"; "ref.txt"] = ["app"] ++ rel /\
    copyTree (Mem.os CopySamples.good "/g" CopySamples.noenv) 5 ["out"] [] ["app"]
             true ∅ = Some r /\
    r.1 !! (["out"] ++ [] ++ rel) = Some (NFile CopySamples.hello).
Proof.
  apply (copyTree_symlink_to_file
           (Mem.os CopySamples.good "/g" CopySamples.noenv) ["out"] true 5 [] ["app"]
           ∅ ["app"; "lib"; "ref.txt"]
           (Mem.info "ref.txt" (Mem.ILink ["shared"; "real.txt"]))
           LinkSamples.inLib
           (Mem.info "ref.txt" (Mem.IFile CopySamples.hello))
           CopySamples.hello).
  - apply (VisitsBelow _ _ _ 4 [] ["app"] ∅ LinkSamples.outOnly
             [Mem.info ".git" Mem.IDir;
              Mem.info "data.txt" (Mem.ILink ["shared"; "real.txt"])]
             (Mem.info "lib" Mem.IDir)
             [Mem.info "main.go" (Mem.IFile CopySamples.code)]
             LinkSamples.atLib (Mem.info "lib" Mem.IDir)).
    + vm_cast_no_check (eq_refl (LinkSamples.outOnly, @None error)).
    + vm_compute. reflexivity.
    + vm_cast_no_check (eq_refl (Some (LinkSamples.atLib, @None error))).
    + reflexivity.
    + reflexivity.
    + reflexivity.
    + reflexivity.
    + apply (VisitsHere _ _ _ 3 ["lib"] ["app"; "lib"] LinkSamples.atLib LinkSamples.inLib
               [Mem.info ".travis.yml" (Mem.IFile CopySamples.hello)]
               (Mem.info "ref.txt" (Mem.ILink ["shared"; "real.txt"]))
               [Mem.info "util.go" (Mem.IFile CopySamples.code)]).
      * vm_cast_no_check (eq_refl (LinkSamples.inLib, @None error)).
      * vm_compute. reflexivity.
      * vm_cast_no_check (eq_refl (Some (LinkSamples.inLib, @None error))).
      * reflexivity.
  - reflexivity.
  - vm_compute. reflexivity.
  - reflexivity.
  - vm_compute. reflexivity.
  - intros rel [= <-]. vm_compute. discriminate.
  - vm_compute. reflexivity.
Defined.

(** C10.  When [copyTree] comes to an entry that is a symbolic link whose
    target does not exist, so that [os.Stat] of its path fails, the entry is
    not skipped: the whole copy stops there, with the tree as it was when
    the entry was reached and an error that names the path. *)
Theorem copyTree_dangling_symlink os dstRoot recursive fuel dstDir srcDir t s entry t1 e :
  Visits os dstRoot recursive fuel dstDir srcDir t s entry t1 ->
  fiSymlink entry = true ->
  Stat os s = Err e ->
  exists err,
    copyTree os fuel dstRoot dstDir srcDir recursive t = Some (t1, Some err) /\
    mentions (showPath s) err = true.
Proof.
  intros Hv Hl Hst.
  induction Hv as [fuel dstDir srcDir t t0 pre entry post t1 Hm Hrd Hpre Hs
                  |fuel dstDir srcDir t t0 pre sub post t1 info s entry t2 Hm Hrd Hpre Hs Hsub Hd Hr Hv IH].
  - eexists. simpl. rewrite Hm, Hrd. erewrite copyEntries_app by exact Hpre.
    simpl. rewrite Hs, Hl, Hst. split; [reflexivity|].
    simpl. by rewrite contains_refl.
  - destruct (IH Hl Hst) as (err & Hc & Hmen). eexists.
    simpl. rewrite Hm, Hrd. erewrite copyEntries_app by exact Hpre.
    simpl. rewrite Hs. unfold statOf in Hsub. rewrite Hsub, Hd. rewrite Hr in *.
    simpl. rewrite Hc. split; [reflexivity|].
    simpl. rewrite Hmen. by rewrite !orb_true_r.
Qed.

Lemma copyTree_dangling_symlink_sample :
  exists err,
    copyTree (Mem.os CopySamples.dangling "/g" CopySamples.noenv) 5 ["out"] [] ["app"]
             true ∅
    = Some (list_to_map [(["out"], NDir);
                         (["out"; "data.txt"], NFile CopySamples.hello);
                         (["out"; "lib"], NDir)],
            Some err) /\
    mentions (showPath ["app"; "lib"; "gone.txt"]) err = true.
Proof.
  apply (copyTree_dangling_symlink
           (Mem.os CopySamples.dangling "/g" CopySamples.noenv) ["out"] true 5 [] ["app"]
           ∅ ["app"; "lib"; "gone.txt"]
           (Mem.info "gone.txt" (Mem.ILink ["nowhere"])) _ ENOENT).
  - apply (VisitsBelow _ _ _ 4 [] ["app"] ∅ LinkSamples.outOnly
             [Mem.info ".git" Mem.IDir;
              Mem.info "data.txt" (Mem.ILink ["shared"; "real.txt"])]
             (Mem.info "lib" Mem.IDir)
             [Mem.info "main.go" (Mem.IFile CopySamples.code)]
             LinkSamples.atLib (Mem.info "lib" Mem.IDir)).
    + vm_cast_no_check (eq_refl (LinkSamples.outOnly, @None error)).
    + vm_compute. reflexivity.
    + vm_cast_no_check (eq_refl (Some (LinkSamples.atLib, @None error))).
    + reflexivity.
    + reflexivity.
    + reflexivity.
    + reflexivity.
    + apply (VisitsHere _ _ _ 3 ["lib"] ["app"; "lib"] LinkSamples.atLib
               (list_to_map [(["out"], NDir);
                             (["out"; "data.txt"], NFile CopySamples.hello);
                             (["out"; "lib"], NDir)])
               [Mem.info ".travis.yml" (Mem.IFile CopySamples.hello)]
               (Mem.info "gone.txt" (Mem.ILink ["nowhere"]))
               [Mem.info "ref.txt" (Mem.ILink ["shared"; "real.txt"]);
                Mem.info "util.go" (Mem.IFile CopySamples.code)]).
      * vm_cast_no_check (eq_refl (LinkSamples.inLib, @None error)).
      * vm_compute. reflexivity.
      * vm_cast_no_check (eq_refl (Some (LinkSamples.inLib, @None error))).
      * reflexivity.
  - reflexivity.
  - vm_compute. reflexivity.
Defined.


(** * The staging modes *)

Section GoMod.
Context (os : OS).

Local Abbreviation noGoMod := (noGoMod os).

Lemma removelast_take (l : fpath) : removelast l = take (length l - 1) l.
Proof.
  induction l as [|x l IH]; [done|]. destruct l as [|y l]; [done|].
  change (removelast (x :: y :: l)) with (x :: removelast (y :: l)).
  rewrite IH. simpl. by rewrite Nat.sub_0_r.
Qed.

Lemma removelast_fixed (l : fpath) : removelast l = l <-> l = [].
Proof.
  split; [|by intros ->]. intros H. apply (f_equal length) in H.
  rewrite removelast_take, length_take in H. destruct l; [done|]. simpl in H. lia.
Qed.

(** The search finds the nearest directory with a [go.mod], from [src]
    up to the root, or returns the empty string when there is none. *)
Lemma goModLoop_spec fuel src :
  length src < fuel ->
  exists r, goModLoop os fuel src = Some r /\
    match r with
    | (gm, None) =>
        (gm = "" /\ forall k, k <= length src -> noGoMod (take k src)) \/
        (exists k info, k <= length src /\
           gm = render (take k src ++ ["go.mod"]) /\
           Stat os (take k src ++ ["go.mod"]) = Ok info /\
           forall k', k < k' <= length src -> noGoMod (take k' src))
    | (_, Some _) => True
    end.
Proof.
  revert src. induction fuel as [|fuel IH]; intros src Hlen; [lia|].
  simpl. destruct (Stat os (src ++ ["go.mod"])) as [info|e] eqn:Hst.
  - eexists. split; [done|]. right. exists (length src), info.
    rewrite firstn_all. repeat split; [lia|done|lia].
  - destruct (IsNotExist e) eqn:Hne; simpl; [|by eexists].
    assert (Hhere : noGoMod src) by (by exists e).
    destruct (decide (src = removelast src)) as [Heq|Hneq].
    + eexists. split; [done|]. left. split; [done|].
      symmetry in Heq. apply removelast_fixed in Heq as ->.
      intros k _. by rewrite take_nil.
    + assert (Hpos : 0 < length src).
      { destruct src; [done|simpl; lia]. }
      assert (Hlen' : length (removelast src) = length src - 1).
      { rewrite removelast_take, length_take. lia. }
      assert (Htk : forall k, k <= length src - 1 ->
                              take k (removelast src) = take k src).
      { intros k Hk. rewrite removelast_take, take_take. f_equal. lia. }
      destruct (IH (removelast src)) as ([gm [err|]] & -> & Hspec); [lia|by eexists|].
      eexists. split; [done|]. rewrite Hlen' in Hspec.
      destruct Hspec as [[-> Hall]|(k & info & Hk & -> & Hst' & Hall)].
      * left. split; [done|]. intros k Hk.
        destruct (decide (k = length src)) as [->|Hk'].
        { by rewrite firstn_all. }
        rewrite <- Htk by lia. apply Hall. lia.
      * right. exists k, info. rewrite !Htk in * by lia.
        split; [lia|]. split; [done|]. split; [done|].
        intros k' Hk'. destruct (decide (k' = length src)) as [->|Hk''].
        { by rewrite firstn_all. }
        rewrite <- Htk by lia. apply Hall. lia.
Qed.

Lemma render_nonempty p : render p <> "".
Proof. done. Qed.
End GoMod.

(** * Strings and paths *)

Lemma prefix_app a b : String.prefix a (a +:+ b) = true.
Proof.
  induction a as [|c a IH]; simpl; [by destruct b|].
  by destruct (ascii_dec c c).
Qed.

Lemma substring_all s : String.substring 0 (String.length s) s = s.
Proof. induction s as [|c s IH]; simpl; [done|]. by rewrite IH. Qed.

Lemma TrimPrefix_app a b : TrimPrefix (a +:+ b) a = b.
Proof.
  unfold TrimPrefix. rewrite prefix_app.
  induction a as [|c a IH]; simpl.
  - rewrite Nat.sub_0_r. apply substring_all.
  - exact IH.
Qed.

Lemma splitOn_noSep sep s : noSep sep s = true -> splitOn sep s = [s].
Proof.
  induction s as [|c s IH]; simpl; [done|].
  intros [Hc Hs]%andb_true_iff. apply negb_true_iff in Hc. rewrite Hc.
  by rewrite IH.
Qed.

Lemma splitOn_app sep x r :
  noSep sep x = true ->
  splitOn sep (x +:+ String sep r) = x :: splitOn sep r.
Proof.
  induction x as [|c x IH]; simpl.
  - intros _. by rewrite Ascii.eqb_refl.
  - intros [Hc Hs]%andb_true_iff. apply negb_true_iff in Hc. rewrite Hc.
    by rewrite IH.
Qed.

Lemma splitOn_all_noSep sep s : Forall (fun x => noSep sep x = true) (splitOn sep s).
Proof.
  induction s as [|c s IH]; simpl; [by repeat constructor|].
  destruct (Ascii.eqb c sep) eqn:Hc; [by constructor|].
  destruct (splitOn sep s) as [|x xs].
  - constructor; [simpl; by rewrite Hc|constructor].
  - inversion IH; subst. constructor; [|done]. simpl. by rewrite Hc.
Qed.

Lemma splitSlash_concat l :
  Forall (fun x => noSep "/"%char x = true) l -> l <> [] ->
  splitSlash (String.concat "/" l) = l.
Proof.
  induction l as [|x l IH]; [done|]. intros Hl _.
  inversion Hl as [|? ? Hx Hl']; subst.
  destruct l as [|y l]; [by apply splitOn_noSep|].
  change (String.concat "/" (x :: y :: l))
    with (x +:+ String "/"%char (String.concat "/" (y :: l))).
  unfold splitSlash in *. rewrite splitOn_app by done. by rewrite IH.
Qed.

Lemma cleanElems_proper out l :
  Forall proper l -> cleanElems true out l = rev out ++ l.
Proof.
  revert out. induction l as [|e l IH]; intros out Hl; simpl.
  - by rewrite app_nil_r.
  - inversion Hl as [|? ? (H1 & H2 & H3 & _) Hl']; subst.
    apply String.eqb_neq in H1, H2, H3. rewrite H1, H2, H3. simpl.
    rewrite IH by done. simpl. by rewrite <- app_assoc.
Qed.

Lemma cleanElems_all_proper out l :
  Forall proper out -> Forall (fun x => noSep "/"%char x = true) l ->
  Forall proper (cleanElems true out l).
Proof.
  revert out. induction l as [|e l IH]; intros out Hout Hl; simpl.
  - by apply Forall_rev.
  - inversion Hl as [|? ? He Hl']; subst.
    destruct (String.eqb e "") eqn:H1; simpl; [by apply IH|].
    destruct (String.eqb e ".") eqn:H2; simpl; [by apply IH|].
    destruct (String.eqb e "..") eqn:H3.
    + destruct out as [|top out']; [by apply IH|].
      inversion Hout as [|? ? (_ & _ & Htop & _) Hout']; subst.
      apply String.eqb_neq in Htop. rewrite Htop. by apply IH.
    + apply IH; [|done]. constructor; [|done].
      apply String.eqb_neq in H1, H2, H3. done.
Qed.

(** The names of a cleaned path are proper names. *)
Lemma comps_proper s : Forall proper (comps s).
Proof. apply cleanElems_all_proper; [constructor|apply splitOn_all_noSep]. Qed.

(** Splitting the text of a cleaned absolute path gives its names back. *)
Lemma comps_render l : Forall proper l -> comps (render l) = l.
Proof.
  intros Hl. unfold comps, render.
  change (splitSlash ("/" +:+ String.concat "/" l))
    with ("" :: splitSlash (String.concat "/" l)).
  change (cleanElems true [] ("" :: splitSlash (String.concat "/" l)))
    with (cleanElems true [] (splitSlash (String.concat "/" l))).
  destruct l as [|x l]; [done|].
  rewrite splitSlash_concat; [|by eapply Forall_impl; [exact Hl|intros ? (_ & _ & _ & ?)]|done].
  by rewrite cleanElems_proper.
Qed.

Lemma relElems_app a rel : relElems a (a ++ rel) = rel.
Proof.
  induction a as [|x a IH]; simpl; [by destruct rel|].
  by rewrite String.eqb_refl.
Qed.

Lemma concat_take_prefix k l :
  String.prefix (String.concat "/" (take k l)) (String.concat "/" l) = true.
Proof.
  revert k. induction l as [|x l IH]; intros k.
  - by rewrite take_nil.
  - destruct k as [|k]; [by destruct (String.concat "/" (x :: l))|].
    destruct l as [|y l].
    + cbn [take]. rewrite take_nil. apply prefix_refl.
    + destruct k as [|k].
      * simpl. apply prefix_app.
      * change (take (S (S k)) (x :: y :: l)) with (x :: take (S k) (y :: l)).
        specialize (IH (S k)).
        change (take (S k) (y :: l)) with (y :: take k l) in *.
        change (String.concat "/" (x :: y :: take k l))
          with (x +:+ String "/"%char (String.concat "/" (y :: take k l))).
        change (String.concat "/" (x :: y :: l))
          with (x +:+ String "/"%char (String.concat "/" (y :: l))).
        clear -IH. induction x as [|c x IHx]; simpl.
        { by destruct (ascii_dec "/"%char "/"%char). }
        by destruct (ascii_dec c c).
Qed.

Lemma render_take_prefix k l :
  String.prefix (render (take k l)) (render l) = true.
Proof.
  unfold render. simpl. destruct (ascii_dec "/"%char "/"%char); [|done].
  apply concat_take_prefix.
Qed.

(** * The search for [go.mod] *)

Lemma goModLoop_nearest os fuel src :
  length src < fuel ->
  exists gm err, goModLoop os fuel src = Some (gm, err) /\
    ((gm = "" /\ err = None /\
      forall k, k <= length src -> noGoMod os (take k src)) \/
     exists k, stopsAt os src k /\
       match Stat os (take k src ++ ["go.mod"]) with
       | Ok _ => gm = render (take k src ++ ["go.mod"]) /\ err = None
       | Err e => IsNotExist e = false /\ gm = "" /\
                  err = Some (Errorf "unexpected error: %v" [AErr e])
       end).
Proof.
  revert src. induction fuel as [|fuel IH]; intros src Hlen; [lia|].
  simpl. destruct (Stat os (src ++ ["go.mod"])) as [info|e] eqn:Hst.
  - eexists _, _. split; [done|]. right. exists (length src).
    split; [split; [lia|intros; lia]|]. by rewrite firstn_all, Hst.
  - destruct (IsNotExist e) eqn:Hne; simpl.
    2:{ eexists _, _. split; [done|]. right. exists (length src).
        split; [split; [lia|intros; lia]|]. by rewrite firstn_all, Hst. }
    assert (Hhere : noGoMod os src) by (by exists e).
    destruct (decide (src = removelast src)) as [Heq|Hneq].
    + eexists _, _. split; [done|]. left. split; [done|]. split; [done|].
      symmetry in Heq. apply removelast_fixed in Heq as ->.
      intros k _. by rewrite take_nil.
    + assert (Hpos : 0 < length src).
      { destruct src; [done|simpl; lia]. }
      assert (Hlen' : length (removelast src) = length src - 1).
      { rewrite removelast_take, length_take. lia. }
      assert (Htk : forall k, k <= length src - 1 ->
                              take k (removelast src) = take k src).
      { intros k Hk. rewrite removelast_take, take_take. f_equal. lia. }
      destruct (IH (removelast src)) as (gm & err & -> & Hspec); [lia|].
      exists gm, err. split; [done|].
      destruct Hspec as [(-> & -> & Hall)|(k & [Hk Hall] & Hst')].
      * left. split; [done|]. split; [done|]. intros k Hk.
        destruct (decide (k = length src)) as [->|Hk'].
        { by rewrite firstn_all. }
        rewrite <- Htk by lia. apply Hall. lia.
      * right. exists k. rewrite Hlen' in Hk, Hall. rewrite Htk in Hst' by lia.
        split; [|done]. split; [lia|].
        intros k' Hk'. destruct (decide (k' = length src)) as [->|Hk''].
        { by rewrite firstn_all. }
        rewrite <- Htk by lia. apply Hall. lia.
Qed.

Lemma goModPath_nearest_aux os src abs :
  Abs os src = Ok abs ->
  exists gm err, goModPath os src = Some (gm, err) /\
    ((gm = "" /\ err = None /\
      forall k, k <= length (comps abs) -> noGoMod os (take k (comps abs))) \/
     exists k, stopsAt os (comps abs) k /\
       match Stat os (take k (comps abs) ++ ["go.mod"]) with
       | Ok _ => gm = render (take k (comps abs) ++ ["go.mod"]) /\ err = None
       | Err e => IsNotExist e = false /\ gm = "" /\
                  err = Some (Errorf "unexpected error: %v" [AErr e])
       end).
Proof.
  intros Ha. unfold goModPath. rewrite Ha. apply goModLoop_nearest. lia.
Qed.


Lemma prefix_same_app a s1 s2 :
  String.prefix (a +:+ s1) (a +:+ s2) = String.prefix s1 s2.
Proof.
  induction a as [|c a IH]; [done|].
  change (String c a +:+ ?s) with (String c (a +:+ s)). simpl.
  by destruct (ascii_dec c c).
Qed.

Lemma prefix_name x y r s :
  noSep "/"%char x = true ->
  String.prefix (x +:+ r) (y +:+ String "/"%char s) = true ->
  String.prefix x y = true.
Proof.
  revert y. induction x as [|c x IH]; intros y Hx H; [by destruct y|].
  simpl in Hx. apply andb_true_iff in Hx as [Hc Hx]. apply negb_true_iff in Hc.
  change (String c x +:+ r) with (String c (x +:+ r)) in H.
  destruct y as [|c' y].
  - change ("" +:+ String "/"%char s) with (String "/"%char s) in H. simpl in H.
    destruct (ascii_dec c "/"%char) as [->|]; [|done].
    by rewrite Ascii.eqb_refl in Hc.
  - change (String c' y +:+ ?s) with (String c' (y +:+ s)) in H. simpl in *.
    destruct (ascii_dec c c'); [|done]. by eapply IH.
Qed.

Lemma prefix_cons_same c a b :
  String.prefix (String c a) (String c b) = String.prefix a b.
Proof. simpl. by destruct (ascii_dec c c). Qed.

Lemma append_nil_r s : s +:+ "" = s.
Proof.
  induction s as [|c s IH]; [done|].
  change (String c s +:+ "") with (String c (s +:+ "")). by rewrite IH.
Qed.

Lemma concat_cons x l :
  l <> [] -> String.concat "/" (x :: l) = x +:+ String "/"%char (String.concat "/" l).
Proof. by destruct l. Qed.

Lemma concat_apart pre x g' y d' :
  noSep "/"%char x = true -> d' <> [] -> String.prefix x y = false ->
  String.prefix (String.concat "/" (pre ++ x :: g'))
                (String.concat "/" (pre ++ y :: d')) = false.
Proof.
  intros Hx Hd Hxy. induction pre as [|a pre IH].
  - simpl app. rewrite (concat_cons y d') by done.
    destruct (String.prefix (String.concat "/" (x :: g')) _) eqn:H; [|done].
    destruct g' as [|z g'].
    + change (String.concat "/" [x]) with x in H. rewrite <- (append_nil_r x) in H.
      by rewrite (prefix_name _ _ _ _ Hx H) in Hxy.
    + rewrite concat_cons in H by done. by rewrite (prefix_name _ _ _ _ Hx H) in Hxy.
  - simpl app. rewrite !concat_cons by (by destruct pre).
    by rewrite prefix_same_app, prefix_cons_same.
Qed.

Lemma render_inside g rel :
  String.prefix (render g) (render (g ++ rel)) = true.
Proof.
  pose proof (render_take_prefix (length g) (g ++ rel)) as H.
  by rewrite take_app_length in H.
Qed.

Lemma render_apart g d x y j :
  Forall proper g ->
  take j g = take j d -> g !! j = Some x -> d !! j = Some y ->
  String.prefix x y = false ->
  String.prefix (render g) (render (d ++ ["go.mod"])) = false.
Proof.
  intros Hg Htk Hx Hy Hxy.
  assert (Hpx : noSep "/"%char x = true).
  { rewrite Forall_forall in Hg. apply list_elem_of_lookup_2 in Hx.
    by destruct (Hg _ Hx) as (_ & _ & _ & ?). }
  apply take_drop_middle in Hx, Hy.
  rewrite <- Hx, <- Hy, <- Htk, <- app_assoc. unfold render.
  change ("/" +:+ ?s) with (String "/"%char s). rewrite prefix_cons_same. simpl app.
  apply concat_apart; [done| |done]. by destruct (drop (S j) d).
Qed.

Lemma splitOn_nonempty sep s : splitOn sep s <> [].
Proof.
  destruct s as [|c s]; simpl; [done|].
  destruct (Ascii.eqb c sep); [done|]. by destruct (splitOn sep s).
Qed.

Lemma splitOn_single sep s x : splitOn sep s = [x] -> s = x.
Proof.
  revert x. induction s as [|c s IH]; intros x; simpl; [by intros [= <-]|].
  destruct (Ascii.eqb c sep).
  - intros [= _ H]. by apply splitOn_nonempty in H.
  - pose proof (splitOn_nonempty sep s) as Hne.
    destruct (splitOn sep s) as [|y ys]; [done|].
    intros [= <- ->]. by rewrite (IH y).
Qed.

Lemma SplitList_single p x : filepath.SplitList p = [x] -> p = x.
Proof.
  unfold filepath.SplitList. destruct (String.eqb p ""); [done|].
  apply splitOn_single.
Qed.

Lemma secondGen_workspace os fuel src dst buildCtx w gm :
  goModPath os src = Some (gm, None) -> delegates os gm = true ->
  usesWorkspace os fuel src dst buildCtx w.
Proof.
  intros Hgm Hd. unfold usesWorkspace, stageStandardSecondGen. rewrite Hgm.
  fold (delegates os gm). by rewrite Hd.
Qed.

Lemma secondGen_module os fuel src dst buildCtx w gm :
  goModPath os src = Some (gm, None) -> delegates os gm = false ->
  usesModule os fuel src dst buildCtx w gm.
Proof.
  intros Hgm Hd. unfold usesModule, stageStandardSecondGen. rewrite Hgm.
  fold (delegates os gm). rewrite Hd. cbv zeta. split; [done|].
  destruct (writeGoModMainPkgFile os (comps dst ++ ["_main-package-path"]) gm src
              (staged w)) as [t [e|]] eqn:Hw; simpl; rewrite Hw.
  - split; [by intros o [= <-]|]. by exists t, (Some e).
  - split.
    + intros o. destruct (copyTree os fuel (comps dst) [] (removelast (comps gm)) true t)
        as [[t' [e|]]|]; by intros [= <-].
    + exists t, None. split; [done|].
      by destruct (copyTree os fuel (comps dst) [] (removelast (comps gm)) true t)
        as [[t' [e|]]|].
Qed.


Lemma stageLegacyStandard_skipped os fuel src dst buildCtx w o :
  stageLegacyStandard os fuel src dst buildCtx w = Some o ->
  skipped (worldOf o) = skipped w.
Proof.
  unfold stageLegacyStandard. intros H.
  repeat match type of H with
         | match ?x with _ => _ end = _ => destruct x
         end; by simplify_eq/=.
Qed.

Lemma stageFlex_skipped os fuel src dst buildCtx w o :
  stageFlex os fuel src dst buildCtx w = Some o ->
  skipped (worldOf o) = <["appengine" := false]> (skipped w).
Proof.
  unfold stageFlex. intros H.
  repeat match type of H with
         | match ?x with _ => _ end = _ => destruct x
         end; by simplify_eq/=.
Qed.

Lemma stageStandardSecondGen_skipped os fuel src dst buildCtx w o :
  stageStandardSecondGen os fuel src dst buildCtx w = Some o ->
  skipped (worldOf o) = <["appengine" := false]> (skipped w).
Proof.
  unfold stageStandardSecondGen. intros H.
  destruct (goModPath os src) as [[gm [err|]]|]; [by simplify_eq/=| |done].
  destruct (_ || _).
  - apply stageFlex_skipped in H. simpl in H. by rewrite insert_insert_eq in H.
  - repeat match type of H with
           | match ?x with _ => _ end = _ => destruct x
           end; by simplify_eq/=.
Qed.

Lemma unskipAppengine_twice w :
  unskipAppengine (unskipAppengine w) = unskipAppengine w.
Proof. unfold unskipAppengine. simpl. by rewrite insert_insert_eq. Qed.

(** [stageFlex] starts by changing the table, and all it does after that
    is decided by the world so changed. *)
Lemma stageFlex_unskip os fuel src dst ctx w :
  stageFlex os fuel src dst ctx w
  = stageFlex os fuel src dst ctx (unskipAppengine w).
Proof. unfold stageFlex. simpl. by rewrite insert_insert_eq. Qed.

Lemma stageLegacyStandard_closure os fuel src dst ctx ctx' w :
  sameClosure os fuel src (skipped w) false ctx ctx' ->
  stageLegacyStandard os fuel src dst ctx' w = stageLegacyStandard os fuel src dst ctx w.
Proof. intros [Hg Ha]. unfold stageLegacyStandard. by rewrite Ha, Hg. Qed.

Lemma stageFlex_closure os fuel src dst ctx ctx' w w' :
  unskipAppengine w' = unskipAppengine w ->
  sameClosure os fuel src (skipped (unskipAppengine w)) true ctx ctx' ->
  stageFlex os fuel src dst ctx' w' = stageFlex os fuel src dst ctx w.
Proof.
  intros Hw [Hg Ha].
  rewrite (stageFlex_unskip _ _ _ _ ctx' w'), (stageFlex_unskip _ _ _ _ ctx w), Hw.
  unfold stageFlex. cbn [skipped staged stdout unskipAppengine] in *.
  rewrite insert_insert_eq in *. by rewrite Ha, Hg.
Qed.

Lemma stageStandardSecondGen_closure os fuel src dst ctx ctx' w w' :
  unskipAppengine w' = unskipAppengine w ->
  sameClosure os fuel src (skipped (unskipAppengine w)) true ctx ctx' ->
  stageStandardSecondGen os fuel src dst ctx' w'
  = stageStandardSecondGen os fuel src dst ctx w.
Proof.
  intros Hw Hc. unfold stageStandardSecondGen.
  change {| skipped := <["appengine" := false]> (skipped w'); staged := staged w';
            stdout := stdout w' |} with (unskipAppengine w').
  change {| skipped := <["appengine" := false]> (skipped w); staged := staged w;
            stdout := stdout w |} with (unskipAppengine w).
  rewrite Hw. destruct (goModPath os src) as [[gm [err|]]|]; [done| |done].
  destruct (_ || _); [|done].
  apply stageFlex_closure; [done|]. cbn [skipped unskipAppengine] in *.
  by rewrite insert_insert_eq.
Qed.


(** C6, as amended.  The skip list is the package-level table
    [skippedPackages].  A staging run changes it at most once, with its
    first statement, before the closure is resolved: [stageFlex] and
    [stageStandardSecondGen] set its entry for [appengine] to [false] and
    change nothing else in it, [stageLegacyStandard] changes nothing.  The
    closure is resolved with the table so changed: the table the run
    started with and the provider bear on the run only through [analyze]
    applied to the changed table, and that table is the one the run ends
    with. *)
Theorem skippedPackages_after_staging os fuel src dst buildCtx w :
  (forall o, stageLegacyStandard os fuel src dst buildCtx w = Some o ->
             skipped (worldOf o) = skipped w) /\
  (forall o, stageFlex os fuel src dst buildCtx w = Some o ->
             skipped (worldOf o) = <["appengine" := false]> (skipped w)) /\
  (forall o, stageStandardSecondGen os fuel src dst buildCtx w = Some o ->
             skipped (worldOf o) = <["appengine" := false]> (skipped w)) /\
  (forall ctx',
      sameClosure os fuel src (skipped w) false buildCtx ctx' ->
      stageLegacyStandard os fuel src dst ctx' w
      = stageLegacyStandard os fuel src dst buildCtx w) /\
  (forall ctx' w',
      unskipAppengine w' = unskipAppengine w ->
      sameClosure os fuel src (<["appengine" := false]> (skipped w)) true buildCtx ctx' ->
      stageFlex os fuel src dst ctx' w' = stageFlex os fuel src dst buildCtx w /\
      stageStandardSecondGen os fuel src dst ctx' w'
      = stageStandardSecondGen os fuel src dst buildCtx w).
Proof.
  split; [|split; [|split; [|split]]].
  - intros o. apply stageLegacyStandard_skipped.
  - intros o. apply stageFlex_skipped.
  - intros o. apply stageStandardSecondGen_skipped.
  - intros ctx'. apply stageLegacyStandard_closure.
  - intros ctx' w' Hw Hc. split.
    + by apply stageFlex_closure.
    + by apply stageStandardSecondGen_closure.
Qed.

Lemma stageFlex_stdout os fuel src dst buildCtx w o :
  stageFlex os fuel src dst buildCtx w = Some o ->
  stdout (worldOf o) = stdout w.
Proof.
  unfold stageFlex. intros H.
  repeat match type of H with
         | match ?x with _ => _ end = _ => destruct x
         end; by simplify_eq/=.
Qed.

(** C9, as amended.  [stageStandardSecondGen] first looks for [go.mod] in
    the application directory and its ancestors; the search ends, and an
    error other than a missing file ends the process.  Otherwise, with the
    workspace path naming one directory: when there is no [go.mod] in the
    application directory or any ancestor, the whole run is handed to
    [stageFlex]; when the nearest [go.mod] is in a directory inside the
    workspace root (so that the application is inside it too), the run is
    handed to [stageFlex] unless the variable [GO111MODULE] is [on], and
    goes by the module when it is [on]; when the nearest [go.mod] is in a
    directory whose path leaves the path of the workspace root (so that
    the application is outside it), the run goes by the module.  Going by
    the module, the provider is not consulted, the side file is written
    and the whole directory of [go.mod] is copied. *)
Theorem stageStandardSecondGen_strategy os fuel src dst buildCtx w g c :
  filepath.SplitList (DefaultGOPATH os) = [render g] -> Forall proper g ->
  Abs os src = Ok (render c) -> Forall proper c ->
  exists gmPath err,
    goModPath os src = Some (gmPath, err) /\
    match err with
    | Some e =>
        stageStandardSecondGen os fuel src dst buildCtx w
        = Some (Fatal (unskipAppengine w)
                      (Errorf ("failed finding go.mod: %v" +:+ nl) [AErr e]))
    | None =>
        (gmPath = "" <-> forall k, k <= length c -> noGoMod os (take k c)) /\
        (gmPath = "" -> usesWorkspace os fuel src dst buildCtx w) /\
        forall k info,
          stopsAt os c k -> Stat os (take k c ++ ["go.mod"]) = Ok info ->
          gmPath = render (take k c ++ ["go.mod"]) /\
          (inside g (take k c) ->
           if String.eqb (ToLower (Getenv os "GO111MODULE")) "on"
           then usesModule os fuel src dst buildCtx w gmPath
           else usesWorkspace os fuel src dst buildCtx w) /\
          (apart g (take k c) -> usesModule os fuel src dst buildCtx w gmPath)
    end.
Proof.
  intros Hgo Hg Ha Hc. apply SplitList_single in Hgo.
  destruct (goModPath_nearest_aux os src (render c) Ha) as (gm & err & Hgm & Hcase).
  rewrite comps_render in Hcase by done.
  exists gm, err. split; [done|].
  destruct Hcase as [(-> & -> & Hall)|(k0 & Hk0 & Hst0)].
  - split; [done|]. split.
    + intros _. by eapply secondGen_workspace.
    + intros k info [Hk _] Hst. destruct (Hall k Hk) as (e & He & _). congruence.
  - destruct (Stat os (take k0 c ++ ["go.mod"])) as [info0|e0] eqn:Hstat.
    2:{ destruct Hst0 as (_ & -> & ->). unfold stageStandardSecondGen. by rewrite Hgm. }
    destruct Hst0 as [-> ->]. split.
    { split; [done|]. intros Hall. destruct Hk0 as [Hk0 _].
      destruct (Hall k0 Hk0) as (e & He & _). congruence. }
    split; [done|].
    intros k info Hk Hst.
    assert (k = k0) as ->.
    { destruct (Nat.lt_trichotomy k k0) as [Hlt|[->|Hlt]]; [|done|].
      - destruct Hk as [_ Hk]. destruct Hk0 as [Hle _].
        destruct (Hk k0 ltac:(lia)) as (e & He & _). congruence.
      - destruct Hk0 as [_ Hk0]. destruct Hk as [Hle _].
        destruct (Hk0 k ltac:(lia)) as (e & He & _). congruence. }
    split; [done|].
    assert (Hdel : forall b,
              String.prefix (render g) (render (take k0 c ++ ["go.mod"])) = b ->
              delegates os (render (take k0 c ++ ["go.mod"]))
              = negb (String.eqb (ToLower (Getenv os "GO111MODULE")) "on") && b).
    { intros b Hb. unfold delegates. by rewrite Hgo, Hb. }
    split.
    + intros [rel Hin]. rewrite Hin, <- app_assoc in *.
      specialize (Hdel true (render_inside g _)). rewrite andb_true_r in Hdel.
      destruct (String.eqb (ToLower (Getenv os "GO111MODULE")) "on").
      * by eapply secondGen_module.
      * by eapply secondGen_workspace.
    + intros (j & x & y & Htk & Hx & Hy & Hxy).
      specialize (Hdel false (render_apart _ _ _ _ _ Hg Htk Hx Hy Hxy)).
      rewrite andb_false_r in Hdel. by eapply secondGen_module.
Qed.

Lemma stageStandardSecondGen_strategy_sample :
  exists gmPath err,
    goModPath (StageSamples.os "") "/g/src/app" = Some (gmPath, err) /\
    match err with
    | Some e =>
        stageStandardSecondGen (StageSamples.os "") 5 "/g/src/app" "/out"
                               StageSamples.ctx StageSamples.start
        = Some (Fatal (unskipAppengine StageSamples.start)
                      (Errorf ("failed finding go.mod: %v" +:+ nl) [AErr e]))
    | None =>
        (gmPath = "" <->
         forall k, k <= length ["g"; "src"; "app"] ->
                   noGoMod (StageSamples.os "") (take k ["g"; "src"; "app"])) /\
        (gmPath = "" ->
         usesWorkspace (StageSamples.os "") 5 "/g/src/app" "/out"
                       StageSamples.ctx StageSamples.start) /\
        forall k info,
          stopsAt (StageSamples.os "") ["g"; "src"; "app"] k ->
          Stat (StageSamples.os "") (take k ["g"; "src"; "app"] ++ ["go.mod"]) = Ok info ->
          gmPath = render (take k ["g"; "src"; "app"] ++ ["go.mod"]) /\
          (inside ["g"] (take k ["g"; "src"; "app"]) ->
           if String.eqb (ToLower (Getenv (StageSamples.os "") "GO111MODULE")) "on"
           then usesModule (StageSamples.os "") 5 "/g/src/app" "/out"
                           StageSamples.ctx StageSamples.start gmPath
           else usesWorkspace (StageSamples.os "") 5 "/g/src/app" "/out"
                              StageSamples.ctx StageSamples.start) /\
          (apart ["g"] (take k ["g"; "src"; "app"]) ->
           usesModule (StageSamples.os "") 5 "/g/src/app" "/out"
                      StageSamples.ctx StageSamples.start gmPath)
    end.
Proof.
  apply (stageStandardSecondGen_strategy (StageSamples.os "") 5 "/g/src/app" "/out"
           StageSamples.ctx StageSamples.start ["g"] ["g"; "src"; "app"]).
  - reflexivity.
  - repeat (constructor; [by repeat split|]). constructor.
  - reflexivity.
  - repeat (constructor; [by repeat split|]). constructor.
Defined.

Lemma skippedPackages_after_staging_sample :
  (exists o, stageLegacyStandard AppengineSamples.os 5 "/g/src/app" "/out"
                                 AppengineSamples.ctx StageSamples.start = Some o /\
             skipped (worldOf o) = skippedPackages /\
             staged (worldOf o) = AppengineSamples.stagedLegacy) /\
  (exists o, stageFlex AppengineSamples.os 5 "/g/src/app" "/out"
                       AppengineSamples.ctx StageSamples.start = Some o /\
             skipped (worldOf o) = <["appengine" := false]> skippedPackages /\
             staged (worldOf o) = AppengineSamples.stagedFlex) /\
  (exists o, stageStandardSecondGen AppengineSamples.os 5 "/g/src/app" "/out"
                                    AppengineSamples.ctx StageSamples.start = Some o /\
             skipped (worldOf o) = <["appengine" := false]> skippedPackages /\
             staged (worldOf o) = AppengineSamples.stagedFlex) /\
  stageFlex AppengineSamples.os 5 "/g/src/app" "/out" AppengineSamples.ctx
            (unskipAppengine StageSamples.start)
  = stageFlex AppengineSamples.os 5 "/g/src/app" "/out" AppengineSamples.ctx
              StageSamples.start.
Proof.
  destruct (skippedPackages_after_staging AppengineSamples.os 5 "/g/src/app" "/out"
              AppengineSamples.ctx StageSamples.start) as (Hl & Hf & Hs & _ & Hc).
  split; [|split; [|split]].
  - exists (Finished {| skipped := skippedPackages;
                        staged := AppengineSamples.stagedLegacy; stdout := [] |} None).
    assert (Hrun : stageLegacyStandard AppengineSamples.os 5 "/g/src/app" "/out"
                     AppengineSamples.ctx StageSamples.start
                   = Some (Finished {| skipped := skippedPackages;
                                       staged := AppengineSamples.stagedLegacy;
                                       stdout := [] |} None)).
    { vm_cast_no_check
        (eq_refl (Some (Finished {| skipped := skippedPackages;
                                    staged := AppengineSamples.stagedLegacy;
                                    stdout := [] |} None))). }
    split; [exact Hrun|]. split; [exact (Hl _ Hrun)|reflexivity].
  - exists (Finished {| skipped := <["appengine" := false]> skippedPackages;
                        staged := AppengineSamples.stagedFlex; stdout := [] |} None).
    assert (Hrun : stageFlex AppengineSamples.os 5 "/g/src/app" "/out"
                     AppengineSamples.ctx StageSamples.start
                   = Some (Finished {| skipped := <["appengine" := false]> skippedPackages;
                                       staged := AppengineSamples.stagedFlex;
                                       stdout := [] |} None)).
    { vm_cast_no_check
        (eq_refl (Some (Finished {| skipped := <["appengine" := false]> skippedPackages;
                                    staged := AppengineSamples.stagedFlex;
                                    stdout := [] |} None))). }
    split; [exact Hrun|]. split; [exact (Hf _ Hrun)|reflexivity].
  - exists (Finished {| skipped := <["appengine" := false]> skippedPackages;
                        staged := AppengineSamples.stagedFlex;
                        stdout := ["building with dependencies from GOPATH"] |} None).
    assert (Hrun : stageStandardSecondGen AppengineSamples.os 5 "/g/src/app" "/out"
                     AppengineSamples.ctx StageSamples.start
                   = Some (Finished {| skipped := <["appengine" := false]> skippedPackages;
                                       staged := AppengineSamples.stagedFlex;
                                       stdout := ["building with dependencies from GOPATH"] |}
                                    None)).
    { vm_cast_no_check
        (eq_refl (Some (Finished {| skipped := <["appengine" := false]> skippedPackages;
                                    staged := AppengineSamples.stagedFlex;
                                    stdout := ["building with dependencies from GOPATH"] |}
                                 None))). }
    split; [exact Hrun|]. split; [exact (Hs _ Hrun)|reflexivity].
  - apply (Hc AppengineSamples.ctx (unskipAppengine StageSamples.start)).
    + apply unskipAppengine_twice.
    + split; reflexivity.
Defined.

(** C6 as stated fails: a run of [stageFlex] starts from the table as the
    program declares it, where [appengine] is skipped, and ends with a
    table where it is not. *)
Lemma stageFlex_changes_skippedPackages :
  flag skippedPackages "appengine" = true /\
  exists w',
    stageFlex (StageSamples.os "") 5 "/g/src/app" "/out"
              StageSamples.ctx StageSamples.start = Some (Finished w' None) /\
    flag (skipped w') "appengine" = false /\
    skipped w' <> skipped StageSamples.start.
Proof.
  split; [reflexivity|].
  exists {| skipped := <["appengine" := false]> skippedPackages;
            staged := StageTrees.flexApp; stdout := [] |}.
  split.
  { vm_cast_no_check
      (eq_refl (Some (Finished {| skipped := <["appengine" := false]> skippedPackages;
                                  staged := StageTrees.flexApp; stdout := [] |} None))). }
  split; [reflexivity|].
  intros H. apply (f_equal (fun m => flag m "appengine")) in H.
  vm_compute in H. discriminate H.
Qed.

(** C9 as stated fails: [go.mod] is in the application directory, the
    application is inside the workspace [/g], and [GO111MODULE] is [on]:
    the run is not handed to [stageFlex]; the module strategy is used. *)
Lemma stageStandardSecondGen_module_in_workspace :
  goModPath (StageSamples.os "on") "/g/src/app" = Some ("/g/src/app/go.mod", None) /\
  String.prefix (DefaultGOPATH (StageSamples.os "on")) "/g/src/app/go.mod" = true /\
  stageStandardSecondGen (StageSamples.os "on") 5 "/g/src/app" "/out"
                         StageSamples.ctx StageSamples.start
  <> stageFlex (StageSamples.os "on") 5 "/g/src/app" "/out" StageSamples.ctx
               (say "building with dependencies from GOPATH"
                    (unskipAppengine StageSamples.start)) /\
  exists o,
    stageStandardSecondGen (StageSamples.os "on") 5 "/g/src/app" "/out"
                           StageSamples.ctx StageSamples.start = Some o /\
    stdout (worldOf o) = ["building with dependencies from go.mod"] /\
    staged (worldOf o) !! ["out"; "_gopath"] = None /\
    staged (worldOf o) !! ["out"; "_main-package-path"]
    = Some (NFile (String.list_byte_of_string ".")).
Proof.
  assert (Hrun : stageStandardSecondGen (StageSamples.os "on") 5 "/g/src/app" "/out"
                   StageSamples.ctx StageSamples.start
                 = Some (Finished
                           {| skipped := <["appengine" := false]> skippedPackages;
                              staged := StageTrees.moduleApp;
                              stdout := ["building with dependencies from go.mod"] |}
                           None)).
  { vm_cast_no_check
      (eq_refl (Some (Finished
                        {| skipped := <["appengine" := false]> skippedPackages;
                           staged := StageTrees.moduleApp;
                           stdout := ["building with dependencies from go.mod"] |}
                        None))). }
  assert (Hflex : stageFlex (StageSamples.os "on") 5 "/g/src/app" "/out" StageSamples.ctx
                    (say "building with dependencies from GOPATH"
                         (unskipAppengine StageSamples.start))
                  = Some (Finished
                            {| skipped := <["appengine" := false]> skippedPackages;
                               staged := StageTrees.flexApp;
                               stdout := ["building with dependencies from GOPATH"] |}
                            None)).
  { vm_cast_no_check
      (eq_refl (Some (Finished
                        {| skipped := <["appengine" := false]> skippedPackages;
                           staged := StageTrees.flexApp;
                           stdout := ["building with dependencies from GOPATH"] |}
                        None))). }
  split; [vm_compute; reflexivity|]. split; [reflexivity|]. split.
  - rewrite Hrun, Hflex. intros H.
    apply (f_equal (fun o => match o with
                             | Some o => stdout (worldOf o)
                             | None => []
                             end)) in H.
    simpl in H. discriminate H.
  - eexists. split; [exact Hrun|].
    repeat split; vm_compute; reflexivity.
Qed.

(** With [GO111MODULE] unset the same application is staged by
    [stageFlex]. *)
Example stageStandardSecondGen_legacy :
  stageStandardSecondGen (StageSamples.os "") 5 "/g/src/app" "/out"
                         StageSamples.ctx StageSamples.start
  = stageFlex (StageSamples.os "") 5 "/g/src/app" "/out" StageSamples.ctx
              (say "building with dependencies from GOPATH"
                   (unskipAppengine StageSamples.start)).
Proof.
  vm_cast_no_check
    (eq_refl (stageFlex (StageSamples.os "") 5 "/g/src/app" "/out" StageSamples.ctx
                (say "building with dependencies from GOPATH"
                     (unskipAppengine StageSamples.start)))).
Qed.

(** * More on the closure *)

(** X1.  The list [analyze] returns is in the order of the walk: it holds
    the packages the provider returned, in the order they were resolved,
    each one left out when a package with the same joined path came
    before it. *)
Theorem analyze_order os skipped fuel dir ctx enforceMain evs pkgs :
  analyzeTrace os skipped fuel dir ctx enforceMain = Some (evs, (pkgs, None)) ->
  pkgs = addNew [] (resolved evs).
Proof.
  intros H.
  apply analyzeTrace_inv in H as [(_ & e & [=])|(abs & pkg & _ & _ & Hl)].
  exact (loop_order _ _ _ _ _ _ Hl (seed_dedupInv abs pkg)).
Qed.

Lemma analyze_order_diamond :
  [Samples.pkgA; Samples.pkgB; Samples.pkgC] = addNew [] (resolved diamondTrace).
Proof.
  exact (analyze_order _ _ _ _ _ _ _ _ diamond_run).
Defined.

(** * Flat copies and the bundle *)

Lemma copyFile_writes_file os dstRoot d s t t' e p :
  copyFile os dstRoot d s t = (t', e) -> t' !! p <> t !! p ->
  p = dstRoot ++ d /\ exists data, t' !! p = Some (NFile data).
Proof.
  intros H Hne. assert (Hp := copyFile_changes _ _ _ _ _ _ _ _ H Hne). subst p.
  split; [done|]. unfold copyFile in H.
  destruct (ReadFile os s) as [data|err|partial err].
  - destruct (Create (dstRoot ++ d) t) as [t1|err'] eqn:Hc.
    + injection H as <- <-. exists data. by rewrite lookup_insert_eq.
    + injection H as <- <-. done.
  - injection H as <- <-. done.
  - destruct (Create (dstRoot ++ d) t) as [t1|err'] eqn:Hc.
    + injection H as <- <-. exists partial. by rewrite lookup_insert_eq.
    + injection H as <- <-. done.
Qed.

Section Flat.
Context (os : OS) (dstRoot : fpath)
        (rec : fpath -> fpath -> tree -> option (tree * option error))
        (dstDir srcDir : fpath).

Lemma EntryStep_flat entry t t1 e1 p :
  EntryStep os dstRoot false rec dstDir srcDir entry t t1 e1 ->
  t1 !! p <> t !! p -> direct dstRoot dstDir t1 p.
Proof.
  intros H Hne.
  destruct H as [Hs|err Hs Hst|info Hs Hst Hd Hrec|info t' err Hs Hst Hd Hrec Hcall
                |info t' err Hs Hst Hd Hcf]; try done.
  destruct (copyFile_writes_file _ _ _ _ _ _ _ _ Hcf Hne) as [-> [data Hp]].
  exists (fiName entry), data. done.
Qed.

Lemma copyEntries_flat entries t r p :
  copyEntries os rec dstRoot dstDir srcDir false entries t = Some r ->
  r.1 !! p <> t !! p -> direct dstRoot dstDir r.1 p.
Proof.
  revert t. induction entries as [|entry rest IH]; intros t.
  - by intros [= <-].
  - intros H Hne. apply copyEntries_cons in H as (t1 & e1 & Hstep & Hr).
    destruct e1 as [err|].
    + subst r. by eapply EntryStep_flat.
    + destruct (decide (r.1 !! p = t1 !! p)) as [Heq|Hne1]; [|by eapply IH].
      rewrite Heq in Hne.
      destruct (EntryStep_flat _ _ _ _ _ Hstep Hne) as (n & data & -> & Hn & Hp).
      exists n, data. by rewrite Heq.
Qed.

Lemma copyEntries_flat_returns entries t :
  exists r, copyEntries os rec dstRoot dstDir srcDir false entries t = Some r.
Proof.
  revert t. induction entries as [|entry rest IH]; intros t; simpl; [by eexists|].
  destruct (flag skipFiles (fiName entry)); [done|].
  destruct (if fiSymlink entry then _ else _) as [info|err]; [|by eexists].
  destruct (fiIsDir info); [done|].
  destruct (copyFile _ _ _ _ t) as [t' [e|]]; [by eexists|done].
Qed.
End Flat.

Lemma copyTree_flat_returns os fuel dstRoot dstDir srcDir t :
  exists r, copyTree os (S fuel) dstRoot dstDir srcDir false t = Some r.
Proof.
  simpl. destruct (MkdirAll (dstRoot ++ dstDir) t) as [t1 [err|]]; [by eexists|].
  destruct (ReadDir os srcDir) as [entries|err]; [|by eexists].
  apply copyEntries_flat_returns.
Qed.

Lemma copyTree_flat_changes os fuel dstRoot dstDir srcDir t r p :
  copyTree os fuel dstRoot dstDir srcDir false t = Some r ->
  r.1 !! p <> t !! p ->
  above dstRoot dstDir p \/ direct dstRoot dstDir r.1 p.
Proof.
  intros H Hne.
  destruct fuel as [|fuel]; [done|].
  apply copyTree_inv in H as (fuel' & t1 & e1 & _ & Hm & H).
  assert (Hmk : t1 !! p <> t !! p -> above dstRoot dstDir p).
  { intros Hne1. destruct (mkdirs_changes _ _ _ _ _ _ Hm Hne1)
      as (_ & _ & k & rel & Hk & -> & _). by exists rel. }
  destruct e1 as [err|]; [subst r; left; by apply Hmk|].
  destruct (ReadDir os srcDir) as [entries|err]; [|subst r; left; by apply Hmk].
  destruct (decide (r.1 !! p = t1 !! p)) as [Heq|Hne1].
  + left. apply Hmk. by rewrite <- Heq.
  + right. by eapply copyEntries_flat.
Qed.

(** X2.  A copy that is not recursive is flat and needs one level only:
    [copyTree] with [recursive] false always returns, and whatever it
    created or changed, also when it failed, is the directory it was given
    or one above it, or a regular file directly in that directory; no
    subdirectory of the source is staged. *)
Theorem copyTree_flat os fuel dstRoot dstDir srcDir t :
  (exists r, copyTree os (S fuel) dstRoot dstDir srcDir false t = Some r) /\
  forall r p,
    copyTree os (S fuel) dstRoot dstDir srcDir false t = Some r ->
    r.1 !! p <> t !! p ->
    above dstRoot dstDir p \/ direct dstRoot dstDir r.1 p.
Proof.
  split; [apply copyTree_flat_returns|].
  intros r p. apply copyTree_flat_changes.
Qed.

Lemma copyTree_entries_staged os dstRoot recursive fuel dstDir srcDir t t' rel :
  copyTree os fuel dstRoot dstDir srcDir recursive t = Some (t', None) ->
  followed os recursive srcDir rel ->
  isDirIn t' (dstRoot ++ dstDir ++ rel) = true /\
  forall entries entry info,
    ReadDir os (srcDir ++ rel) = Ok entries ->
    entry ∈ entries ->
    flag skipFiles (fiName entry) = false ->
    statOf os (srcDir ++ rel) entry = Ok info ->
    fiIsDir info = false ->
    exists data,
      ReadFile os (srcDir ++ rel ++ [fiName entry]) = ReadAll data /\
      t' !! (dstRoot ++ dstDir ++ rel ++ [fiName entry]) = Some (NFile data).
Proof.
  intros H Hf. apply copyTree_Staged in H.
  destruct (Staged_followed _ _ _ _ _ _ _ _ H Hf) as [[|fuel'] H']; [done|].
  destruct H' as (Hdirs & entries' & Hrd' & Hall). split.
  - by apply (allDirs_last [] (dstRoot ++ dstDir ++ rel)).
  - intros entries entry info Hrd Hin Hs Hst Hd.
    rewrite Hrd in Hrd'. injection Hrd' as <-.
    rewrite Forall_forall in Hall. specialize (Hall _ Hin).
    destruct Hall as [Hs'|(_ & info' & Hst' & Hfile)]; [congruence|].
    rewrite Hst in Hst'. injection Hst' as <-. rewrite Hd in Hfile.
    destruct Hfile as (data & Hr & Hp). exists data.
    by rewrite <- !app_assoc in *.
Qed.

(** X3.  A successful copy is complete.  For every directory [copyTree]
    went down to, the staged tree has that directory, and every entry of
    it that is not excluded and is not a directory (after a symbolic link
    is resolved) is a regular file of the staged tree with the content
    read from the source. *)
Theorem copyTree_complete os dstRoot recursive fuel dstDir srcDir t t' rel :
  copyTree os fuel dstRoot dstDir srcDir recursive t = Some (t', None) ->
  followed os recursive srcDir rel ->
  isDirIn t' (dstRoot ++ dstDir ++ rel) = true /\
  forall entries entry info,
    ReadDir os (srcDir ++ rel) = Ok entries ->
    entry ∈ entries ->
    flag skipFiles (fiName entry) = false ->
    statOf os (srcDir ++ rel) entry = Ok info ->
    fiIsDir info = false ->
    exists data,
      ReadFile os (srcDir ++ rel ++ [fiName entry]) = ReadAll data /\
      t' !! (dstRoot ++ dstDir ++ rel ++ [fiName entry]) = Some (NFile data).
Proof. apply copyTree_entries_staged. Qed.

Lemma copyTree_complete_good :
  isDirIn CopySamples.stagedGood (["out"] ++ [] ++ ["lib"]) = true /\
  forall entries entry info,
    ReadDir (Mem.os CopySamples.good "/g" CopySamples.noenv) (["app"] ++ ["lib"])
    = Ok entries ->
    entry ∈ entries ->
    flag skipFiles (fiName entry) = false ->
    statOf (Mem.os CopySamples.good "/g" CopySamples.noenv) (["app"] ++ ["lib"]) entry
    = Ok info ->
    fiIsDir info = false ->
    exists data,
      ReadFile (Mem.os CopySamples.good "/g" CopySamples.noenv)
               (["app"] ++ ["lib"] ++ [fiName entry]) = ReadAll data /\
      CopySamples.stagedGood !! (["out"] ++ [] ++ ["lib"] ++ [fiName entry])
      = Some (NFile data).
Proof.
  apply (copyTree_complete (Mem.os CopySamples.good "/g" CopySamples.noenv)
           ["out"] true 5 [] ["app"] ∅ CopySamples.stagedGood ["lib"]).
  - vm_cast_no_check (eq_refl (Some (CopySamples.stagedGood, @None error))).
  - split; [|split; [reflexivity|exact I]].
    exists [Mem.info ".git" Mem.IDir;
            Mem.info "data.txt" (Mem.ILink ["shared"; "real.txt"]);
            Mem.info "lib" Mem.IDir;
            Mem.info "main.go" (Mem.IFile CopySamples.code)],
           (Mem.info "lib" Mem.IDir), (Mem.info "lib" Mem.IDir).
    split; [vm_compute; reflexivity|]. split.
    { apply list_elem_of_further, list_elem_of_further, list_elem_of_here. }
    repeat split; vm_compute; reflexivity.
Defined.

Lemma bundle_inv os fuel dst dstDepsDir pkg rest t r :
  bundle os fuel dst dstDepsDir (pkg :: rest) t = Some r ->
  exists t1 e1,
    copyTree os fuel dst (bundleDir dstDepsDir pkg) (comps (pkgName pkg)) false t
    = Some (t1, e1) /\
    match e1 with
    | Some e =>
        r = (t1, Some (Errorf "unable to copy directory %v to %v: %v"
                              [AStr (pkgName pkg);
                               AStr (filepath.Join [dstDepsDir; ImportPath pkg]);
                               AErr e]))
    | None => bundle os fuel dst dstDepsDir rest t1 = Some r
    end.
Proof.
  unfold bundleDir, pkgName. cbn [bundle].
  destruct (copyTree os fuel dst _ _ false t) as [[t1 [e|]]|]; [| |done].
  - intros [= <-]. by exists t1, (Some e).
  - intros H. by exists t1, None.
Qed.





(** * The path of go.mod and of the main package *)

(** X7.  [goModPath] returns for every directory, and what it returns is
    decided by the nearest directory, from the one given up to the root,
    where [os.Stat] of [go.mod] says something else than that the file
    does not exist: when it succeeds there, the path of that [go.mod];
    when it fails there, an error around that failure and no path; when
    there is no such directory, the empty path and no error. *)
Theorem goModPath_nearest os src abs :
  Abs os src = Ok abs ->
  exists gm err, goModPath os src = Some (gm, err) /\
    ((gm = "" /\ err = None /\
      forall k, k <= length (comps abs) -> noGoMod os (take k (comps abs))) \/
     exists k, stopsAt os (comps abs) k /\
       match Stat os (take k (comps abs) ++ ["go.mod"]) with
       | Ok _ => gm = render (take k (comps abs) ++ ["go.mod"]) /\ err = None
       | Err e => IsNotExist e = false /\ gm = "" /\
                  err = Some (Errorf "unexpected error: %v" [AErr e])
       end).
Proof. apply goModPath_nearest_aux. Qed.

Lemma goModPath_nearest_sample :
  exists gm err, goModPath ModuleSamples.os "/m/cmd/server" = Some (gm, err) /\
    ((gm = "" /\ err = None /\
      forall k, k <= length (comps "/m/cmd/server") ->
                noGoMod ModuleSamples.os (take k (comps "/m/cmd/server"))) \/
     exists k, stopsAt ModuleSamples.os (comps "/m/cmd/server") k /\
       match Stat ModuleSamples.os (take k (comps "/m/cmd/server") ++ ["go.mod"]) with
       | Ok _ => gm = render (take k (comps "/m/cmd/server") ++ ["go.mod"]) /\ err = None
       | Err e => IsNotExist e = false /\ gm = "" /\
                  err = Some (Errorf "unexpected error: %v" [AErr e])
       end).
Proof.
  apply (goModPath_nearest ModuleSamples.os "/m/cmd/server" "/m/cmd/server").
  reflexivity.
Defined.

(** * The path of the main package *)

Lemma removelast_snoc (l : fpath) x : removelast (l ++ [x]) = l.
Proof. by rewrite removelast_app, app_nil_r. Qed.

(** X8.  The path written for a module is the way from the directory of
    [go.mod] down to the application.  When [goModPath] finds a [go.mod]
    for the application directory, [goModRelativeBuildPath] with that
    [go.mod] succeeds, and gives [.] when [go.mod] is in the application
    directory and otherwise the names of the directories from the one of
    [go.mod] to the application, joined by slashes, with every backslash
    in them made a slash. *)
Theorem goModRelativeBuildPath_of_goModPath os src c gm :
  Abs os src = Ok (render c) ->
  Forall proper c ->
  goModPath os src = Some (gm, None) ->
  gm <> "" ->
  Abs os (DirOf gm) = Ok (DirOf gm) ->
  exists k, stopsAt os c k /\
    gm = render (take k c ++ ["go.mod"]) /\
    goModRelativeBuildPath os gm src
    = Ok (unixSeparators (match drop k c with
                          | [] => "."
                          | rel => String.concat "/" rel
                          end)).
Proof.
  intros Ha Hc Hgm Hne Hd.
  destruct (goModPath_nearest_aux os src (render c) Ha) as (gm' & err & Hgm' & Hcase).
  rewrite Hgm in Hgm'. injection Hgm' as <- <-.
  rewrite comps_render in Hcase by done.
  destruct Hcase as [(-> & _)|(k & Hk & Hst)]; [done|].
  exists k. split; [done|].
  destruct (Stat os (take k c ++ ["go.mod"])) as [info|e]; [|by destruct Hst as (_ & _ & [=])].
  destruct Hst as [-> _]. split; [done|].
  assert (Hroot : DirOf (render (take k c ++ ["go.mod"])) = render (take k c)).
  { unfold DirOf. rewrite comps_render, removelast_snoc; [done|].
    apply Forall_app. split; [by apply Forall_take|].
    constructor; [|constructor]. by repeat split. }
  unfold goModRelativeBuildPath. rewrite Hd, Ha, Hroot, render_take_prefix. simpl.
  unfold Rel. rewrite !comps_render; [|done|by apply Forall_take].
  pose proof (relElems_app (take k c) (drop k c)) as Hrel.
  rewrite take_drop in Hrel. by rewrite Hrel.
Qed.

Lemma goModRelativeBuildPath_of_goModPath_sample :
  exists k, stopsAt ModuleSamples.os ["m"; "cmd"; "server"] k /\
    "/m/go.mod" = render (take k ["m"; "cmd"; "server"] ++ ["go.mod"]) /\
    goModRelativeBuildPath ModuleSamples.os "/m/go.mod" "/m/cmd/server"
    = Ok (unixSeparators (match drop k ["m"; "cmd"; "server"] with
                          | [] => "."
                          | rel => String.concat "/" rel
                          end)).
Proof.
  apply (goModRelativeBuildPath_of_goModPath ModuleSamples.os "/m/cmd/server"
           ["m"; "cmd"; "server"] "/m/go.mod").
  - reflexivity.
  - repeat (constructor; [by repeat split|]). constructor.
  - vm_compute. reflexivity.
  - discriminate.
  - reflexivity.
Defined.

Lemma findMainPath_outside os mainDir ps :
  Forall (outside os mainDir) ps -> findMainPath os mainDir ps = Ok "".
Proof.
  induction 1 as [|p ps (gop & Ha & Hp) _ IH]; cbn [findMainPath]; [done|].
  by rewrite Ha, Hp.
Qed.

Lemma findMainPath_first os mainDir gop rest pre p post :
  Forall (outside os mainDir) pre ->
  Abs os p = Ok gop ->
  mainDir = (filepath.Join [gop; "src"] +:+ "/") +:+ rest ->
  findMainPath os mainDir (pre ++ p :: post) = Ok rest.
Proof.
  intros Hpre Ha ->.
  induction Hpre as [|q pre (g & Hq & Hp) _ IH]; cbn [findMainPath app].
  - by rewrite Ha, prefix_app, TrimPrefix_app.
  - by rewrite Hq, Hp.
Qed.

(** X9.  An application outside the workspace gets no main package path:
    when no entry of the workspace path has a [src] directory above the
    application directory (also when the workspace path is empty, and when
    the application directory is such a [src] directory itself),
    [writeMainPkgFile] returns without an error and leaves the staged tree
    as it is; not even the directory of the file is made. *)
Theorem writeMainPkgFile_outside os file appDir mainDir t :
  Abs os appDir = Ok mainDir ->
  Forall (outside os mainDir) (filepath.SplitList (DefaultGOPATH os)) ->
  writeMainPkgFile os file appDir t = (t, None).
Proof.
  intros Ha Hout. unfold writeMainPkgFile.
  by rewrite Ha, (findMainPath_outside _ _ _ Hout).
Qed.

Lemma writeMainPkgFile_outside_sample :
  writeMainPkgFile ModuleSamples.os ["out"; "_gopath"; "main-package-path"]
                   "/m/cmd/server" ∅
  = (∅, None).
Proof.
  apply (writeMainPkgFile_outside ModuleSamples.os _ "/m/cmd/server" "/m/cmd/server").
  - reflexivity.
  - repeat (constructor; [eexists; split; [reflexivity|vm_compute; reflexivity]|]).
    constructor.
Defined.

(** X10.  An application inside the workspace gets its import path.  The
    first entry of the workspace path whose [src] directory, with the
    separator after it, starts the application directory decides: what
    follows that prefix is the main package path, and a call that returns
    no error has written exactly that text to the file. *)
Theorem writeMainPkgFile_inside os file appDir mainDir gop rest pre p post t t' :
  Abs os appDir = Ok mainDir ->
  filepath.SplitList (DefaultGOPATH os) = pre ++ p :: post ->
  Forall (outside os mainDir) pre ->
  Abs os p = Ok gop ->
  mainDir = (filepath.Join [gop; "src"] +:+ "/") +:+ rest ->
  rest <> "" ->
  writeMainPkgFile os file appDir t = (t', None) ->
  t' !! file = Some (NFile (String.list_byte_of_string rest)).
Proof.
  intros Ha Hsplit Hpre Hp Hmain Hrest. unfold writeMainPkgFile.
  rewrite Ha, Hsplit, (findMainPath_first _ _ _ _ _ _ _ Hpre Hp Hmain).
  apply String.eqb_neq in Hrest. rewrite Hrest.
  destruct (MkdirAll (removelast file) t) as [t1 [e|]]; [done|].
  unfold writeFile. destruct (Create file t1) as [t2|e]; [|done].
  intros [= <-]. by rewrite lookup_insert_eq.
Qed.

Lemma writeMainPkgFile_inside_sample :
  ModuleSamples.stagedMain !! ["out"; "_gopath"; "main-package-path"]
  = Some (NFile (String.list_byte_of_string "app")).
Proof.
  apply (writeMainPkgFile_inside ModuleSamples.workspaceOS
           ["out"; "_gopath"; "main-package-path"] "/g/src/app" "/g/src/app"
           "/g" "app" ["/h"] "/g" [] ∅).
  - reflexivity.
  - reflexivity.
  - constructor; [|constructor].
    eexists. split; [reflexivity|vm_compute; reflexivity].
  - reflexivity.
  - reflexivity.
  - discriminate.
  - vm_cast_no_check (eq_refl (ModuleSamples.stagedMain, @None error)).
Defined.

(** * The application directory in the staged tree *)

(** X6.  The application is copied last and whole.  After a run of
    [stageLegacyStandard] or of [stageFlex] that returns no error, for
    every directory of the application that [copyTree] goes down to, the
    staged tree has that directory at the same place below the
    destination, and every entry of it that is not excluded and is not a
    directory is a regular file there with the content read from the
    application, whatever the bundled packages had put at that path. *)
Theorem stage_application_files os fuel src dst buildCtx w w' rel :
  stageLegacyStandard os fuel src dst buildCtx w = Some (Finished w' None) \/
  stageFlex os fuel src dst buildCtx w = Some (Finished w' None) ->
  followed os true (comps src) rel ->
  isDirIn (staged w') (comps dst ++ rel) = true /\
  forall entries entry info,
    ReadDir os (comps src ++ rel) = Ok entries ->
    entry ∈ entries ->
    flag skipFiles (fiName entry) = false ->
    statOf os (comps src ++ rel) entry = Ok info ->
    fiIsDir info = false ->
    exists data,
      ReadFile os (comps src ++ rel ++ [fiName entry]) = ReadAll data /\
      staged w' !! (comps dst ++ rel ++ [fiName entry]) = Some (NFile data).
Proof.
  intros H Hf.
  assert (Hcopy : exists t,
            copyTree os fuel (comps dst) [] (comps src) true t = Some (staged w', None)).
  { destruct H as [H|H].
    - unfold stageLegacyStandard in H.
      destruct (analyze _ _ _ _ _ _) as [[deps [e|]]|]; [done| |done].
      destruct (bundle _ _ _ _ _ _) as [[t [e|]]|]; [done| |done].
      destruct (copyTree os fuel (comps dst) [] (comps src) true t)
        as [[t' [e|]]|] eqn:Hc; [done| |done].
      injection H as <-. by exists t.
    - unfold stageFlex in H.
      destruct (writeMainPkgFile _ _ _ _) as [t0 [e|]]; [done|].
      destruct (analyze _ _ _ _ _ _) as [[deps [e|]]|]; [done| |done].
      destruct (bundle _ _ _ _ _ _) as [[t [e|]]|]; [done| |done].
      destruct (copyTree os fuel (comps dst) [] (comps src) true t)
        as [[t' [e|]]|] eqn:Hc; [done| |done].
      injection H as <-. by exists t. }
  destruct Hcopy as [t Hcopy].
  exact (copyTree_entries_staged _ _ _ _ _ _ _ _ _ Hcopy Hf).
Qed.

Lemma stage_application_files_sample :
  isDirIn ModuleSamples.stagedApp (comps "/out" ++ []) = true /\
  forall entries entry info,
    ReadDir (StageSamples.os "") (comps "/g/src/app" ++ []) = Ok entries ->
    entry ∈ entries ->
    flag skipFiles (fiName entry) = false ->
    statOf (StageSamples.os "") (comps "/g/src/app" ++ []) entry = Ok info ->
    fiIsDir info = false ->
    exists data,
      ReadFile (StageSamples.os "") (comps "/g/src/app" ++ [] ++ [fiName entry])
      = ReadAll data /\
      ModuleSamples.stagedApp !! (comps "/out" ++ [] ++ [fiName entry])
      = Some (NFile data).
Proof.
  apply (stage_application_files (StageSamples.os "") 5 "/g/src/app" "/out"
           StageSamples.ctx StageSamples.start
           {| skipped := skippedPackages; staged := ModuleSamples.stagedApp;
              stdout := [] |} []).
  - left.
    vm_cast_no_check
      (eq_refl (Some (Finished {| skipped := skippedPackages;
                                  staged := ModuleSamples.stagedApp;
                                  stdout := [] |} None))).
  - exact I.
Defined.

(** * The Go version *)

Lemma digitChar_value d :
  (0 <= d <= 9)%Z -> Z.of_nat (nat_of_ascii (digitChar d)) = (48 + d)%Z.
Proof.
  intros Hd. unfold digitChar. rewrite nat_ascii_embedding; lia.
Qed.

Lemma parseUintLoop_digit d s n :
  (0 <= d <= 9)%Z -> (0 <= n)%Z -> (n * 10 + d <= maxUint64)%Z ->
  parseUintLoop (String (digitChar d) s) n = parseUintLoop s (n * 10 + d).
Proof.
  intros Hd Hn Hmax. cbn [parseUintLoop]. rewrite digitChar_value by done.
  unfold maxUint64 in *.
  change (2 ^ 64)%Z with 18446744073709551616%Z in *.
  change ((18446744073709551616 - 1) / 10 + 1)%Z with 1844674407370955162%Z.
  assert (H1 : ((48 <=? 48 + d) && (48 + d <=? 57))%Z = true).
  { apply andb_true_iff. split; apply Z.leb_le; lia. }
  rewrite H1. cbn [negb].
  replace (48 + d - 48)%Z with d by lia.
  assert (H2 : (1844674407370955162 <=? n)%Z = false) by (apply Z.leb_gt; lia).
  rewrite H2, Z.mod_small by lia.
  assert (H3 : ((n * 10 + d <? n * 10)
                || (18446744073709551616 - 1 <? n * 10 + d))%Z = false).
  { apply orb_false_iff. split; apply Z.ltb_ge; lia. }
  by rewrite H3.
Qed.

Lemma parseUintLoop_decimal fuel n acc m :
  (0 <= n < 10 ^ Z.of_nat (S fuel))%Z -> (0 <= m)%Z ->
  (m * 10 ^ Z.of_nat (digits fuel n) + n <= maxUint64)%Z ->
  parseUintLoop (decimal fuel n acc) m
  = parseUintLoop acc (m * 10 ^ Z.of_nat (digits fuel n) + n).
Proof.
  revert n acc. induction fuel as [|fuel IH]; intros n acc Hn Hm Hmax.
  - cbn [decimal digits] in *. change (10 ^ Z.of_nat 1)%Z with 10%Z in *.
    rewrite Z.mod_small by lia. by rewrite parseUintLoop_digit by lia.
  - cbn [decimal digits] in *. destruct (n <? 10)%Z eqn:Hlt.
    + change (10 ^ Z.of_nat 1)%Z with 10%Z in *.
      by rewrite parseUintLoop_digit by lia.
    + assert (Hpow : (10 ^ Z.of_nat (S (digits fuel (n / 10)))
                      = 10 ^ Z.of_nat (digits fuel (n / 10)) * 10)%Z).
      { rewrite Nat2Z.inj_succ, Z.pow_succ_r; lia. }
      rewrite Hpow in Hmax.
      assert (Hdiv : (n = n / 10 * 10 + n mod 10)%Z).
      { pose proof (Z.div_mod n 10). lia. }
      assert (Hmod : (0 <= n mod 10 < 10)%Z) by (apply Z.mod_pos_bound; lia).
      assert (Hpos : (0 < 10 ^ Z.of_nat (digits fuel (n / 10)))%Z)
        by (apply Z.pow_pos_nonneg; lia).
      rewrite IH.
      * rewrite parseUintLoop_digit; [|lia|nia|nia]. f_equal. rewrite Hpow. nia.
      * split; [apply Z.div_pos; lia|].
        apply Z.div_lt_upper_bound; [lia|].
        rewrite (Nat2Z.inj_succ (S fuel)), Z.pow_succ_r in Hn; lia.
      * done.
      * nia.
Qed.

(** What [decimal] writes starts with a digit and ends with the last digit
    of [n]. *)
Lemma decimal_shape fuel n acc :
  (0 <= n)%Z ->
  exists d pre,
    (0 <= d <= 9)%Z /\
    decimal fuel n acc = String (digitChar d) pre /\
    exists pre', decimal fuel n acc = pre' +:+ String (digitChar (n mod 10)) acc.
Proof.
  revert n acc. induction fuel as [|fuel IH]; intros n acc Hn; cbn [decimal].
  - pose proof (Z.mod_pos_bound n 10). exists (n mod 10)%Z, acc.
    split; [lia|]. split; [done|]. by exists "".
  - destruct (n <? 10)%Z eqn:Hlt.
    + exists n, acc. split; [lia|]. split; [done|]. exists "".
      by rewrite Z.mod_small by lia.
    + destruct (IH (n / 10)%Z (String (digitChar (n mod 10)) acc))
        as (d & pre & Hd & Heq & pre' & Heq'); [apply Z.div_pos; lia|].
      exists d, pre. split; [done|]. split; [done|].
      exists (pre' +:+ String (digitChar ((n / 10) mod 10)) ""). rewrite Heq'.
      clear. induction pre' as [|c p IHp]; [done|].
      change (String c p +:+ ?x) with (String c (p +:+ x)). by rewrite IHp.
Qed.

Lemma digitChar_digit d :
  (0 <= d <= 9)%Z ->
  Ascii.eqb (digitChar d) "+"%char = false /\
  Ascii.eqb (digitChar d) "-"%char = false /\
  Ascii.eqb (digitChar d) "."%char = false /\
  Ascii.eqb (digitChar d) "C"%char = false.
Proof.
  intros Hd.
  assert (d = 0 \/ d = 1 \/ d = 2 \/ d = 3 \/ d = 4 \/ d = 5 \/ d = 6 \/ d = 7
          \/ d = 8 \/ d = 9)%Z as Hcases by lia.
  repeat destruct Hcases as [->|Hcases]; try subst d; by vm_compute.
Qed.

(** [Atoi] reads back what [%d] writes. *)
Lemma Atoi_itoa n : (0 <= n < 2 ^ 63)%Z -> Atoi (itoa n) = (n, None).
Proof.
  intros Hn. unfold itoa. replace (n <? 0)%Z with false by lia.
  assert (Hlt : (0 <= n < 10 ^ Z.of_nat 20)%Z).
  { split; [lia|]. eapply Z.lt_trans; [apply Hn|]. by vm_compute. }
  destruct (decimal_shape 19 n "" ltac:(lia)) as (d & pre & Hd & Heq & _).
  destruct (digitChar_digit d Hd) as (Hplus & Hminus & _).
  unfold Atoi, ParseInt. rewrite Heq, Hplus, Hminus. cbn [orb negb andb].
  unfold ParseUint. rewrite <- Heq.
  rewrite parseUintLoop_decimal; [|done|lia|unfold maxUint64; lia].
  cbn [parseUintLoop]. rewrite Z.mul_0_l, Z.add_0_l.
  replace (2 ^ 63 <=? n)%Z with false by lia. done.
Qed.

(** *** Prefixes and suffixes *)

Lemma append_assoc_r a b c : (a +:+ b) +:+ c = a +:+ (b +:+ c).
Proof.
  induction a as [|x a IH]; [done|].
  change ((String x a +:+ b) +:+ c) with (String x ((a +:+ b) +:+ c)).
  change (String x a +:+ (b +:+ c)) with (String x (a +:+ (b +:+ c))).
  by rewrite IH.
Qed.

Lemma length_append_sum a b :
  String.length (a +:+ b) = String.length a + String.length b.
Proof.
  induction a as [|x a IH]; [done|].
  change (String x a +:+ b) with (String x (a +:+ b)). simpl. by rewrite IH.
Qed.

Lemma substring_app_r a b :
  String.substring (String.length a) (String.length b) (a +:+ b) = b.
Proof. induction a as [|x a IH]; [apply substring_all|exact IH]. Qed.

Lemma substring_app_l a b : String.substring 0 (String.length a) (a +:+ b) = a.
Proof.
  induction a as [|x a IH]; [by destruct b|].
  change (String x a +:+ b) with (String x (a +:+ b)). simpl. by rewrite IH.
Qed.

Lemma substring_split k s :
  k <= String.length s ->
  s = String.substring 0 k s +:+ String.substring k (String.length s - k) s.
Proof.
  revert k. induction s as [|c s IH]; intros k Hk.
  - simpl in Hk. by replace k with 0 by lia.
  - destruct k as [|k].
    + change (String.substring 0 0 (String c s)) with "".
      rewrite Nat.sub_0_r. symmetry. apply substring_all.
    + simpl in Hk. simpl. change (String c ?a +:+ ?b) with (String c (a +:+ b)).
      f_equal. apply IH. lia.
Qed.

Lemma HasSuffix_inv s suffix :
  HasSuffix s suffix = true -> exists a, s = a +:+ suffix.
Proof.
  unfold HasSuffix. intros [Hlen Heq]%andb_true_iff.
  apply Nat.leb_le in Hlen. apply String.eqb_eq in Heq.
  exists (String.substring 0 (String.length s - String.length suffix) s).
  pose proof (substring_split (String.length s - String.length suffix) s
                ltac:(lia)) as Hsplit.
  replace (String.length s - (String.length s - String.length suffix))
    with (String.length suffix) in Hsplit by lia.
  by rewrite Heq in Hsplit.
Qed.

Lemma HasSuffix_app a suffix : HasSuffix (a +:+ suffix) suffix = true.
Proof.
  unfold HasSuffix. rewrite length_append_sum. apply andb_true_iff. split.
  - apply Nat.leb_le. lia.
  - replace (String.length a + String.length suffix - String.length suffix)
      with (String.length a) by lia.
    rewrite substring_app_r. apply String.eqb_refl.
Qed.

Lemma TrimSuffix_app a suffix : TrimSuffix (a +:+ suffix) suffix = a.
Proof.
  unfold TrimSuffix. rewrite HasSuffix_app, length_append_sum.
  replace (String.length a + String.length suffix - String.length suffix)
    with (String.length a) by lia.
  apply substring_app_l.
Qed.

Lemma lastChar_app a b : b <> "" -> lastChar (a +:+ b) = lastChar b.
Proof.
  intros Hb. induction a as [|x a IH]; [done|].
  change (String x a +:+ b) with (String x (a +:+ b)). simpl.
  destruct (a +:+ b) eqn:Hab; [|done].
  destruct a; [done|discriminate Hab].
Qed.

Lemma TrimSuffix_keep s suffix c :
  lastChar s = Some c -> lastChar suffix <> Some c -> suffix <> "" ->
  TrimSuffix s suffix = s.
Proof.
  intros Hs Hsuf Hne. unfold TrimSuffix.
  destruct (HasSuffix s suffix) eqn:H; [|done].
  apply HasSuffix_inv in H as [a ->]. rewrite lastChar_app in Hs by done. congruence.
Qed.

(** A prefix of what [TrimSuffix] leaves is a prefix of the string. *)
Lemma prefix_substring p k s :
  String.prefix p (String.substring 0 k s) = true -> String.prefix p s = true.
Proof.
  revert k s. induction p as [|x p IH]; intros k s; [by destruct s|].
  destruct s as [|y s]; [by destruct k|].
  destruct k as [|k]; [done|]. simpl.
  destruct (ascii_dec x y); [apply IH|done].
Qed.

Lemma prefix_TrimSuffix p s suffix :
  String.prefix p (TrimSuffix s suffix) = true -> String.prefix p s = true.
Proof.
  unfold TrimSuffix. destruct (HasSuffix s suffix); [apply prefix_substring|done].
Qed.

Lemma itoa_lastChar n :
  (0 <= n)%Z -> exists pre d, (0 <= d <= 9)%Z /\ itoa n = pre +:+ String (digitChar d) "".
Proof.
  intros Hn. unfold itoa.
  assert (Hlt : (n <? 0)%Z = false) by (apply Z.ltb_ge; lia). rewrite Hlt.
  destruct (decimal_shape 19 n "" Hn) as (_ & _ & _ & _ & pre' & Heq).
  pose proof (Z.mod_pos_bound n 10). exists pre', (n mod 10)%Z. split; [lia|done].
Qed.

(** [parseGo1MinorVersion] reads [go1.N] and [go1.NRC] as [N]. *)
Lemma parseGo1MinorVersion_itoa n (rc : bool) :
  (0 <= n < 2 ^ 63)%Z ->
  parseGo1MinorVersion ("go1." +:+ itoa n +:+ (if rc then "RC" else "")) = (n, true).
Proof.
  intros Hn.
  assert (Htrim : TrimSuffix ("go1." +:+ itoa n +:+ (if rc then "RC" else "")) "RC"
                  = "go1." +:+ itoa n).
  { destruct rc.
    - rewrite <- append_assoc_r. apply TrimSuffix_app.
    - destruct (itoa_lastChar n ltac:(lia)) as (pre & d & Hd & Heq).
      replace (itoa n +:+ "") with (itoa n)
        by (clear; induction (itoa n) as [|c s IH]; [done|];
            change (String c s +:+ "") with (String c (s +:+ "")); by rewrite <- IH).
      apply (TrimSuffix_keep _ _ (digitChar d)); [| |done].
      + rewrite Heq, <- append_assoc_r. by apply lastChar_app.
      + simpl. intros [= Hc]. destruct (digitChar_digit d Hd) as (_ & _ & _ & HC).
        rewrite <- Hc, Ascii.eqb_refl in HC. done. }
  unfold parseGo1MinorVersion, parseMinorVersion.
  by rewrite Htrim, prefix_app, TrimPrefix_app, Atoi_itoa.
Qed.

Lemma TrimSuffix_itoa p n (rc : bool) :
  (0 <= n)%Z ->
  TrimSuffix (p +:+ itoa n +:+ (if rc then "RC" else "")) "RC" = p +:+ itoa n.
Proof.
  intros Hn. destruct rc.
  - rewrite <- append_assoc_r. apply TrimSuffix_app.
  - destruct (itoa_lastChar n Hn) as (pre & d & Hd & Heq).
    rewrite append_nil_r.
    apply (TrimSuffix_keep _ _ (digitChar d)); [| |done].
    + rewrite Heq, <- append_assoc_r. by apply lastChar_app.
    + simpl. intros [= Hc]. destruct (digitChar_digit d Hd) as (_ & _ & _ & HC).
      rewrite <- Hc, Ascii.eqb_refl in HC. done.
Qed.

Lemma prefix_of_prefix a b s :
  String.prefix (a +:+ b) s = true -> String.prefix a s = true.
Proof.
  revert s. induction a as [|x a IH]; intros s; [by destruct s|].
  destruct s as [|y s]; [done|].
  change (String x a +:+ b) with (String x (a +:+ b)). simpl.
  destruct (ascii_dec x y); [apply IH|done].
Qed.

(** *** The first occurrence of [go1] *)

Lemma replaceFirst_step c s :
  String.prefix "go1" (String c s) = false ->
  replaceFirst "go1" "go1." (String c s)
  = String c (replaceFirst "go1" "go1." s).
Proof. intros H. cbn [replaceFirst]. by rewrite H. Qed.

Lemma replaceFirst_found s :
  replaceFirst "go1" "go1." ("go1" +:+ s) = "go1." +:+ s.
Proof.
  change ("go1" +:+ s) with (String "g" (String "o" (String "1" s))).
  cbn [replaceFirst].
  assert (Hp : String.prefix "go1" (String "g" (String "o" (String "1" s))) = true)
    by (by destruct s).
  rewrite Hp. simpl. by rewrite Nat.sub_0_r, substring_all.
Qed.

Lemma prefix_cons x p y s :
  String.prefix (String x p) (String y s)
  = if ascii_dec x y then String.prefix p s else false.
Proof. done. Qed.

Lemma replaceFirst_no_go1 r :
  String.prefix "go1" r = false ->
  String.prefix "go1" (replaceFirst "go1" "go1." r) = false.
Proof.
  intros H. destruct r as [|c1 r1]; [done|].
  rewrite replaceFirst_step by done. rewrite prefix_cons in H |- *.
  destruct (ascii_dec "g" c1) as [_|]; [|done].
  destruct r1 as [|c2 r2]; [done|].
  destruct (String.prefix "go1" (String c2 r2)) eqn:Hp2.
  { cbn [replaceFirst]. by rewrite Hp2. }
  rewrite replaceFirst_step by done. rewrite prefix_cons in H |- *.
  destruct (ascii_dec "o" c2) as [_|]; [|done].
  destruct r2 as [|c3 r3]; [done|].
  destruct (String.prefix "go1" (String c3 r3)) eqn:Hp3.
  { cbn [replaceFirst]. by rewrite Hp3. }
  rewrite replaceFirst_step by done. rewrite prefix_cons in H |- *.
  destruct (ascii_dec "1" c3) as [_|]; [|done].
  by destruct r3.
Qed.

Lemma secondGenMinorVersion_no_go1 cfg :
  String.prefix "go1" (Runtime cfg) = false ->
  secondGenMinorVersion cfg
  = ((-1)%Z, Some (Errorf "invalid runtime value %s" [AStr (Runtime cfg)])).
Proof.
  intros H. unfold secondGenMinorVersion, parseGo1MinorVersion, parseMinorVersion.
  destruct (String.prefix "go1." (TrimSuffix _ "RC")) eqn:Hp; [|done].
  apply prefix_TrimSuffix in Hp. apply (prefix_of_prefix "go1" ".") in Hp.
  by rewrite replaceFirst_no_go1 in Hp.
Qed.

(** X11.  What is none of the three kinds of application gets no version
    from its configuration.  When the flag [-go-version] is not set and
    the configuration is not for Flex, its runtime is not [go] and does
    not start with [go1], [minorVersion] fails with the error for a
    second-generation runtime; the case of [main] for an unrecognized
    runtime is reached with the flag only. *)
Theorem minorVersion_unrecognized web cfg :
  isLegacyStandard cfg = false ->
  isFlex cfg = false ->
  isStandardSecondGen cfg = false ->
  minorVersion web cfg ""
  = ((-1)%Z, Some (Errorf "invalid runtime value %s" [AStr (Runtime cfg)])).
Proof.
  intros Hl Hf Hs. unfold minorVersion. rewrite Hl, Hf. simpl.
  apply secondGenMinorVersion_no_go1.
  unfold isStandardSecondGen in Hs. by rewrite Hf in Hs.
Qed.

Lemma minorVersion_unrecognized_python :
  minorVersion VersionSamples.noWeb VersionSamples.python ""
  = ((-1)%Z, Some (Errorf "invalid runtime value %s" [AStr "python27"])).
Proof.
  apply (minorVersion_unrecognized VersionSamples.noWeb VersionSamples.python);
    reflexivity.
Defined.

Lemma Atoi_dot s : Atoi ("." +:+ s) = (0%Z, Some ErrSyntax).
Proof. done. Qed.

Lemma itoa_first n :
  (0 <= n)%Z -> exists d rest, (0 <= d <= 9)%Z /\ itoa n = String (digitChar d) rest.
Proof.
  intros Hn. unfold itoa.
  assert (Hlt : (n <? 0)%Z = false) by (apply Z.ltb_ge; lia). rewrite Hlt.
  destruct (decimal_shape 19 n "" Hn) as (d & pre & Hd & Heq & _). eauto.
Qed.

(** X12.  The runtime is spelled with a dot for Flex and without one for
    the second generation of Standard.  Without the flag [-go-version],
    for the runtime [go1N] or [go1.N], with or without [RC] after it,
    [minorVersion] gives [N] when the spelling is the one of the kind of
    application (dotted exactly for Flex), and fails otherwise: a
    configuration that is not for Flex with the runtime [go1.11] counts as
    second generation and is then rejected. *)
Theorem minorVersion_runtime web cfg n (dotted rc : bool) :
  (0 <= n < 2 ^ 63)%Z ->
  Runtime cfg = "go1" +:+ (if dotted then "." else "") +:+ itoa n
                +:+ (if rc then "RC" else "") ->
  isStandardSecondGen cfg = negb (isFlex cfg) /\
  minorVersion web cfg ""
  = if Bool.eqb (isFlex cfg) dotted then (n, None)
    else ((-1)%Z,
          Some (Errorf (if isFlex cfg then "unable to stage for runtime %q"
                        else "invalid runtime value %s")
                       [AStr (Runtime cfg)])).
Proof.
  intros Hn Hr.
  assert (Hgo : String.eqb (Runtime cfg) "go" = false) by (by rewrite Hr).
  assert (Hpre : String.prefix "go1" (Runtime cfg) = true)
    by (rewrite Hr; apply prefix_app).
  split.
  { unfold isStandardSecondGen. rewrite Hpre. by destruct (isFlex cfg). }
  unfold minorVersion, isLegacyStandard. rewrite Hgo, andb_false_r. cbn [negb].
  change (String.eqb "" "") with true. cbn [negb].
  destruct (itoa_first n ltac:(lia)) as (d & rest & Hd & Hfirst).
  destruct (digitChar_digit d Hd) as (_ & _ & Hdot & _).
  destruct (isFlex cfg) eqn:Hf; unfold flexMinorVersion, secondGenMinorVersion;
    rewrite ?Hgo; destruct dotted; cbn [Bool.eqb].
  - rewrite Hr. change ("go1" +:+ "." +:+ ?x) with ("go1." +:+ x).
    by rewrite parseGo1MinorVersion_itoa.
  - rewrite Hr at 1. change ("go1" +:+ "" +:+ ?x) with ("go1" +:+ x).
    unfold parseGo1MinorVersion, parseMinorVersion.
    rewrite TrimSuffix_itoa by lia. rewrite Hfirst.
    change (String.prefix "go1." ("go1" +:+ String (digitChar d) rest))
      with (if ascii_dec "." (digitChar d) then String.prefix "" rest else false).
    destruct (ascii_dec "." (digitChar d)) as [He|]; [|done].
    by rewrite <- He in Hdot.
  - rewrite Hr at 1. change ("go1" +:+ "." +:+ ?x) with ("go1" +:+ ("." +:+ x)).
    rewrite replaceFirst_found.
    change ("go1." +:+ "." +:+ ?x) with ("go1.." +:+ x).
    unfold parseGo1MinorVersion, parseMinorVersion.
    rewrite TrimSuffix_itoa by lia.
    change ("go1.." +:+ itoa n) with ("go1." +:+ ("." +:+ itoa n)).
    by rewrite prefix_app, TrimPrefix_app, Atoi_dot.
  - rewrite Hr. change ("go1" +:+ "" +:+ ?x) with ("go1" +:+ x).
    rewrite replaceFirst_found. by rewrite parseGo1MinorVersion_itoa.
Qed.

Lemma minorVersion_runtime_go111 :
  isStandardSecondGen (VersionSamples.standard "go1.11")
  = negb (isFlex (VersionSamples.standard "go1.11")) /\
  minorVersion VersionSamples.noWeb (VersionSamples.standard "go1.11") ""
  = if Bool.eqb (isFlex (VersionSamples.standard "go1.11")) true then (11%Z, None)
    else ((-1)%Z,
          Some (Errorf (if isFlex (VersionSamples.standard "go1.11")
                        then "unable to stage for runtime %q"
                        else "invalid runtime value %s")
                       [AStr (Runtime (VersionSamples.standard "go1.11"))])).
Proof.
  apply (minorVersion_runtime VersionSamples.noWeb (VersionSamples.standard "go1.11")
           11 true false).
  - lia.
  - reflexivity.
Defined.

(** *** The release tags *)

Lemma wrapInt_small z : (- 2 ^ 63 <= z < 2 ^ 63)%Z -> wrapInt z = z.
Proof. intros Hz. unfold wrapInt. rewrite Z.mod_small; lia. Qed.

Lemma relsLoop_spec mv k fuel i rels :
  k <= fuel -> (1 <= i)%Z -> k = Z.to_nat (mv + 1 - i) -> (mv < 2 ^ 63 - 1)%Z ->
  relsLoop fuel mv i rels
  = Some (rels ++ ((fun j => "go1." +:+ itoa j) <$> seqZ i (Z.of_nat k))).
Proof.
  revert fuel i rels. induction k as [|k IH]; intros fuel i rels Hk Hi Hend Hmv.
  - assert (Hgt : (i <=? mv)%Z = false) by (apply Z.leb_gt; lia).
    destruct fuel; cbn [relsLoop]; rewrite Hgt; by rewrite app_nil_r.
  - destruct fuel as [|fuel]; [lia|].
    assert (Hle : (i <=? mv)%Z = true) by (apply Z.leb_le; lia).
    cbn [relsLoop]. rewrite Hle, wrapInt_small by lia.
    rewrite IH by lia.
    rewrite (seqZ_cons i (Z.of_nat (S k))) by lia.
    replace (Z.pred (Z.of_nat (S k))) with (Z.of_nat k) by lia.
    replace (Z.succ i) with (i + 1)%Z by lia.
    by rewrite fmap_cons, <- app_assoc.
Qed.

(** X13.  The release tags are [go1.1] to [go1.N], and each one reads back
    as its number.  For a minor version below the largest [int], the loop
    of [buildContext] ends after that many iterations, with one tag for
    each number from 1 to the minor version, in order (none for a minor
    version below 1), and [parseGo1MinorVersion] gives for each tag the
    number it was made from. *)
Theorem releaseTags_parse mv :
  (mv < 2 ^ 63 - 1)%Z ->
  exists tags,
    releaseTags (Z.to_nat mv) mv = Some tags /\
    length tags = Z.to_nat mv /\
    forall i, (1 <= i <= mv)%Z ->
      tags !! Z.to_nat (i - 1) = Some ("go1." +:+ itoa i) /\
      parseGo1MinorVersion ("go1." +:+ itoa i) = (i, true).
Proof.
  intros Hmv. eexists. split.
  { unfold releaseTags. apply (relsLoop_spec mv (Z.to_nat mv)); lia. }
  split.
  { rewrite app_nil_l, length_fmap, length_seqZ. lia. }
  intros i Hi. split.
  - rewrite app_nil_l, list_lookup_fmap.
    rewrite (lookup_seqZ_lt 1 (Z.of_nat (Z.to_nat mv))) by lia.
    simpl. do 3 f_equal. lia.
  - pose proof (parseGo1MinorVersion_itoa i false ltac:(lia)) as H.
    by rewrite append_nil_r in H.
Qed.

Lemma releaseTags_parse_go11 :
  exists tags,
    releaseTags (Z.to_nat 11) 11 = Some tags /\
    length tags = Z.to_nat 11 /\
    forall i, (1 <= i <= 11)%Z ->
      tags !! Z.to_nat (i - 1) = Some ("go1." +:+ itoa i) /\
      parseGo1MinorVersion ("go1." +:+ itoa i) = (i, true).
Proof. apply (releaseTags_parse 11). lia. Defined.

(** X14.  The flag wins.  With [-go-version=1.N] the minor version is [N]
    for every configuration, also one that is for no kind of application
    the stager knows, and nothing is downloaded. *)
Theorem minorVersion_flag web cfg n :
  (0 <= n < 2 ^ 63)%Z ->
  minorVersion web cfg ("1." +:+ itoa n) = (n, None).
Proof.
  intros Hn. unfold minorVersion, parseMinorVersion.
  rewrite prefix_app, TrimPrefix_app, Atoi_itoa by done. done.
Qed.

Lemma minorVersion_flag_python :
  minorVersion VersionSamples.noWeb VersionSamples.python ("1." +:+ itoa 8)
  = (8%Z, None).
Proof. apply (minorVersion_flag VersionSamples.noWeb VersionSamples.python 8). lia. Defined.

(** * What staging never removes *)

Lemma keeps_refl t : keeps t t.
Proof. intros p. split; [done|]. intros data H. by exists data. Qed.

Lemma keeps_trans t1 t2 t3 : keeps t1 t2 -> keeps t2 t3 -> keeps t1 t3.
Proof.
  intros H12 H23 p. split.
  - intros H. by apply H23, H12.
  - intros data H. destruct (proj2 (H12 p) _ H) as [data' H'].
    exact (proj2 (H23 p) _ H').
Qed.

Lemma keeps_file p data t :
  t !! p <> Some NDir -> keeps t (<[p := NFile data]> t).
Proof.
  intros Hp q. destruct (decide (p = q)) as [<-|Hne].
  - rewrite lookup_insert_eq. split; [done|]. intros _ _. by exists data.
  - rewrite lookup_insert_ne by done. split; [done|]. intros d H. by exists d.
Qed.

Lemma mkdirs_keeps_all pre names t : keeps t (mkdirs pre names t).1.
Proof.
  destruct (mkdirs pre names t) as [t' e] eqn:H. intros p. split.
  - intros Hp. by eapply mkdirs_keeps.
  - intros data Hp. exists data. by eapply mkdirs_keeps.
Qed.

Lemma Create_keeps p t t' : Create p t = Ok t' -> keeps t t' /\ t' !! p <> Some NDir.
Proof.
  intros H. apply Create_inv in H as (_ & _ & Hnd & ->). split.
  - by apply keeps_file.
  - by rewrite lookup_insert_eq.
Qed.

Lemma copyFile_keeps os dstRoot d s t : keeps t (copyFile os dstRoot d s t).1.
Proof.
  unfold copyFile. destruct (ReadFile os s) as [data|err|partial err].
  - destruct (Create (dstRoot ++ d) t) as [t1|err'] eqn:Hc; [|apply keeps_refl].
    apply Create_keeps in Hc as [Hk Hnd].
    eapply keeps_trans; [done|]. by apply keeps_file.
  - apply keeps_refl.
  - destruct (Create (dstRoot ++ d) t) as [t1|err'] eqn:Hc; [|apply keeps_refl].
    apply Create_keeps in Hc as [Hk Hnd].
    eapply keeps_trans; [done|]. by apply keeps_file.
Qed.

Lemma copyTree_keeps os dstRoot recursive fuel dstDir srcDir t r :
  copyTree os fuel dstRoot dstDir srcDir recursive t = Some r -> keeps t r.1.
Proof.
  revert dstDir srcDir t r.
  induction fuel as [|fuel IH]; intros dstDir srcDir t r H; [done|].
  apply copyTree_inv in H as (fuel' & t1 & e1 & [= <-] & Hm & H).
  assert (Hk1 : keeps t t1).
  { pose proof (mkdirs_keeps_all [] (dstRoot ++ dstDir) t) as Hk.
    unfold MkdirAll in Hm. by rewrite Hm in Hk. }
  destruct e1 as [err|]; [by subst r|].
  destruct (ReadDir os srcDir) as [entries|err]; [|by subst r].
  eapply keeps_trans; [exact Hk1|]. clear Hm Hk1. revert t1 H.
  induction entries as [|entry rest IHrest]; intros t1 H.
  - injection H as <-. apply keeps_refl.
  - apply copyEntries_cons in H as (t2 & e2 & Hstep & H).
    assert (Hk2 : keeps t1 t2).
    { destruct Hstep as [Hs|err Hs Hst|info Hs Hst Hd Hrec|info t' err Hs Hst Hd Hrec Hcall
                        |info t' err Hs Hst Hd Hcf]; try apply keeps_refl.
      - exact (IH _ _ _ _ Hcall).
      - pose proof (copyFile_keeps os dstRoot (dstDir ++ [fiName entry])
                      (srcDir ++ [fiName entry]) t1) as Hk.
        by rewrite Hcf in Hk. }
    destruct e2 as [err|]; [by subst r|].
    eapply keeps_trans; [exact Hk2|]. by apply IHrest.
Qed.

Lemma bundle_keeps os fuel dst dstDepsDir deps t r :
  bundle os fuel dst dstDepsDir deps t = Some r -> keeps t r.1.
Proof.
  revert t. induction deps as [|pkg rest IH]; intros t H.
  - injection H as <-. apply keeps_refl.
  - apply bundle_inv in H as (t1 & e1 & Hc & H).
    apply copyTree_keeps in Hc. destruct e1 as [e|]; [by subst r|].
    eapply keeps_trans; [exact Hc|]. by apply IH.
Qed.

Lemma writeFile_keeps file s t t' : writeFile file s t = Ok t' -> keeps t t'.
Proof.
  unfold writeFile. destruct (Create file t) as [t1|e] eqn:Hc; [|done].
  intros [= <-]. apply Create_keeps in Hc as [Hk Hnd].
  eapply keeps_trans; [done|]. by apply keeps_file.
Qed.

Lemma writeMainPkgFile_keeps os file appDir t :
  keeps t (writeMainPkgFile os file appDir t).1.
Proof.
  unfold writeMainPkgFile. destruct (Abs os appDir) as [mainDir|e]; [|apply keeps_refl].
  destruct (findMainPath _ _ _) as [mainPath|e]; [|apply keeps_refl].
  destruct (String.eqb mainPath ""); [apply keeps_refl|].
  pose proof (mkdirs_keeps_all [] (removelast file) t) as Hk. unfold MkdirAll.
  destruct (mkdirs [] (removelast file) t) as [t1 [e|]]; [done|].
  destruct (writeFile file mainPath t1) as [t2|e] eqn:Hw; [|done].
  eapply keeps_trans; [exact Hk|]. by eapply writeFile_keeps.
Qed.

Lemma writeGoModMainPkgFile_keeps os dst gm appDir t :
  keeps t (writeGoModMainPkgFile os dst gm appDir t).1.
Proof.
  unfold writeGoModMainPkgFile.
  destruct (goModRelativeBuildPath os gm appDir) as [mainPath|e]; [|apply keeps_refl].
  pose proof (mkdirs_keeps_all [] (removelast dst) t) as Hk. unfold MkdirAll.
  destruct (mkdirs [] (removelast dst) t) as [t1 [e|]]; [done|].
  destruct (writeFile dst mainPath t1) as [t2|e] eqn:Hw; [|done].
  eapply keeps_trans; [exact Hk|]. by eapply writeFile_keeps.
Qed.

Lemma stageLegacyStandard_keeps os fuel src dst buildCtx w o :
  stageLegacyStandard os fuel src dst buildCtx w = Some o ->
  keeps (staged w) (staged (worldOf o)).
Proof.
  unfold stageLegacyStandard. intros H.
  destruct (analyze _ _ _ _ _ _) as [[deps [e|]]|]; [|  |done].
  { injection H as <-. apply keeps_refl. }
  destruct (bundle _ _ _ _ _ _) as [[t [e|]]|] eqn:Hb; [| |done];
    apply bundle_keeps in Hb.
  { by injection H as <-. }
  destruct (copyTree _ _ _ _ _ _ t) as [[t' [e|]]|] eqn:Hc; [| |done];
    apply copyTree_keeps in Hc; injection H as <-;
    exact (keeps_trans _ _ _ Hb Hc).
Qed.

Lemma stageFlex_keeps os fuel src dst buildCtx w o :
  stageFlex os fuel src dst buildCtx w = Some o ->
  keeps (staged w) (staged (worldOf o)).
Proof.
  unfold stageFlex. intros H. cbn [staged] in H.
  pose proof (writeMainPkgFile_keeps os (comps dst ++ ["_gopath"; "main-package-path"])
                src (staged w)) as Hw.
  destruct (writeMainPkgFile _ _ _ _) as [t0 [e|]].
  { by injection H as <-. }
  destruct (analyze _ _ _ _ _ _) as [[deps [e|]]|]; [| |done].
  { by injection H as <-. }
  destruct (bundle _ _ _ _ _ _) as [[t [e|]]|] eqn:Hb; [| |done];
    apply bundle_keeps in Hb.
  { injection H as <-. exact (keeps_trans _ _ _ Hw Hb). }
  destruct (copyTree _ _ _ _ _ _ t) as [[t' [e|]]|] eqn:Hc; [| |done];
    apply copyTree_keeps in Hc; injection H as <-;
    exact (keeps_trans _ _ _ Hw (keeps_trans _ _ _ Hb Hc)).
Qed.

Lemma stageStandardSecondGen_keeps os fuel src dst buildCtx w o :
  stageStandardSecondGen os fuel src dst buildCtx w = Some o ->
  keeps (staged w) (staged (worldOf o)).
Proof.
  unfold stageStandardSecondGen. intros H.
  destruct (goModPath os src) as [[gm [err|]]|]; [| |done].
  { injection H as <-. apply keeps_refl. }
  destruct (_ || _).
  { by apply stageFlex_keeps in H. }
  cbn [staged] in H.
  pose proof (writeGoModMainPkgFile_keeps os (comps dst ++ ["_main-package-path"])
                gm src (staged w)) as Hw.
  destruct (writeGoModMainPkgFile _ _ _ _ _) as [t0 [e|]].
  { by injection H as <-. }
  destruct (copyTree _ _ _ _ _ _ t0) as [[t' [e|]]|] eqn:Hc; [| |done];
    apply copyTree_keeps in Hc; injection H as <-;
    exact (keeps_trans _ _ _ Hw Hc).
Qed.

(** X15.  Staging removes nothing.  Whatever way a staging function ends,
    with or without an error, every directory that was in the staged tree
    before is a directory after, and every regular file is a regular file
    after, with its content or a new one: what an earlier run left in the
    destination stays there unless the same path is staged again. *)
Theorem staging_keeps os fuel src dst buildCtx w :
  (forall o, stageLegacyStandard os fuel src dst buildCtx w = Some o ->
             keeps (staged w) (staged (worldOf o))) /\
  (forall o, stageFlex os fuel src dst buildCtx w = Some o ->
             keeps (staged w) (staged (worldOf o))) /\
  (forall o, stageStandardSecondGen os fuel src dst buildCtx w = Some o ->
             keeps (staged w) (staged (worldOf o))).
Proof.
  split; [|split]; intros o.
  - apply stageLegacyStandard_keeps.
  - apply stageFlex_keeps.
  - apply stageStandardSecondGen_keeps.
Qed.
